(** * TunableOp: the selection-and-benchmarking protocol

    A shallow embedding of [aten/src/ATen/cuda/tunable/TunableOp.h]:
    the callable facade [operator()], the benchmark harness
    ([WarmUp], [Profile]) and the selector [FindFastest].

    The code talks to collaborators that live outside the header (the
    candidates, the timer, the tuning context, the results manager, the
    parameter object).  They are gathered in an environment [Env]: every
    answer of a collaborator is a function of the history of events so
    far, so any deterministic collaborator can be plugged in and the
    embedding stays executable.

    A computation threads the state of the world and ends in one of three
    ways: it returns, it throws the error of a failed [TORCH_CHECK], or
    its behaviour is undefined (a call through a null pointer, an index
    into an empty vector, a division by zero, a [double] too large for the
    [int] it is converted to).  Everything the code does to the outside,
    its [TUNABLE_LOG] messages included, is recorded in a trace; the
    theorems are statements on these traces. *)

From Stdlib Require Import ZArith Floats.SpecFloat.
From stdpp Require Import base gmap strings list.

Open Scope Z_scope.

(** ** Machine numbers *)

Module Num.

(** [int] is 32 bits wide, [size_t] 64 bits wide. *)
Definition INT_MIN : Z := - 2 ^ 31.
Definition INT_MAX : Z := 2 ^ 31 - 1.
Definition SIZE_MAX : Z := 2 ^ 64 - 1.

(** [static_cast<int>] of an integer value: reduction modulo 2^32 into
    the signed range. *)
Definition wrap_int (z : Z) : Z := (z + 2 ^ 31) mod 2 ^ 32 - 2 ^ 31.

(** Conversion of an integer value to [size_t], and [size_t]
    arithmetic: reduction modulo 2^64. *)
Definition wrap_size (z : Z) : Z := z mod 2 ^ 64.

(** [double] is IEEE 754 binary64. *)
Definition double : Type := spec_float.
Definition prec : Z := 53.
Definition emax : Z := 1024.

Definition infinity : double := S754_infinity false.
Definition dzero : double := S754_zero false.
Definition dmul : double -> double -> double := SFmul prec emax.
Definition ddiv : double -> double -> double := SFdiv prec emax.
(** [a < b], [a <= b]; false as soon as one side is a NaN. *)
Definition dlt : double -> double -> bool := SFltb.
Definition dle : double -> double -> bool := SFleb.

(** Integer to [double], round to nearest even. *)
Definition double_of_Z (z : Z) : double := binary_normalize prec emax z 0 false.

(** The integer part of a finite [double] (truncation toward zero). *)
Definition trunc (x : double) : option Z :=
  match x with
  | S754_zero _ => Some 0
  | S754_finite s m e =>
      let a := if 0 <=? e then Z.pos m * 2 ^ e else Z.pos m / 2 ^ (- e) in
      Some (if s then - a else a)
  | S754_infinity _ | S754_nan => None
  end.

(** [double] to [int]: the truncated value when it fits in an [int];
    for the other doubles (too large, infinite, NaN) C++ leaves the
    behaviour undefined ([None]). *)
Definition fptosi (x : double) : option Z :=
  match trunc x with
  | Some z => if (INT_MIN <=? z) && (z <=? INT_MAX) then Some z else None
  | None => None
  end.

End Num.
Export Num.

(** ** Data model *)

(** Modelled from the spec: [TuningStatus] is declared in Tunable.h, which
    is not among the sources; a call reports OK or FAIL. *)
Inductive TuningStatus := OK | FAIL.

(** [status == OK] *)
Definition status_ok (status : TuningStatus) : bool :=
  match status with OK => true | FAIL => false end.

(** Modelled from the spec: [ResultEntry] is declared in Tunable.h, which
    is not among the sources.  The header under study builds one from a
    candidate name and a duration ([ResultEntry(id_name, min_duration_ms)]),
    uses it as a key of the registry ([ops_.find(result)]) and compares it
    with [==].  A decision is identified by its name: Null (nothing cached)
    and Default (explicit fallback) are the decisions with the reserved
    names, and [==] compares names. *)
Record ResultEntry := mkResultEntry { key_ : string; time_ : double }.

Module ResultEntry.
Definition Null : ResultEntry := mkResultEntry "Null" dzero.
Definition Default : ResultEntry := mkResultEntry "Default" dzero.
Definition eqb (a b : ResultEntry) : bool := bool_decide (key_ a = key_ b).
End ResultEntry.

(** Objects are known by their identity. *)
Definition Callable : Type := nat.
Definition ParamsPtr : Type := nat.

(** The messages of [TUNABLE_LOG], by the place that prints them. *)
Inductive LogMsg :=
| LogFindingFastest (op_sig params_sig : string) (candidates : nat)
| LogICacheFlushEnabled
| LogRotatingBuffer (rotating_size param_size param_count : Z)
| LogRotatingNotRequested
| LogUnsupported (id : nat)
| LogNumericsFailed (id : nat)
| LogSkipSlow (id : nat)
| LogTuningUsing (id : nat) (warmup_iter tuning_iter : Z)
| LogFoundBetter (id : nat) (duration_ms : double)
| LogFoundFastest (id_name : string)
| LogNoResult.

(** What the code does to the outside world, in order. *)
Inductive Event :=
| EvFlush
| EvDeepCopy (src : ParamsPtr) (for_rotation : bool) (copy : ParamsPtr)
| EvDelete (p : ParamsPtr)
| EvCall (op : Callable) (p : ParamsPtr) (status : TuningStatus)
| EvNumericalCheck (reference p : ParamsPtr) (status : TuningStatus)
| EvTimerStart
| EvTimerEnd
| EvLookup (op_sig params_sig : string) (r : ResultEntry)
| EvAdd (op_sig params_sig : string) (r : ResultEntry)
| EvLog (m : LogMsg).

(** The knobs read from the tuning context. *)
Record TuningContext := {
  IsTunableOpEnabled : bool;
  IsTuningEnabled : bool;
  IsNumericsCheckEnabled : bool;
  IsICacheFlushEnabled : Z;          (* read into an int and into a bool *)
  GetRotatingBufferSize : Z;         (* size_t *)
  GetMaxWarmupDurationMs : double;
  GetMaxWarmupIterations : Z;        (* int *)
  GetMaxTuningDurationMs : double;
  GetMaxTuningIterations : Z         (* int *)
}.

(** The collaborators.  [call_status h op p] is what [op->Call(p)] returns
    after the history [h]; likewise for the numerical check and for the
    reading of the timer. *)
Record Env := {
  ctx : TuningContext;
  call_status : list Event -> Callable -> ParamsPtr -> TuningStatus;
  numerical_check : list Event -> ParamsPtr -> ParamsPtr -> TuningStatus;
  timer_duration : list Event -> double;
  GetSize : bool -> Z;               (* params->GetSize(for_rotation), size_t *)
  params_signature : ParamsPtr -> string;
  type_name : string                 (* what CreateSignature returns for the facade *)
}.

(** The registry of a facade: [ops_] and [op_names_]. *)
Record TunableOp := {
  ops_ : gmap string Callable;
  op_names_ : list string
}.

(** [RegisterOp]: [emplace_back] on the names, [emplace] on the map (an
    existing entry is kept). *)
Definition RegisterOp (name : string) (op : Callable) (self : TunableOp) : TunableOp :=
  {| op_names_ := op_names_ self ++ [name];
     ops_ := match ops_ self !! name with
             | Some _ => ops_ self
             | None => <[name := op]> (ops_ self)
             end |}.

Definition empty_op : TunableOp := {| ops_ := ∅; op_names_ := [] |}.

(** The state the code reads and writes. *)
Record World := {
  trace : list Event;
  next_ptr : ParamsPtr;                        (* next address DeepCopy hands out *)
  mgr : gmap (string * string) ResultEntry;    (* the results manager *)
  signature_ : option string                   (* None until call_once has run *)
}.

(** ** Computations: state, fatal errors, undefined behaviour *)

Inductive Res (A : Type) :=
| Ok (a : A) (w : World)      (* normal return *)
| Fatal (w : World)           (* a TORCH_CHECK failed: c10::Error is thrown *)
| Undef.                      (* undefined behaviour *)
Arguments Ok {A} a w.
Arguments Fatal {A} w.
Arguments Undef {A}.

Definition M (A : Type) : Type := World -> Res A.

Definition ret {A} (a : A) : M A := fun w => Ok a w.

Definition bind {A B} (m : M A) (k : A -> M B) : M B :=
  fun w => match m w with
           | Ok a w' => k a w'
           | Fatal w' => Fatal w'
           | Undef => Undef
           end.

Declare Scope M_scope.
Delimit Scope M_scope with M.
Notation "'let*' x ':=' m 'in' k" := (bind m (fun x => k))
  (at level 10, x name, m at level 100, k at level 200) : M_scope.
Notation "'let*' ' p ':=' m 'in' k" := (bind m (fun p => k))
  (at level 10, p pattern, m at level 100, k at level 200) : M_scope.
Notation "m1 '>>' m2" := (bind m1 (fun _ => m2))
  (at level 100, m2 at level 200, right associativity) : M_scope.
Open Scope M_scope.

Definition undefined {A} : M A := fun _ => Undef.

Definition world_emit (e : Event) (w : World) : World :=
  {| trace := trace w ++ [e]; next_ptr := next_ptr w;
     mgr := mgr w; signature_ := signature_ w |}.

Definition emit (e : Event) : M unit := fun w => Ok tt (world_emit e w).

Definition TUNABLE_LOG (m : LogMsg) : M unit := emit (EvLog m).

Definition TORCH_CHECK (b : bool) : M unit :=
  fun w => if b then Ok tt w else Fatal w.

Definition when (b : bool) (m : M unit) : M unit := if b then m else ret tt.

(** [n] rounds of [m]. *)
Fixpoint repeatM (n : nat) (m : M unit) : M unit :=
  match n with
  | O => ret tt
  | S n' => m >> repeatM n' m
  end.

(** ** The collaborators, as computations *)

Section Model.

Variable env : Env.
Variable self : TunableOp.

(** [op->Call(p)] *)
Definition Call (op : Callable) (p : ParamsPtr) : M TuningStatus :=
  fun w => let status := call_status env (trace w) op p in
           Ok status (world_emit (EvCall op p status) w).

(** [params->DeepCopy(for_rotation)]: a fresh object. *)
Definition DeepCopy (params : ParamsPtr) (for_rotation : bool) : M ParamsPtr :=
  fun w => let p := next_ptr w in
           Ok p {| trace := trace w ++ [EvDeepCopy params for_rotation p];
                   next_ptr := S p; mgr := mgr w; signature_ := signature_ w |}.

(** [p->Delete()] *)
Definition Delete (p : ParamsPtr) : M unit := emit (EvDelete p).

(** [reference->NumericalCheck(p)] *)
Definition NumericalCheck (reference p : ParamsPtr) : M TuningStatus :=
  fun w => let status := numerical_check env (trace w) reference p in
           Ok status (world_emit (EvNumericalCheck reference p status) w).

Definition flush_icache : M unit := emit EvFlush.

(** Modelled from the spec: the results manager is declared in
    Tunable.h, which is not among the sources.  It is a cache keyed by
    (operation signature, parameter signature); a lookup that finds
    nothing answers Null, and an insert overwrites. *)
Definition Lookup (op_sig params_sig : string) : M ResultEntry :=
  fun w => let r := default ResultEntry.Null (mgr w !! (op_sig, params_sig)) in
           Ok r (world_emit (EvLookup op_sig params_sig r) w).

Definition Add (op_sig params_sig : string) (r : ResultEntry) : M unit :=
  fun w => Ok tt {| trace := trace w ++ [EvAdd op_sig params_sig r];
                    next_ptr := next_ptr w;
                    mgr := <[(op_sig, params_sig) := r]> (mgr w);
                    signature_ := signature_ w |}.

(** [CreateSignature] (lines 257-268), on the demangled name of the type.
    Outside Windows the name is written into a buffer of 256 bytes on the
    stack: a name of at most 255 bytes fits with its terminator and is
    returned; for a longer one [__cxa_demangle] reallocates the buffer,
    which is not on the heap, and the behaviour is undefined ([None]).
    The Windows branch returns the name of [typeid] as it is. *)
Definition CreateSignature (name : string) : option string :=
  if (String.length name <? 256)%nat then Some name else None.

(** [Signature()]: [call_once] fills [signature_] the first time.
    [type_name env] stands for what [CreateSignature] returned: the model
    covers the facades for which it returns, that is, whose name fits the
    buffer ([CreateSignature_fits] below); the others are outside it. *)
Definition Signature : M string :=
  fun w => match signature_ w with
           | Some s => Ok s w
           | None => Ok (type_name env)
                       {| trace := trace w; next_ptr := next_ptr w; mgr := mgr w;
                          signature_ := Some (type_name env) |}
           end.

(** [ops_[name].get()] followed by a use of the pointer: a name that is
    not registered yields a null pointer, and calling through it is
    undefined. *)
Definition ops_at (name : string) : M Callable :=
  match ops_ self !! name with
  | Some op => ret op
  | None => undefined
  end.

(** [param[i % param.size()]] *)
Definition param_at (param : list ParamsPtr) (i : nat) : M ParamsPtr :=
  match param with
  | [] => undefined
  | _ => match param !! (i mod length param)%nat with
         | Some p => ret p
         | None => undefined
         end
  end.

(** ** Benchmark harness *)

Definition do_flush : bool := negb (IsICacheFlushEnabled (ctx env) =? 0).

(** The loop shared by [WarmUp] and [Profile]:
    [for (size_t i = 0; i < num_iter; i++)], here with [n] rounds left
    and the counter at [i]. *)
Fixpoint harness_loop (op : Callable) (param : list ParamsPtr) (n i : nat) : M unit :=
  match n with
  | O => ret tt
  | S n' =>
      when do_flush flush_icache >>
      let* p := param_at param i in
      let* status := Call op p in
      TORCH_CHECK (status_ok status) >>
      harness_loop op param n' (S i)
  end.

Definition WarmUp (op : Callable) (param : list ParamsPtr) (num_iter : Z) : M unit :=
  harness_loop op param (Z.to_nat num_iter) 0.

(** [TimerT] is a template parameter; its [Duration()] is taken to
    return a [double]. *)
Definition Profile (op : Callable) (param : list ParamsPtr) (num_iter : Z) : M double :=
  emit EvTimerStart >>
  harness_loop op param (Z.to_nat num_iter) 0 >>
  emit EvTimerEnd >>
  fun w => Ok (ddiv (timer_duration env (trace w)) (double_of_Z num_iter)) w.

(** ** Selector *)

(** [int duration_iters = max_duration / approx_duration;]: the quotient
    of two doubles converted to [int]; undefined ([None]) when the
    quotient does not fit in an [int]. *)
Definition duration_iters (max_duration approx_duration : double) : option Z :=
  fptosi (ddiv max_duration approx_duration).

(** Lines 192-208: the number of warmup iterations. *)
Definition warmup_iterations (approx_duration : double) : option Z :=
  let max_warmup_duration := GetMaxWarmupDurationMs (ctx env) in
  let max_warmup_iter := GetMaxWarmupIterations (ctx env) in
  if dle dzero max_warmup_duration then
    match duration_iters max_warmup_duration approx_duration with
    | Some duration_iters =>
        if 0 <=? max_warmup_iter then Some (Z.min max_warmup_iter duration_iters)
        else Some duration_iters
    | None => None
    end
  else if 0 <=? max_warmup_iter then Some max_warmup_iter
  else Some 1.

(** Lines 210-229: the number of tuning iterations; [pool_size] is
    [reusable_params.size()]. *)
Definition tuning_iterations (approx_duration : double) (pool_size : Z) : option Z :=
  let max_tuning_duration := GetMaxTuningDurationMs (ctx env) in
  let max_tuning_iter := GetMaxTuningIterations (ctx env) in
  let clamp (tuning_iter : Z) : Z :=
    let tuning_iter := Z.max 1 tuning_iter in
    Z.max (wrap_int pool_size) tuning_iter in
  if dlt dzero max_tuning_duration then
    match duration_iters max_tuning_duration approx_duration with
    | Some duration_iters =>
        if 0 <? max_tuning_iter then Some (clamp (Z.min max_tuning_iter duration_iters))
        else Some (clamp duration_iters)
    | None => None
    end
  else if 0 <? max_tuning_iter then Some (clamp max_tuning_iter)
  else Some (clamp 100).

(** Lines 140-143: the number of parameter copies; the division is
    undefined for a zero [param_size]. *)
Definition param_count (rotating_size param_size : Z) : option Z :=
  if param_size =? 0 then None
  else Some (wrap_size (rotating_size / param_size + 1)).

(** Lines 153-156. *)
Fixpoint make_copies (params : ParamsPtr) (use_buffer_rotation : bool) (n : nat)
  : M (list ParamsPtr) :=
  match n with
  | O => ret []
  | S n' =>
      let* p := DeepCopy params use_buffer_rotation in
      let* rest := make_copies params use_buffer_rotation n' in
      ret (p :: rest)
  end.

(** Lines 161-181: the correctness gate of candidate [i]; [false]
    stands for [continue]. *)
Definition gate (i : nat) (candidate : Callable) (params reference_params : ParamsPtr)
    (reusable_params : list ParamsPtr) : M bool :=
  if IsNumericsCheckEnabled (ctx env) then
    let* numerical_params := DeepCopy params false in
    let* status := Call candidate numerical_params in
    if negb (status_ok status) then
      TUNABLE_LOG (LogUnsupported i) >> ret false
    else
      let* status := NumericalCheck reference_params numerical_params in
      Delete numerical_params >>
      if negb (status_ok status) then
        TUNABLE_LOG (LogNumericsFailed i) >> ret false
      else ret true
  else
    let* p0 := match reusable_params with
               | p :: _ => ret p
               | [] => undefined
               end in
    let* status := Call candidate p0 in
    if negb (status_ok status) then
      TUNABLE_LOG (LogUnsupported i) >> ret false
    else ret true.

(** [approx_duration > 2 * min_duration_ms] *)
Definition too_slow (approx_duration min_duration_ms : double) : bool :=
  dlt (dmul (double_of_Z 2) min_duration_ms) approx_duration.

Definition approx_num_iter : Z := 3.

(** Lines 159-244: one round of the loop over the candidates.  The
    state is [(min_duration_ms, id_name)]; returning it unchanged stands
    for [continue].  The round is undefined when a conversion of the
    calibration is. *)
Definition loop_body (params reference_params : ParamsPtr)
    (reusable_params : list ParamsPtr) (i : nat) (name : string)
    (st : double * string) : M (double * string) :=
  let min_duration_ms := fst st in
  let* candidate := ops_at name in
  let* pass := gate i candidate params reference_params reusable_params in
  if negb pass then ret st else
  let* approx_duration := Profile candidate reusable_params approx_num_iter in
  if too_slow approx_duration min_duration_ms then
    TUNABLE_LOG (LogSkipSlow i) >> ret st
  else
  match warmup_iterations approx_duration,
        tuning_iterations approx_duration (Z.of_nat (length reusable_params)) with
  | Some warmup_iter, Some tuning_iter =>
      TUNABLE_LOG (LogTuningUsing i warmup_iter tuning_iter) >>
      WarmUp candidate reusable_params (wrap_size warmup_iter) >>
      let* duration_ms := Profile candidate reusable_params (wrap_size tuning_iter) in
      if dlt duration_ms min_duration_ms then
        TUNABLE_LOG (LogFoundBetter i duration_ms) >> ret (duration_ms, name)
      else ret st
  | _, _ => undefined
  end.

(** [for (size_t i = 0; i < op_names_.size(); i++)], at index [i] with
    [names] still to visit. *)
Fixpoint candidates_loop (params reference_params : ParamsPtr)
    (reusable_params : list ParamsPtr) (names : list string) (i : nat)
    (st : double * string) : M (double * string) :=
  match names with
  | [] => ret st
  | name :: rest =>
      let* st' := loop_body params reference_params reusable_params i name st in
      candidates_loop params reference_params reusable_params rest (S i) st'
  end.

(** Lines 247-249. *)
Fixpoint delete_all (ps : list ParamsPtr) : M unit :=
  match ps with
  | [] => ret tt
  | p :: rest => Delete p >> delete_all rest
  end.

(** Lines 138-156: sizing and filling of the pool. *)
Definition make_pool (params : ParamsPtr) : M (list ParamsPtr) :=
  let rotating_size := GetRotatingBufferSize (ctx env) in
  let use_buffer_rotation := 0 <? rotating_size in
  let param_size := GetSize env use_buffer_rotation in
  match param_count rotating_size param_size with
  | None => undefined
  | Some count =>
      (if use_buffer_rotation
       then TUNABLE_LOG (LogRotatingBuffer rotating_size param_size count)
       else TUNABLE_LOG LogRotatingNotRequested) >>
      make_copies params use_buffer_rotation (Z.to_nat count)
  end.

Definition seed : double * string := (infinity, "Default"%string).

Definition FindFastest (params : ParamsPtr) : M ResultEntry :=
  let* op_sig := Signature in
  let params_sig := params_signature env params in
  TUNABLE_LOG (LogFindingFastest op_sig params_sig (length (op_names_ self))) >>
  let flush_iters := IsICacheFlushEnabled (ctx env) in
  when (0 <? flush_iters) (TUNABLE_LOG LogICacheFlushEnabled) >>
  repeatM (Z.to_nat flush_iters) flush_icache >>
  let* reference_params := DeepCopy params false in
  let* default_op := ops_at (key_ ResultEntry.Default) in
  let* status := Call default_op reference_params in
  TORCH_CHECK (status_ok status) >>
  let* reusable_params := make_pool params in
  let* '(min_duration_ms, id_name) :=
    candidates_loop params reference_params reusable_params (op_names_ self) 0 seed in
  delete_all reusable_params >>
  Delete reference_params >>
  TUNABLE_LOG (LogFoundFastest id_name) >>
  ret (mkResultEntry id_name min_duration_ms).

(** ** Operation facade *)

(** Lines 69-71: the dispatch to the candidate a decision names. *)
Definition dispatch (result : ResultEntry) (params : ParamsPtr) : M TuningStatus :=
  let iter := ops_ self !! key_ result in
  TORCH_CHECK (bool_decide (is_Some iter)) >>
  match iter with
  | Some op => Call op params
  | None => undefined
  end.

(** [operator()] *)
Definition operator_call (params : ParamsPtr) : M TuningStatus :=
  let* result :=
    if IsTunableOpEnabled (ctx env) then
      let* op_sig := Signature in
      let params_sig := params_signature env params in
      let* result := Lookup op_sig params_sig in
      if ResultEntry.eqb result ResultEntry.Null && IsTuningEnabled (ctx env) then
        let* result := FindFastest params in
        Add op_sig params_sig result >>
        ret result
      else ret result
    else ret ResultEntry.Default in
  let* result :=
    if ResultEntry.eqb result ResultEntry.Null then
      TUNABLE_LOG LogNoResult >> ret ResultEntry.Default
    else ret result in
  dispatch result params.

End Model.

(** ** Observations on runs *)

(** How a computation ended: the value (none after a fatal error) and the
    final world; nothing when the behaviour is undefined. *)
Definition finish {A} (r : Res A) : option (option A * World) :=
  match r with
  | Ok a w => Some (Some a, w)
  | Fatal w => Some (None, w)
  | Undef => None
  end.

(** The events a run added to the trace. *)
Definition new_events (w w' : World) : list Event :=
  drop (length (trace w)) (trace w').

(** The messages printed by a run, in order. *)
Fixpoint logs_of (evs : list Event) : list LogMsg :=
  match evs with
  | [] => []
  | EvLog m :: evs' => m :: logs_of evs'
  | _ :: evs' => logs_of evs'
  end.

(** The statuses of the candidate calls of a run, in order. *)
Fixpoint statuses (evs : list Event) : list TuningStatus :=
  match evs with
  | [] => []
  | EvCall _ _ st :: evs' => st :: statuses evs'
  | _ :: evs' => statuses evs'
  end.

(** [p->Delete()] occurs in the events. *)
Fixpoint deleted (p : ParamsPtr) (evs : list Event) : bool :=
  match evs with
  | [] => false
  | EvDelete q :: evs' => Nat.eqb p q || deleted p evs'
  | _ :: evs' => deleted p evs'
  end.

(** The copies made and never deleted afterwards. *)
Fixpoint leaked (evs : list Event) : list ParamsPtr :=
  match evs with
  | [] => []
  | EvDeepCopy _ _ p :: evs' =>
      if deleted p evs' then leaked evs' else p :: leaked evs'
  | _ :: evs' => leaked evs'
  end.

(** Some call of [op] happens between a start and the next stop of the
    timer. *)
Fixpoint timed_from (inside : bool) (op : Callable) (evs : list Event) : bool :=
  match evs with
  | [] => false
  | EvTimerStart :: evs' => timed_from true op evs'
  | EvTimerEnd :: evs' => timed_from false op evs'
  | EvCall c _ _ :: evs' => (inside && Nat.eqb c op) || timed_from inside op evs'
  | _ :: evs' => timed_from inside op evs'
  end.

Definition timed (op : Callable) (evs : list Event) : bool := timed_from false op evs.

(** ** A program logic for runs

    [post m Q]: whenever [m] ends, normally with a value or with a fatal
    error, the final trace is the initial one followed by events [evs],
    and [Q evs o] holds of them and of the value. *)
Definition post {A} (m : M A) (Q : list Event -> option A -> Prop) : Prop :=
  forall w o w', finish (m w) = Some (o, w') ->
    exists evs, trace w' = trace w ++ evs /\ Q evs o.

(** What one round of the candidate loop prints, by the way it ends.
    [st] is the state before, [o] the state after ([None] after a fatal
    error). *)
Inductive body_outcome (i : nat) (name : string) (st : double * string)
  : option (double * string) -> list LogMsg -> Prop :=
| bo_unsupported :
    body_outcome i name st (Some st) [LogUnsupported i]
| bo_numerics :
    body_outcome i name st (Some st) [LogNumericsFailed i]
| bo_skip approx :
    too_slow approx (fst st) = true ->
    body_outcome i name st (Some st) [LogSkipSlow i]
| bo_lost warmup tuning d :
    dlt d (fst st) = false ->
    body_outcome i name st (Some st) [LogTuningUsing i warmup tuning]
| bo_won warmup tuning d :
    dlt d (fst st) = true ->
    body_outcome i name st (Some (d, name))
      [LogTuningUsing i warmup tuning; LogFoundBetter i d]
| bo_fatal_approx :
    body_outcome i name st None []
| bo_fatal_measure warmup tuning :
    body_outcome i name st None [LogTuningUsing i warmup tuning].

(** What the whole loop prints. *)
Inductive loop_logs : list string -> nat -> double * string ->
    option (double * string) -> list LogMsg -> Prop :=
| ll_done i st : loop_logs [] i st (Some st) []
| ll_round name rest i st st1 o l1 l2 :
    body_outcome i name st (Some st1) l1 ->
    loop_logs rest (S i) st1 o l2 ->
    loop_logs (name :: rest) i st o (l1 ++ l2)
| ll_fatal name rest i st l1 :
    body_outcome i name st None l1 ->
    loop_logs (name :: rest) i st None l1.

(** The messages printed before the loop starts. *)
Definition setup_log (m : LogMsg) : Prop :=
  match m with
  | LogFindingFastest _ _ _ | LogICacheFlushEnabled
  | LogRotatingBuffer _ _ _ | LogRotatingNotRequested => True
  | _ => False
  end.

(** The events of the harness loop for [op]: flushes and calls of [op]. *)
Definition harness_event (op : Callable) (e : Event) : Prop :=
  e = EvFlush \/ exists p st, e = EvCall op p st.

(** The harness ran [n] rounds on [op]: every event is a flush or a call
    of [op], and either all [n] calls answered OK and the loop returned,
    or the calls answered OK up to some round [k < n], the next one did
    not, and the loop ended there with a fatal error. *)
Definition harness_post (op : Callable) (n : nat) (evs : list Event)
    (o : option unit) : Prop :=
  Forall (harness_event op) evs /\
  ((o = Some tt /\ statuses evs = repeat OK n) \/
   (o = None /\ exists k st, (k < n)%nat /\ st <> OK /\
      statuses evs = repeat OK k ++ [st])).

(** [Profile] ran [n] rounds on [op]: the timer is started, the harness
    loop runs, and the timer is stopped unless the loop ended with a fatal
    error. *)
Definition profile_post (op : Callable) (n : nat) (evs : list Event)
    (o : option double) : Prop :=
  match o with
  | Some _ =>
      exists mid, harness_post op n mid (Some tt) /\
                  evs = [EvTimerStart] ++ mid ++ [EvTimerEnd]
  | None =>
      exists mid, harness_post op n mid None /\ evs = [EvTimerStart] ++ mid
  end.

(** What the correctness gate of candidate [i] prints: nothing when the
    candidate passes, one message when it is turned away; the gate raises
    no fatal error. *)
Definition gate_post (i : nat) (evs : list Event) (o : option bool) : Prop :=
  match o with
  | Some true => logs_of evs = []
  | Some false =>
      logs_of evs = [LogUnsupported i] \/ logs_of evs = [LogNumericsFailed i]
  | None => False
  end.

(** What a run of the selector prints: the announcement and the other
    setup messages, then the messages of the loop, then the name of the
    winner.  After a fatal error the messages stop where the error struck:
    before the loop (the reference call failed) or inside it. *)
Definition selector_post (names : list string) (evs : list Event)
    (o : option ResultEntry) : Prop :=
  exists op_sig params_sig pre l,
    Forall setup_log pre /\
    hd_error pre = Some (LogFindingFastest op_sig params_sig (length names)) /\
    match o with
    | Some r =>
        loop_logs names 0 seed (Some (time_ r, key_ r)) l /\
        logs_of evs = pre ++ l ++ [LogFoundFastest (key_ r)]
    | None =>
        (l = [] \/ loop_logs names 0 seed None l) /\
        logs_of evs = pre ++ l
    end.

(** The candidate a message of the loop is about. *)
Definition log_index (m : LogMsg) : option nat :=
  match m with
  | LogUnsupported i | LogNumericsFailed i | LogSkipSlow i
  | LogTuningUsing i _ _ | LogFoundBetter i _ => Some i
  | _ => None
  end.

(** Every early bail is printed after some improvement was printed
    ([found]: an improvement was printed before the list starts). *)
Fixpoint skip_guarded (found : bool) (l : list LogMsg) : bool :=
  match l with
  | [] => true
  | LogFoundBetter _ _ :: l' => skip_guarded true l'
  | LogSkipSlow _ :: l' => found && skip_guarded found l'
  | _ :: l' => skip_guarded found l'
  end.

(** Candidate [i], whose implementation is [op], was turned away by the
    correctness gate or was timed. *)
Definition gate_or_timed (op : Callable) (i : nat) (evs : list Event) : Prop :=
  LogUnsupported i ∈ logs_of evs \/ LogNumericsFailed i ∈ logs_of evs \/
  timed op evs = true.

(** Every candidate of [names], registered from index [i] on, was turned
    away by the gate or timed. *)
Definition all_gate_or_timed (self : TunableOp) (names : list string) (i : nat)
    (evs : list Event) : Prop :=
  forall k name, names !! k = Some name ->
    exists op, ops_ self !! name = Some op /\ gate_or_timed op (i + k) evs.

(** ** A concrete world

    Three candidates with fixed costs and a timer that adds up the cost of
    the calls made since it was started. *)

Module Example.

Definition dadd : double -> double -> double := SFadd prec emax.

Definition cost (op : Callable) : double :=
  match op with
  | O => double_of_Z 10
  | S O => double_of_Z 2
  | _ => double_of_Z 50
  end.

(** Time elapsed since the last [EvTimerStart] of the history. *)
Fixpoint elapsed (h : list Event) (acc : double) : double :=
  match h with
  | [] => acc
  | EvTimerStart :: h' => elapsed h' dzero
  | EvCall op _ _ :: h' => elapsed h' (dadd acc (cost op))
  | _ :: h' => elapsed h' acc
  end.

Definition knobs : TuningContext :=
  {| IsTunableOpEnabled := true;
     IsTuningEnabled := true;
     IsNumericsCheckEnabled := false;
     IsICacheFlushEnabled := 0;
     GetRotatingBufferSize := 0;
     GetMaxWarmupDurationMs := double_of_Z (-1);
     GetMaxWarmupIterations := -1;
     GetMaxTuningDurationMs := double_of_Z 0;
     GetMaxTuningIterations := 10 |}.

Definition env : Env :=
  {| ctx := knobs;
     call_status := fun _ _ _ => OK;
     numerical_check := fun _ _ _ => OK;
     timer_duration := fun h => elapsed h dzero;
     GetSize := fun _ => 1024;
     params_signature := fun _ => "params"%string;
     type_name := "ExampleOp"%string |}.

Definition op : TunableOp :=
  RegisterOp "SlowKernel" 2%nat
    (RegisterOp "FastKernel" 1%nat
       (RegisterOp "Default" 0%nat empty_op)).

Definition w0 : World :=
  {| trace := []; next_ptr := 1%nat; mgr := ∅; signature_ := None |}.

(** The same world with the numerics check switched on and a third
    candidate whose calls fail. *)
Definition knobs_numerics : TuningContext :=
  {| IsTunableOpEnabled := true;
     IsTuningEnabled := true;
     IsNumericsCheckEnabled := true;
     IsICacheFlushEnabled := 0;
     GetRotatingBufferSize := 0;
     GetMaxWarmupDurationMs := double_of_Z (-1);
     GetMaxWarmupIterations := -1;
     GetMaxTuningDurationMs := double_of_Z 0;
     GetMaxTuningIterations := 10 |}.

Definition env_failing : Env :=
  {| ctx := knobs_numerics;
     call_status := fun _ op _ => match op with 2%nat => FAIL | _ => OK end;
     numerical_check := fun _ _ _ => OK;
     timer_duration := fun h => elapsed h dzero;
     GetSize := fun _ => 1024;
     params_signature := fun _ => "params"%string;
     type_name := "ExampleOp"%string |}.

(** A rotating-buffer budget of [SIZE_MAX] bytes over parameters of one
    byte, the numerics check on, and candidates that answer OK to the
    first call they get (the reference call) and FAIL from then on. *)
Definition knobs_wrap : TuningContext :=
  {| IsTunableOpEnabled := true;
     IsTuningEnabled := true;
     IsNumericsCheckEnabled := true;
     IsICacheFlushEnabled := 0;
     GetRotatingBufferSize := SIZE_MAX;
     GetMaxWarmupDurationMs := double_of_Z (-1);
     GetMaxWarmupIterations := -1;
     GetMaxTuningDurationMs := double_of_Z 0;
     GetMaxTuningIterations := 10 |}.

Definition env_wrap : Env :=
  {| ctx := knobs_wrap;
     call_status := fun h _ _ => match statuses h with [] => OK | _ => FAIL end;
     numerical_check := fun _ _ _ => OK;
     timer_duration := fun h => elapsed h dzero;
     GetSize := fun _ => 1;
     params_signature := fun _ => "params"%string;
     type_name := "ExampleOp"%string |}.

(** A budget of 2^31 - 1 bytes over parameters of one byte: 2^31 copies. *)
Definition knobs_pool31 : TuningContext :=
  {| IsTunableOpEnabled := true;
     IsTuningEnabled := true;
     IsNumericsCheckEnabled := false;
     IsICacheFlushEnabled := 0;
     GetRotatingBufferSize := 2 ^ 31 - 1;
     GetMaxWarmupDurationMs := double_of_Z (-1);
     GetMaxWarmupIterations := -1;
     GetMaxTuningDurationMs := double_of_Z 0;
     GetMaxTuningIterations := 10 |}.

Definition env_pool31 : Env :=
  {| ctx := knobs_pool31;
     call_status := fun _ _ _ => OK;
     numerical_check := fun _ _ _ => OK;
     timer_duration := fun h => elapsed h dzero;
     GetSize := fun _ => 1;
     params_signature := fun _ => "params"%string;
     type_name := "ExampleOp"%string |}.

(** A world whose cache holds a decision for the example operation. *)
Definition w_cached : World :=
  {| trace := []; next_ptr := 1%nat;
     mgr := {[ ("ExampleOp"%string, "params"%string) :=
               mkResultEntry "FastKernel" (double_of_Z 2) ]};
     signature_ := None |}.

(** The example knobs with the tunable-op feature switched off. *)
Definition knobs_off : TuningContext :=
  {| IsTunableOpEnabled := false;
     IsTuningEnabled := true;
     IsNumericsCheckEnabled := false;
     IsICacheFlushEnabled := 0;
     GetRotatingBufferSize := 0;
     GetMaxWarmupDurationMs := double_of_Z (-1);
     GetMaxWarmupIterations := -1;
     GetMaxTuningDurationMs := double_of_Z 0;
     GetMaxTuningIterations := 10 |}.

Definition env_off : Env :=
  {| ctx := knobs_off;
     call_status := fun _ _ _ => OK;
     numerical_check := fun _ _ _ => OK;
     timer_duration := fun h => elapsed h dzero;
     GetSize := fun _ => 1024;
     params_signature := fun _ => "params"%string;
     type_name := "ExampleOp"%string |}.



(** Tuning knobs: at most 10^10 ms and no bound on the iterations. *)
Definition knobs_long : TuningContext :=
  {| IsTunableOpEnabled := true;
     IsTuningEnabled := true;
     IsNumericsCheckEnabled := false;
     IsICacheFlushEnabled := 0;
     GetRotatingBufferSize := 0;
     GetMaxWarmupDurationMs := double_of_Z (-1);
     GetMaxWarmupIterations := -1;
     GetMaxTuningDurationMs := double_of_Z (10 ^ 10);
     GetMaxTuningIterations := 0 |}.

Definition env_long : Env :=
  {| ctx := knobs_long;
     call_status := fun _ _ _ => OK;
     numerical_check := fun _ _ _ => OK;
     timer_duration := fun h => elapsed h dzero;
     GetSize := fun _ => 1024;
     params_signature := fun _ => "params"%string;
     type_name := "ExampleOp"%string |}.

(** The example world with a second candidate that answers OK to its
    first call and FAIL afterwards. *)
Fixpoint calls_of (op : Callable) (h : list Event) : nat :=
  match h with
  | [] => 0%nat
  | EvCall c _ _ :: h' => ((if Nat.eqb c op then 1 else 0) + calls_of op h')%nat
  | _ :: h' => calls_of op h'
  end.

Definition env_flaky : Env :=
  {| ctx := knobs;
     call_status := fun h op _ =>
       match op with
       | 1%nat => if Nat.leb 1 (calls_of 1%nat h) then FAIL else OK
       | _ => OK
       end;
     numerical_check := fun _ _ _ => OK;
     timer_duration := fun h => elapsed h dzero;
     GetSize := fun _ => 1024;
     params_signature := fun _ => "params"%string;
     type_name := "ExampleOp"%string |}.

End Example.

(** The run of the example, once and for all. *)
Definition example_run : Res ResultEntry :=
  Eval vm_compute in FindFastest Example.env Example.op 0%nat Example.w0.

Definition example_result : ResultEntry :=
  match example_run with Ok r _ => r | _ => ResultEntry.Null end.

Definition example_world : World :=
  match example_run with Ok _ w => w | _ => Example.w0 end.

(** ** Further observations *)

(** The facade after a sequence of [RegisterOp] calls, in order. *)
Fixpoint register_all (regs : list (string * Callable)) (self : TunableOp)
  : TunableOp :=
  match regs with
  | [] => self
  | (name, op) :: rest => register_all rest (RegisterOp name op self)
  end.

(** The implementation of the first registration under [name]. *)
Fixpoint first_registered (name : string) (regs : list (string * Callable))
  : option Callable :=
  match regs with
  | [] => None
  | (n, op) :: rest =>
      if bool_decide (n = name) then Some op else first_registered name rest
  end.

(** [keeps R m]: however [m] ends, the worlds before and after are
    related by [R]. *)
Definition keeps {A} (R : World -> World -> Prop) (m : M A) : Prop :=
  forall w o w', finish (m w) = Some (o, w') -> R w w'.

(** The results cache is as it was, and a signature that was computed is
    still there. *)
Definition cache_kept (w w' : World) : Prop :=
  mgr w' = mgr w /\
  forall s, signature_ w = Some s -> signature_ w' = Some s.

(** The buffers of the candidate calls of a run, in order. *)
Fixpoint called (evs : list Event) : list ParamsPtr :=
  match evs with
  | [] => []
  | EvCall _ p _ :: evs' => p :: called evs'
  | _ :: evs' => called evs'
  end.

(** The number of instruction-cache flushes of a run. *)
Fixpoint flushes (evs : list Event) : nat :=
  match evs with
  | [] => 0%nat
  | EvFlush :: evs' => S (flushes evs')
  | _ :: evs' => flushes evs'
  end.

(** The events of [n] rounds of the harness on [op] that all answer OK,
    the counter starting at [i]: before each call a flush if [flush] is
    set, and the call goes to the buffer [i mod size] of the pool. *)
Fixpoint harness_trace (flush : bool) (op : Callable) (param : list ParamsPtr)
    (n i : nat) : list Event :=
  match n with
  | O => []
  | S n' =>
      (if flush then [EvFlush] else []) ++
      EvCall op (nth (i mod length param) param 0%nat) OK ::
      harness_trace flush op param n' (S i)
  end.

(** The improvements printed by a run, in order: the index of the
    candidate and its duration. *)
Fixpoint improvements (l : list LogMsg) : list (nat * double) :=
  match l with
  | [] => []
  | LogFoundBetter i d :: l' => (i, d) :: improvements l'
  | _ :: l' => improvements l'
  end.

(** Each duration of the list is below the one before it, the first one
    below [m]. *)
Fixpoint descending (m : double) (ds : list double) : Prop :=
  match ds with
  | [] => True
  | d :: ds' => dlt d m = true /\ descending d ds'
  end.

(** The candidates the messages of a run give a verdict on (unsupported,
    numerics check failed, skipped as slow, or tuned), in order. *)
Fixpoint verdicts (l : list LogMsg) : list nat :=
  match l with
  | [] => []
  | LogUnsupported i :: l' | LogNumericsFailed i :: l'
  | LogSkipSlow i :: l' | LogTuningUsing i _ _ :: l' => i :: verdicts l'
  | _ :: l' => verdicts l'
  end.

(** The signature [operator()] and [FindFastest] work with: the memoized
    one, or the one [CreateSignature] gives when none is memoized yet. *)
Definition op_signature (env : Env) (w : World) : string :=
  default (type_name env) (signature_ w).

(** What the lookup of [operator()] answers in the world [w]. *)
Definition cached (env : Env) (params : ParamsPtr) (w : World) : ResultEntry :=
  default ResultEntry.Null
    (mgr w !! (op_signature env w, params_signature env params)).

(** The world right after the lookup of [operator()]: the signature is
    memoized and the lookup is in the trace. *)
Definition looked_up (env : Env) (params : ParamsPtr) (w : World) : World :=
  {| trace := trace w ++ [EvLookup (op_signature env w)
                            (params_signature env params) (cached env params w)];
     next_ptr := next_ptr w;
     mgr := mgr w;
     signature_ := Some (op_signature env w) |}.

(** ** Further example worlds *)

Module Scenario.

(** The example knobs with tuning switched off. *)
Definition knobs_no_tuning : TuningContext :=
  {| IsTunableOpEnabled := true;
     IsTuningEnabled := false;
     IsNumericsCheckEnabled := false;
     IsICacheFlushEnabled := 0;
     GetRotatingBufferSize := 0;
     GetMaxWarmupDurationMs := double_of_Z (-1);
     GetMaxWarmupIterations := -1;
     GetMaxTuningDurationMs := double_of_Z 0;
     GetMaxTuningIterations := 10 |}.

Definition env_no_tuning : Env :=
  {| ctx := knobs_no_tuning;
     call_status := fun _ _ _ => OK;
     numerical_check := fun _ _ _ => OK;
     timer_duration := fun h => Example.elapsed h dzero;
     GetSize := fun _ => 1024;
     params_signature := fun _ => "params"%string;
     type_name := "ExampleOp"%string |}.

(** A world whose cache names a candidate that is not registered. *)
Definition w_stale : World :=
  {| trace := []; next_ptr := 1%nat;
     mgr := {[ ("ExampleOp"%string, "params"%string) :=
               mkResultEntry "RetiredKernel" (double_of_Z 1) ]};
     signature_ := None |}.

(** The example world with candidates that all answer FAIL. *)
Definition env_broken : Env :=
  {| ctx := Example.knobs;
     call_status := fun _ _ _ => FAIL;
     numerical_check := fun _ _ _ => OK;
     timer_duration := fun h => Example.elapsed h dzero;
     GetSize := fun _ => 1024;
     params_signature := fun _ => "params"%string;
     type_name := "ExampleOp"%string |}.

(** A rotating-buffer budget of [SIZE_MAX] bytes over parameters of one
    byte, with candidates that all answer OK: once with the numerics check
    off, once with it on. *)
Definition knobs_wrap_plain : TuningContext :=
  {| IsTunableOpEnabled := true;
     IsTuningEnabled := true;
     IsNumericsCheckEnabled := false;
     IsICacheFlushEnabled := 0;
     GetRotatingBufferSize := SIZE_MAX;
     GetMaxWarmupDurationMs := double_of_Z (-1);
     GetMaxWarmupIterations := -1;
     GetMaxTuningDurationMs := double_of_Z 0;
     GetMaxTuningIterations := 10 |}.

Definition env_wrap_plain : Env :=
  {| ctx := knobs_wrap_plain;
     call_status := fun _ _ _ => OK;
     numerical_check := fun _ _ _ => OK;
     timer_duration := fun h => Example.elapsed h dzero;
     GetSize := fun _ => 1;
     params_signature := fun _ => "params"%string;
     type_name := "ExampleOp"%string |}.

Definition env_wrap_checked : Env :=
  {| ctx := Example.knobs_wrap;
     call_status := fun _ _ _ => OK;
     numerical_check := fun _ _ _ => OK;
     timer_duration := fun h => Example.elapsed h dzero;
     GetSize := fun _ => 1;
     params_signature := fun _ => "params"%string;
     type_name := "ExampleOp"%string |}.

End Scenario.

(** The first call of the example operation: it tunes. *)
Definition example_call : Res TuningStatus :=
  Eval vm_compute in operator_call Example.env Example.op 0%nat Example.w0.

Definition example_call_world : World :=
  match example_call with Ok _ w => w | _ => Example.w0 end.

(** The world [w] after the events [evs], nothing else changed. *)
Definition with_events (w : World) (evs : list Event) : World :=
  {| trace := trace w ++ evs; next_ptr := next_ptr w;
     mgr := mgr w; signature_ := signature_ w |}.

(** ** Copies and their release *)

(** The objects made by [DeepCopy] in a run, in order. *)
Fixpoint copies (evs : list Event) : list ParamsPtr :=
  match evs with
  | [] => []
  | EvDeepCopy _ _ p :: evs' => p :: copies evs'
  | _ :: evs' => copies evs'
  end.

(** The objects [Delete] was called on, in order. *)
Fixpoint deletes (evs : list Event) : list ParamsPtr :=
  match evs with
  | [] => []
  | EvDelete p :: evs' => p :: deletes evs'
  | _ :: evs' => deletes evs'
  end.

(** The buffers of the candidate calls that answered FAIL, in order. *)
Fixpoint failed (evs : list Event) : list ParamsPtr :=
  match evs with
  | [] => []
  | EvCall _ p FAIL :: evs' => p :: failed evs'
  | _ :: evs' => failed evs'
  end.

(** Lines 119-135: what [FindFastest] does before the reference call:
    the announcement, the flushes, the copy of the reference. *)
Definition setup_events (env : Env) (self : TunableOp) (params : ParamsPtr)
    (w : World) : list Event :=
  EvLog (LogFindingFastest (op_signature env w) (params_signature env params)
           (length (op_names_ self))) ::
  (if 0 <? IsICacheFlushEnabled (ctx env) then [EvLog LogICacheFlushEnabled]
   else []) ++
  repeat EvFlush (Z.to_nat (IsICacheFlushEnabled (ctx env))) ++
  [EvDeepCopy params false (next_ptr w)].

(** A computation that copies and deletes nothing and moves nothing but
    the trace; when it returns, no call it made answered FAIL. *)
Definition quiet_end {A} (w : World) (r : Res A) : Prop :=
  match r with
  | Ok _ w' =>
      exists evs, w' = with_events w evs /\
                  copies evs = [] /\ deletes evs = [] /\ failed evs = []
  | Fatal w' =>
      exists evs, w' = with_events w evs /\ copies evs = [] /\ deletes evs = []
  | Undef => True
  end.

Definition quiet {A} (m : M A) : Prop := forall w, quiet_end w (m w).

(** The events [evs] lead from [w] to [w']; the copies among them are
    objects handed out in between, and no older object is deleted. *)
Definition allocates (w : World) (evs : list Event) (w' : World) : Prop :=
  trace w' = trace w ++ evs /\
  (next_ptr w <= next_ptr w')%nat /\
  Forall (fun p => (next_ptr w <= p < next_ptr w')%nat) (copies evs) /\
  Forall (fun p => (next_ptr w <= p)%nat) (deletes evs).

(** A stretch of the candidate loop from [w] to [w'] with outcome [o]:
    if it returned, the copies it leaked are those of the failed calls
    when the numerics check is on, and none when it is off. *)
Definition loop_run {A} (numerics : bool) (w : World) (o : option A)
    (w' : World) : Prop :=
  exists evs, allocates w evs w' /\
    (o <> None -> leaked evs = if numerics then failed evs else []).

(** Lines 33-35: a candidate that keeps [Callable]'s own [Call], which
    answers FAIL whatever the parameters. *)
Definition unimplemented (env : Env) (op : Callable) : Prop :=
  forall h p, call_status env h op p = FAIL.

(** What the candidate loop may do, [reference] being the reference
    copy, [pool] the pool and [lo] the first address handed out after
    them: calls go to registered candidates, on a buffer of the pool or on
    a later copy; a numerics check compares a later copy against the
    reference; copies and deletions concern later copies only; the cache
    is not used. *)
Definition loop_event (self : TunableOp) (reference : ParamsPtr)
    (pool : list ParamsPtr) (lo : nat) (e : Event) : Prop :=
  match e with
  | EvCall c p _ =>
      (exists name, ops_ self !! name = Some c) /\ (p ∈ pool \/ (lo <= p)%nat)
  | EvNumericalCheck r p _ => r = reference /\ (lo <= p)%nat
  | EvDeepCopy _ _ p | EvDelete p => (lo <= p)%nat
  | EvLookup _ _ _ | EvAdd _ _ _ => False
  | _ => True
  end.

(** From a world whose next address is not below [lo], only loop events
    happen. *)
Definition in_loop (self : TunableOp) (reference : ParamsPtr)
    (pool : list ParamsPtr) (lo : nat) (w w' : World) : Prop :=
  (lo <= next_ptr w)%nat ->
  (lo <= next_ptr w')%nat /\
  exists evs, trace w' = trace w ++ evs /\
              Forall (loop_event self reference pool lo) evs.

(** The round of Default in the example, on a pool of one buffer. *)
Definition example_round : Res (double * string) :=
  Eval vm_compute in
    loop_body Example.env Example.op 0%nat 1%nat [2%nat] 0 "Default" seed
      Example.w0.

Definition example_round_world : World :=
  match example_round with Ok _ w => w | _ => Example.w0 end.

(** Lines 184-244 for a candidate that is past the gate and is not bailed
    out.  From the world [wg] the gate left: the approximate profile of
    three rounds; the calibration of the two counts from its mean; the
    message that prints them; the warm-up; the measurement under the
    timer; and the comparison of its mean with the minimum of [st], which
    gives the state [st'] and the world [w']. *)
Definition full_measurement (env : Env) (candidate : Callable)
    (pool : list ParamsPtr) (i : nat) (name : string)
    (st st' : double * string) (wg w' : World) : Prop :=
  exists approx W T d,
    let rounds n := harness_trace (do_flush env) candidate pool (Z.to_nat n) 0 in
    let timed n := EvTimerStart :: rounds n ++ [EvTimerEnd] in
    let wa := with_events wg (timed approx_num_iter) in
    let wm := with_events wa (EvLog (LogTuningUsing i W T) ::
                              rounds (wrap_size W) ++ timed (wrap_size T)) in
    approx = ddiv (timer_duration env (trace wa)) (double_of_Z approx_num_iter) /\
    warmup_iterations env approx = Some W /\
    tuning_iterations env approx (Z.of_nat (length pool)) = Some T /\
    1 <= T /\
    d = ddiv (timer_duration env (trace wm)) (double_of_Z (wrap_size T)) /\
    if dlt d (fst st)
    then st' = (d, name) /\ w' = with_events wm [EvLog (LogFoundBetter i d)]
    else st' = st /\ w' = wm.

(** ** Proof steps *)

(** Brings a sequence of events to the form [e1 ++ e2 ++ ...]. *)
Ltac norm_events := rewrite <- ?app_assoc; simpl; rewrite ?app_nil_r.

(** Closes the side goal of [post_bind] for a step that raises no fatal
    error. *)
Ltac no_fatal :=
  let H := fresh "Hfatal" in
  intros ? H; simpl in H; decompose [ex and] H; congruence.

(** * Proofs *)

(** ** Rules of the program logic *)

Section Rules.

Context {A B : Type}.

Lemma post_ret (a : A) : post (ret a) (fun evs o => evs = [] /\ o = Some a).
Proof.
  intros w o w' H. injection H as <- <-. exists []. by rewrite app_nil_r.
Qed.

Lemma post_undefined : post (@undefined A) (fun _ _ => False).
Proof. intros w o w' H. discriminate H. Qed.

Lemma post_weaken (m : M A) (Q Q' : list Event -> option A -> Prop) :
  post m Q -> (forall evs o, Q evs o -> Q' evs o) -> post m Q'.
Proof.
  intros Hm HQ w o w' H. destruct (Hm w o w' H) as (evs & Ht & Hq). eauto.
Qed.

(** Sequencing: a fatal error of the first part ends the whole; after a
    normal return the second part adds its events. *)
Lemma post_bind (m : M A) (k : A -> M B) Q1 (Q : list Event -> option B -> Prop) :
  post m Q1 ->
  (forall e1, Q1 e1 None -> Q e1 None) ->
  (forall e1 a, Q1 e1 (Some a) -> post (k a) (fun e2 o => Q (e1 ++ e2) o)) ->
  post (bind m k) Q.
Proof.
  intros Hm Hfatal Hk w o w' H. unfold bind in H.
  destruct (m w) as [a w1 | w1 |] eqn:Em; [| | discriminate H].
  - destruct (Hm w (Some a) w1) as (e1 & Ht1 & Hq1); [by rewrite Em |].
    destruct (Hk e1 a Hq1 w1 o w' H) as (e2 & Ht2 & Hq2).
    exists (e1 ++ e2). split; [| done]. by rewrite Ht2, Ht1, app_assoc.
  - injection H as <- <-.
    destruct (Hm w None w1) as (e1 & Ht1 & Hq1); [by rewrite Em |]. eauto.
Qed.

End Rules.

Lemma post_emit (e : Event) : post (emit e) (fun evs o => evs = [e] /\ o = Some tt).
Proof. intros w o w' H. injection H as <- <-. by exists [e]. Qed.

Lemma post_TORCH_CHECK (b : bool) :
  post (TORCH_CHECK b) (fun evs o => evs = [] /\ o = if b then Some tt else None).
Proof.
  intros w o w' H. unfold TORCH_CHECK in H. exists [].
  destruct b; injection H as <- <-; by rewrite app_nil_r.
Qed.

Lemma post_when (b : bool) (m : M unit) Q :
  post m Q -> Q [] (Some tt) -> post (when b m) Q.
Proof.
  intros Hm Hq. destruct b; [exact Hm |].
  eapply post_weaken; [apply post_ret |]. by intros evs o [-> ->].
Qed.

Section EnvRules.

Context (env : Env) (self : TunableOp).

Lemma post_Call op p :
  post (Call env op p) (fun evs o => exists st, evs = [EvCall op p st] /\ o = Some st).
Proof. intros w o w' H. injection H as <- <-. eexists. split; [done |]. eauto. Qed.

Lemma post_DeepCopy params rot :
  post (DeepCopy params rot)
    (fun evs o => exists p, evs = [EvDeepCopy params rot p] /\ o = Some p).
Proof. intros w o w' H. injection H as <- <-. eexists. split; [done |]. eauto. Qed.

Lemma post_NumericalCheck r p :
  post (NumericalCheck env r p)
    (fun evs o => exists st, evs = [EvNumericalCheck r p st] /\ o = Some st).
Proof. intros w o w' H. injection H as <- <-. eexists. split; [done |]. eauto. Qed.

Lemma post_Signature :
  post (Signature env) (fun evs o => evs = [] /\ exists s, o = Some s).
Proof.
  intros w o w' H. unfold Signature in H. exists [].
  destruct (signature_ w); injection H as <- <-; rewrite app_nil_r; eauto.
Qed.

Lemma post_ops_at name :
  post (ops_at self name)
    (fun evs o => evs = [] /\ exists op, ops_ self !! name = Some op /\ o = Some op).
Proof.
  unfold ops_at. destruct (ops_ self !! name) as [op |] eqn:E.
  - eapply post_weaken; [apply post_ret |]. intros evs o [-> ->]. eauto.
  - eapply post_weaken; [apply post_undefined |]. done.
Qed.

Lemma post_param_at param i :
  post (param_at param i) (fun evs o => evs = [] /\ exists p, o = Some p).
Proof.
  unfold param_at. destruct param as [| p0 param]; [| destruct (_ !! _)].
  - eapply post_weaken; [apply post_undefined |]. done.
  - eapply post_weaken; [apply post_ret |]. intros evs o [-> ->]. eauto.
  - eapply post_weaken; [apply post_undefined |]. done.
Qed.

End EnvRules.

(** ** The benchmark harness *)

Section Harness.

Context (env : Env).

Lemma statuses_app (e1 e2 : list Event) :
  statuses (e1 ++ e2) = statuses e1 ++ statuses e2.
Proof.
  induction e1 as [| e e1 IH]; [done |].
  destruct e; simpl; by rewrite ?IH.
Qed.

Lemma logs_of_app (e1 e2 : list Event) :
  logs_of (e1 ++ e2) = logs_of e1 ++ logs_of e2.
Proof.
  induction e1 as [| e e1 IH]; [done |].
  destruct e; simpl; by rewrite ?IH.
Qed.

Lemma harness_no_logs op evs : Forall (harness_event op) evs -> logs_of evs = [].
Proof.
  induction 1 as [| e evs He _ IH]; [done |].
  destruct He as [-> | (p & st & ->)]; exact IH.
Qed.

Lemma status_ok_true st : status_ok st = true <-> st = OK.
Proof. by destruct st. Qed.

Lemma status_ok_false st : status_ok st = false <-> st <> OK.
Proof. by destruct st. Qed.

Lemma post_flush_step :
  post (when (do_flush env) flush_icache)
    (fun e o => (e = [] \/ e = [EvFlush]) /\ o = Some tt).
Proof.
  apply post_when; [| by split; [left |]].
  eapply post_weaken; [apply post_emit |].
  intros evs o [-> ->]. split; [by right | done].
Qed.

Lemma post_harness_loop op param n i :
  post (harness_loop env op param n i) (harness_post op n).
Proof.
  revert i. induction n as [| n IH]; intros i; simpl.
  { eapply post_weaken; [apply post_ret |].
    intros evs o [-> ->]. split; [constructor | by left]. }
  eapply post_bind; [apply post_flush_step | by intros e1 [_ ?] |].
  intros e1 [] [He1 _].
  eapply post_bind; [apply post_param_at | by intros ? [_ [? ?]] |].
  intros ? p [-> _].
  eapply post_bind; [apply post_Call | by intros ? [? [_ ?]] |].
  intros ? st (? & -> & [= <-]).
  assert (Hpre : Forall (harness_event op) (e1 ++ [EvCall op p st]) /\
                 statuses (e1 ++ [EvCall op p st]) = [st]).
  { assert (Hc : harness_event op (EvCall op p st)) by (right; eauto).
    destruct He1 as [-> | ->]; (split; [| done]); simpl.
    - by apply Forall_singleton.
    - apply Forall_cons. split; [by left | by apply Forall_singleton]. }
  destruct Hpre as [Hev Hst].
  eapply post_bind; [apply post_TORCH_CHECK | |].
  - intros ? [-> Hck]. norm_events.
    destruct (status_ok st) eqn:Est; [done |].
    split; [exact Hev |]. right. split; [done |].
    exists 0%nat, st. split; [lia |]. split; [by apply status_ok_false |].
    by rewrite Hst.
  - intros ? [] [-> Hck]. norm_events.
    destruct (status_ok st) eqn:Est; [| done].
    apply status_ok_true in Est as ->.
    eapply post_weaken; [apply IH |].
    intros e2 o [Hev2 Hcases]. rewrite cons_middle, app_assoc.
    split; [by apply Forall_app |].
    rewrite statuses_app, Hst.
    destruct Hcases as [[-> Hs] | [-> (k & st & Hk & Hne & Hs)]].
    + left. by rewrite Hs.
    + right. split; [done |]. exists (S k), st.
      split; [lia |]. split; [done |]. by rewrite Hs.
Qed.

Lemma post_WarmUp op param num_iter :
  post (WarmUp env op param num_iter) (harness_post op (Z.to_nat num_iter)).
Proof. apply post_harness_loop. Qed.

Lemma post_Profile op param num_iter :
  post (Profile env op param num_iter) (profile_post op (Z.to_nat num_iter)).
Proof.
  unfold Profile.
  eapply post_bind; [apply post_emit | by intros ? [_ ?] |].
  intros ? [] [-> _].
  eapply post_bind; [apply post_harness_loop | |].
  - intros mid Hmid. by exists mid.
  - intros mid [] Hmid.
    eapply post_bind; [apply post_emit | by intros ? [_ ?] |].
    intros ? [] [-> _].
    intros w o w' [= <- <-]. exists []. norm_events. split; [done |].
    by exists mid.
Qed.

(** The harness loop is defined as soon as there is a buffer to call on. *)
Lemma harness_loop_defined op param n i w :
  param <> [] -> harness_loop env op param n i w <> Undef.
Proof.
  intros Hne. revert i w. induction n as [| n IH]; intros i w; [done |].
  simpl. unfold bind at 1.
  assert (Hfl : exists w1, when (do_flush env) flush_icache w = Ok tt w1).
  { unfold when. destruct (do_flush env); eauto. }
  destruct Hfl as [w1 ->].
  assert (Hat : exists p, param_at param i = ret p).
  { unfold param_at. destruct param as [| p0 param]; [done |].
    destruct (lookup_lt_is_Some_2 (p0 :: param) (i mod length (p0 :: param))%nat)
      as [p Hp]; [apply Nat.mod_upper_bound; simpl; lia |].
    rewrite Hp. eauto. }
  destruct Hat as [p ->]. unfold bind, ret, Call, TORCH_CHECK.
  destruct (status_ok _); [apply IH | done].
Qed.

Lemma WarmUp_defined op param num_iter w :
  param <> [] -> WarmUp env op param num_iter w <> Undef.
Proof. apply harness_loop_defined. Qed.

Lemma Profile_defined op param num_iter w :
  param <> [] -> Profile env op param num_iter w <> Undef.
Proof.
  intros Hne. unfold Profile, bind, emit.
  pose proof (harness_loop_defined op param (Z.to_nat num_iter) 0
                (world_emit EvTimerStart w) Hne) as Hd.
  by destruct (harness_loop _ _ _ _ _ _).
Qed.

Lemma profile_no_logs op n evs o : profile_post op n evs o -> logs_of evs = [].
Proof.
  destruct o; intros (mid & [Hev _] & ->); apply harness_no_logs in Hev;
    simpl; rewrite ?logs_of_app, Hev; done.
Qed.

Lemma timed_from_mono op evs :
  timed_from false op evs = true -> timed_from true op evs = true.
Proof.
  induction evs as [| e evs IH]; [done |]. destruct e; simpl; try done.
  intros H. rewrite (IH H). apply orb_true_r.
Qed.

Lemma timed_from_app_l b op e1 e2 :
  timed_from b op e1 = true -> timed_from b op (e1 ++ e2) = true.
Proof.
  revert b. induction e1 as [| e e1 IH]; intros b; [done |].
  destruct e; simpl; try apply IH.
  intros H. apply orb_true_iff in H as [H | H]; apply orb_true_iff;
    [by left | right; by apply IH].
Qed.

Lemma timed_from_app_r b op e1 e2 :
  timed_from false op e2 = true -> timed_from b op (e1 ++ e2) = true.
Proof.
  intros H. revert b. induction e1 as [| e e1 IH]; intros b.
  { destruct b; [by apply timed_from_mono | done]. }
  destruct e; simpl; try apply IH.
  apply orb_true_iff. right. apply IH.
Qed.

Lemma timed_middle op e0 e e1 : timed op e = true -> timed op (e0 ++ e ++ e1) = true.
Proof. intros H. apply timed_from_app_r. by apply timed_from_app_l. Qed.

Lemma harness_timed op mid rest :
  Forall (harness_event op) mid -> statuses mid <> [] ->
  timed_from true op (mid ++ rest) = true.
Proof.
  induction 1 as [| e mid He _ IH]; [done |]; intros Hs.
  destruct He as [-> | (p & st & ->)]; simpl.
  - by apply IH.
  - by rewrite Nat.eqb_refl.
Qed.

(** A [Profile] that returns has timed its candidate. *)
Lemma profile_timed op n evs d :
  (0 < n)%nat -> profile_post op n evs (Some d) -> timed op evs = true.
Proof.
  intros Hn (mid & (Hev & [[_ Hs] | [[=] _]]) & ->). unfold timed. simpl.
  apply harness_timed; [done |]. rewrite Hs. by destruct n; [lia |].
Qed.

End Harness.

Lemma new_events_app (w w' : World) (evs : list Event) :
  trace w' = trace w ++ evs -> new_events w w' = evs.
Proof. intros H. unfold new_events. rewrite H. apply drop_app_length. Qed.

(** A fatal error is not caught: whatever follows is skipped. *)
Lemma fatal_propagates {A B} (m : M A) (k : A -> M B) (w w' : World) :
  m w = Fatal w' -> bind m k w = Fatal w'.
Proof. intros H. unfold bind. by rewrite H. Qed.

(** In the example world with the flaky candidate, the candidate passes
    the gate, its next call fails inside [Profile], and the fatal error
    ends [FindFastest] and the call of the facade on the spot: the failed
    call is the last event, and the candidate is not reported as
    unsupported. *)
Lemma flaky_candidate_is_fatal :
  exists w',
    FindFastest Example.env_flaky Example.op 0%nat Example.w0 = Fatal w' /\
    last (trace w') = Some (EvCall 1%nat 2%nat FAIL) /\
    (LogUnsupported 1 ∉ logs_of (trace w')) /\
    exists w'', operator_call Example.env_flaky Example.op 0%nat Example.w0
                = Fatal w'' /\
                last (trace w'') = Some (EvCall 1%nat 2%nat FAIL).
Proof.
  eexists. split; [vm_compute; reflexivity |]. split; [reflexivity |]. split.
  - intros Hin. apply list_elem_of_In in Hin. vm_compute in Hin.
    repeat (destruct Hin as [Hin | Hin]; [discriminate Hin |]). done.
  - eexists. split; [vm_compute; reflexivity | reflexivity].
Qed.

(** C9.  In a run of [WarmUp] and in a run of [Profile] over a non-empty
    pool, every candidate call is checked: the run returns normally only
    after [num_iter] calls that all answered OK; as soon as a call answers
    something else the run ends with a fatal error (the failed
    [TORCH_CHECK]), that call being the last one made.  No other ending
    exists. *)
Theorem harness_calls_asserted (env : Env) (op : Callable)
    (param : list ParamsPtr) (num_iter : Z) (w : World) :
  param <> [] ->
  match WarmUp env op param num_iter w with
  | Ok _ w' => statuses (new_events w w') = repeat OK (Z.to_nat num_iter)
  | Fatal w' =>
      exists k st, (k < Z.to_nat num_iter)%nat /\ st <> OK /\
                   statuses (new_events w w') = repeat OK k ++ [st]
  | Undef => False
  end /\
  match Profile env op param num_iter w with
  | Ok _ w' => statuses (new_events w w') = repeat OK (Z.to_nat num_iter)
  | Fatal w' =>
      exists k st, (k < Z.to_nat num_iter)%nat /\ st <> OK /\
                   statuses (new_events w w') = repeat OK k ++ [st]
  | Undef => False
  end.
Proof.
  intros Hne. split.
  - pose proof (post_WarmUp env op param num_iter w) as Hp.
    pose proof (WarmUp_defined env op param num_iter w Hne) as Hd.
    destruct (WarmUp _ _ _ _ _) as [[] w' | w' |]; [| | done].
    + destruct (Hp _ _ eq_refl) as (evs & Ht & _ & [[_ Hs] | [[=] _]]).
      by rewrite (new_events_app _ _ _ Ht).
    + destruct (Hp _ _ eq_refl) as (evs & Ht & _ & [[[=] _] | [_ Hs]]).
      by rewrite (new_events_app _ _ _ Ht).
  - pose proof (post_Profile env op param num_iter w) as Hp.
    pose proof (Profile_defined env op param num_iter w Hne) as Hd.
    destruct (Profile _ _ _ _ _) as [d w' | w' |]; [| | done].
    + destruct (Hp _ _ eq_refl) as (evs & Ht & mid & (_ & [[_ Hs] | [[=] _]]) & ->).
      rewrite (new_events_app _ _ _ Ht). simpl.
      rewrite statuses_app. simpl. by rewrite app_nil_r.
    + destruct (Hp _ _ eq_refl) as (evs & Ht & mid & (_ & [[[=] _] | [_ Hs]]) & ->).
      by rewrite (new_events_app _ _ _ Ht).
Qed.

(** ** The selector, message by message *)

Section Selector.

Context (env : Env) (self : TunableOp).

Lemma post_gate i candidate params reference_params reusable_params :
  post (gate env i candidate params reference_params reusable_params) (gate_post i).
Proof.
  unfold gate. destruct (IsNumericsCheckEnabled (ctx env)).
  - eapply post_bind; [apply post_DeepCopy | no_fatal |].
    intros ? numerical_params (? & -> & [= <-]).
    eapply post_bind; [apply post_Call | no_fatal |].
    intros ? status (? & -> & [= <-]).
    destruct (status_ok status); simpl.
    + eapply post_bind; [apply post_NumericalCheck | no_fatal |].
      intros ? status' (? & -> & [= <-]).
      eapply post_bind; [apply post_emit | no_fatal |].
      intros ? [] [-> _].
      destruct (status_ok status'); simpl.
      * eapply post_weaken; [apply post_ret |]. by intros ? ? [-> ->].
      * eapply post_bind; [apply post_emit | no_fatal |].
        intros ? [] [-> _].
        eapply post_weaken; [apply post_ret |]. intros ? ? [-> ->]. by right.
    + eapply post_bind; [apply post_emit | no_fatal |].
      intros ? [] [-> _].
      eapply post_weaken; [apply post_ret |]. intros ? ? [-> ->]. by left.
  - eapply post_bind with (Q1 := fun e o => e = [] /\ exists p, o = Some p).
    { destruct reusable_params.
      - eapply post_weaken; [apply post_undefined | done].
      - eapply post_weaken; [apply post_ret |]. intros ? ? [-> ->]. eauto. }
    { no_fatal. }
    intros ? p0 [-> _].
    eapply post_bind; [apply post_Call | no_fatal |].
    intros ? status (? & -> & [= <-]).
    destruct (status_ok status); simpl.
    + eapply post_weaken; [apply post_ret |]. by intros ? ? [-> ->].
    + eapply post_bind; [apply post_emit | no_fatal |].
      intros ? [] [-> _].
      eapply post_weaken; [apply post_ret |]. intros ? ? [-> ->]. by left.
Qed.

Lemma harness_post_no_logs op n evs o : harness_post op n evs o -> logs_of evs = [].
Proof. intros [Hev _]. by apply harness_no_logs in Hev. Qed.

Lemma gate_or_timed_gate op i eg rest :
  gate_post i eg (Some false) -> gate_or_timed op i (eg ++ rest).
Proof.
  intros [H | H]; [left | right; left]; rewrite logs_of_app, H;
    apply elem_of_cons; by left.
Qed.

Lemma gate_or_timed_middle op i e0 e e1 :
  gate_or_timed op i e -> gate_or_timed op i (e0 ++ e ++ e1).
Proof.
  intros [H | [H | H]]; [left | right; left | right; right].
  - rewrite !logs_of_app, !elem_of_app. auto.
  - rewrite !logs_of_app, !elem_of_app. auto.
  - by apply timed_middle.
Qed.

(** One round: what it prints, and that its candidate was turned away by
    the gate or timed. *)
Lemma post_loop_body params reference_params reusable_params i name st :
  post (loop_body env self params reference_params reusable_params i name st)
    (fun evs o =>
       body_outcome i name st o (logs_of evs) /\
       (o <> None ->
        exists op, ops_ self !! name = Some op /\ gate_or_timed op i evs)).
Proof.
  unfold loop_body.
  eapply post_bind; [apply post_ops_at | no_fatal |].
  intros ? candidate [-> (? & Hop & [= <-])].
  eapply post_bind; [apply post_gate | by intros ? [] |].
  intros eg pass Hgate. destruct pass; simpl.
  2:{ eapply post_weaken; [apply post_ret |]. intros ? ? [-> ->].
      norm_events. split.
      - destruct Hgate as [-> | ->]; constructor.
      - intros _. exists candidate. split; [done |].
        rewrite <- (app_nil_r eg). by apply gate_or_timed_gate. }
  simpl in Hgate.
  eapply post_bind; [apply post_Profile | |].
  { intros ea Ha. apply profile_no_logs in Ha.
    norm_events. rewrite logs_of_app, Hgate, Ha. split; [constructor | done]. }
  intros ea approx_duration Ha.
  assert (Htimed : forall rest, timed candidate (eg ++ ea ++ rest) = true).
  { intros rest. apply timed_middle. eapply profile_timed; [| exact Ha].
    unfold approx_num_iter. lia. }
  assert (Hgt : forall rest,
    exists op, ops_ self !! name = Some op /\ gate_or_timed op i (eg ++ ea ++ rest)).
  { intros rest. exists candidate. split; [done |]. right. right. apply Htimed. }
  apply profile_no_logs in Ha.
  destruct (too_slow approx_duration (fst st)) eqn:Eslow.
  { eapply post_bind; [apply post_emit | no_fatal |].
    intros ? [] [-> _].
    eapply post_weaken; [apply post_ret |]. intros ? ? [-> ->].
    norm_events. split; [| intros _; apply Hgt].
    rewrite !logs_of_app, Hgate, Ha. simpl. by econstructor. }
  destruct (warmup_iterations env approx_duration) as [warmup_iter |];
    [| eapply post_weaken; [apply post_undefined | done]].
  destruct (tuning_iterations env approx_duration _) as [tuning_iter |];
    [| eapply post_weaken; [apply post_undefined | done]].
  eapply post_bind; [apply post_emit | no_fatal |].
  intros ? [] [-> _].
  eapply post_bind; [apply post_WarmUp | |].
  { intros ew Hw. apply harness_post_no_logs in Hw.
    norm_events. split; [| done].
    rewrite !logs_of_app, Hgate, Ha. simpl. rewrite Hw. constructor. }
  intros ew [] Hw. apply harness_post_no_logs in Hw.
  eapply post_bind; [apply post_Profile | |].
  { intros em Hm. apply profile_no_logs in Hm.
    norm_events. split; [| done]. rewrite !logs_of_app, Hgate, Ha. simpl.
    rewrite logs_of_app, Hw, Hm. constructor. }
  intros em duration_ms Hm. apply profile_no_logs in Hm.
  destruct (dlt duration_ms (fst st)) eqn:Ebetter.
  - eapply post_bind; [apply post_emit | no_fatal |].
    intros ? [] [-> _].
    eapply post_weaken; [apply post_ret |]. intros ? ? [-> ->].
    norm_events. split; [| intros _; apply Hgt].
    rewrite !logs_of_app, Hgate, Ha. simpl.
    rewrite !logs_of_app, Hw, Hm. simpl. by constructor.
  - eapply post_weaken; [apply post_ret |]. intros ? ? [-> ->].
    norm_events. split; [| intros _; apply Hgt].
    rewrite !logs_of_app, Hgate, Ha. simpl.
    rewrite !logs_of_app, Hw, Hm. simpl. by econstructor.
Qed.

Lemma post_candidates_loop params reference_params reusable_params names i st :
  post (candidates_loop env self params reference_params reusable_params names i st)
    (fun evs o =>
       loop_logs names i st o (logs_of evs) /\
       (o <> None -> all_gate_or_timed self names i evs)).
Proof.
  revert i st. induction names as [| name rest IH]; intros i st; simpl.
  { eapply post_weaken; [apply post_ret |]. intros ? ? [-> ->].
    split; [constructor | by intros _ k name Hk]. }
  eapply post_bind; [apply post_loop_body | |].
  - intros e1 [Hb _]. split; [by apply ll_fatal | done].
  - intros e1 st1 [Hb Hg1].
    eapply post_weaken; [apply IH |]. intros e2 o [Hl Hg2]. split.
    + rewrite logs_of_app. eapply ll_round; eassumption.
    + intros Ho k name' Hk. destruct k as [| k]; simpl in Hk.
      * injection Hk as <-. destruct Hg1 as (op & Hop & Hg1); [done |].
        exists op. split; [done |]. rewrite Nat.add_0_r.
        pose proof (gate_or_timed_middle op i [] e1 e2 Hg1) as H. exact H.
      * destruct (Hg2 Ho k name' Hk) as (op & Hop & Hg).
        exists op. split; [done |].
        replace (i + S k)%nat with (S i + k)%nat by lia.
        pose proof (gate_or_timed_middle op (S i + k) e1 e2 [] Hg) as H.
        by rewrite app_nil_r in H.
Qed.

Lemma post_make_copies params rot n :
  post (make_copies params rot n)
    (fun evs o => exists ps, o = Some ps /\ length ps = n /\
                             evs = map (EvDeepCopy params rot) ps).
Proof.
  induction n as [| n IH]; simpl.
  { eapply post_weaken; [apply post_ret |]. intros ? ? [-> ->]. by exists []. }
  eapply post_bind; [apply post_DeepCopy | no_fatal |].
  intros ? p (? & -> & [= <-]).
  eapply post_bind; [apply IH | no_fatal |].
  intros ? rest (ps & [= ->] & Hlen & ->).
  eapply post_weaken; [apply post_ret |]. intros ? ? [-> ->].
  exists (p :: ps). norm_events. by rewrite <- Hlen.
Qed.

Lemma post_delete_all ps :
  post (delete_all ps) (fun evs o => evs = map EvDelete ps /\ o = Some tt).
Proof.
  induction ps as [| p ps IH]; simpl.
  { eapply post_weaken; [apply post_ret |]. by intros ? ? [-> ->]. }
  eapply post_bind; [apply post_emit | no_fatal |].
  intros ? [] [-> _].
  eapply post_weaken; [apply IH |]. by intros ? ? [-> ->].
Qed.

Lemma post_flushes n :
  post (repeatM n flush_icache) (fun evs o => evs = repeat EvFlush n /\ o = Some tt).
Proof.
  induction n as [| n IH]; simpl.
  { eapply post_weaken; [apply post_ret |]. by intros ? ? [-> ->]. }
  eapply post_bind; [apply post_emit | no_fatal |].
  intros ? [] [-> _].
  eapply post_weaken; [apply IH |]. by intros ? ? [-> ->].
Qed.

Lemma logs_of_deep_copies params rot ps :
  logs_of (map (EvDeepCopy params rot) ps) = [].
Proof. by induction ps. Qed.

Lemma logs_of_deletes ps : logs_of (map EvDelete ps) = [].
Proof. by induction ps. Qed.

Lemma logs_of_flushes n : logs_of (repeat EvFlush n) = [].
Proof. by induction n. Qed.

(** The pool: one setup message, then the copies. *)
Lemma post_make_pool params :
  post (make_pool env params)
    (fun evs o => exists m ps, setup_log m /\ o = Some ps /\
       evs = EvLog m ::
             map (EvDeepCopy params (0 <? GetRotatingBufferSize (ctx env))) ps).
Proof.
  unfold make_pool.
  destruct (param_count _ _) as [count |].
  2:{ eapply post_weaken; [apply post_undefined | done]. }
  eapply post_bind with
    (Q1 := fun e o => exists m, setup_log m /\ e = [EvLog m] /\ o = Some tt).
  { destruct (0 <? _); (eapply post_weaken; [apply post_emit |]);
      intros ? ? [-> ->]; eexists; (split; [| done]); done. }
  { no_fatal. }
  intros ? [] (m & Hm & -> & _).
  eapply post_weaken; [apply post_make_copies |].
  intros ? ? (ps & -> & _ & ->). by exists m, ps.
Qed.

Lemma all_gate_or_timed_middle names i e0 e e1 :
  all_gate_or_timed self names i e -> all_gate_or_timed self names i (e0 ++ e ++ e1).
Proof.
  intros H k name Hk. destruct (H k name Hk) as (op & Hop & Hg).
  exists op. split; [done |]. by apply gate_or_timed_middle.
Qed.

Lemma all_gate_or_timed_skip names i e0 e :
  all_gate_or_timed self names i e -> all_gate_or_timed self names i (e0 ++ e).
Proof.
  intros H. rewrite <- (app_nil_r e). by apply all_gate_or_timed_middle.
Qed.

Lemma all_gate_or_timed_keep names i e e1 :
  all_gate_or_timed self names i e -> all_gate_or_timed self names i (e ++ e1).
Proof. intros H. by apply (all_gate_or_timed_middle _ _ []). Qed.

Lemma post_FindFastest params :
  post (FindFastest env self params)
    (fun evs o =>
       selector_post (op_names_ self) evs o /\
       (o <> None -> all_gate_or_timed self (op_names_ self) 0 evs)).
Proof.
  unfold FindFastest.
  eapply post_bind; [apply post_Signature | no_fatal |].
  intros ? op_sig [-> _].
  eapply post_bind; [apply post_emit | no_fatal |].
  intros ? [] [-> _].
  eapply post_bind with
    (Q1 := fun e o => Forall setup_log (logs_of e) /\ o = Some tt).
  { apply post_when; [| done].
    eapply post_weaken; [apply post_emit |]. intros ? ? [-> ->].
    split; [| done]. by apply Forall_singleton. }
  { no_fatal. }
  intros e1 [] [He1 _].
  eapply post_bind; [apply post_flushes | no_fatal |].
  intros ? [] [-> _].
  eapply post_bind; [apply post_DeepCopy | no_fatal |].
  intros ? reference_params (? & -> & [= <-]).
  eapply post_bind; [apply post_ops_at | no_fatal |].
  intros ? default_op [-> _].
  eapply post_bind; [apply post_Call | no_fatal |].
  intros ? status (? & -> & [= <-]).
  set (pre1 := LogFindingFastest op_sig (params_signature env params)
                 (length (op_names_ self)) :: logs_of e1).
  assert (Hpre1 : Forall setup_log pre1) by (by apply Forall_cons).
  eapply post_bind; [apply post_TORCH_CHECK | |].
  { intros ? [-> Hck]. split; [| done].
    exists op_sig, (params_signature env params), pre1, [].
    split; [done |]. split; [done |].
    destruct (status_ok status); [done |]. split; [by left |].
    norm_events. rewrite !logs_of_app, logs_of_flushes. simpl.
    by rewrite !app_nil_r. }
  intros ? [] [-> _].
  eapply post_bind; [apply post_make_pool | no_fatal |].
  intros ? reusable_params (m & ps & Hm & [= <-] & ->).
  set (pre := pre1 ++ [m]).
  assert (Hpre : Forall setup_log pre).
  { apply Forall_app. split; [done | by apply Forall_singleton]. }
  eapply post_bind; [apply post_candidates_loop | |].
  { intros el [Hl _]. split; [| done].
    exists op_sig, (params_signature env params), pre, (logs_of el).
    split; [done |]. split; [done |]. split; [by right |].
    rewrite !logs_of_app, logs_of_flushes. simpl.
    rewrite logs_of_deep_copies, ?app_nil_r. unfold pre, pre1.
    by rewrite <- app_assoc. }
  intros el [min_duration_ms id_name] [Hl Hg].
  eapply post_bind; [apply post_delete_all | no_fatal |].
  intros ? [] [-> _].
  eapply post_bind; [apply post_emit | no_fatal |].
  intros ? [] [-> _].
  eapply post_bind; [apply post_emit | no_fatal |].
  intros ? [] [-> _].
  eapply post_weaken; [apply post_ret |]. intros ? ? [-> ->]. split.
  - exists op_sig, (params_signature env params), pre, (logs_of el).
    split; [done |]. split; [done |]. split; [done |].
    rewrite !logs_of_app, logs_of_flushes, logs_of_deletes. simpl.
    rewrite logs_of_deep_copies, ?app_nil_r. unfold pre, pre1.
    by rewrite <- !app_assoc.
  - intros _. cbv beta.
    repeat match goal with
           | |- all_gate_or_timed _ _ _ (?x ++ _) =>
               tryif unify x el then fail else apply all_gate_or_timed_skip
           end.
    apply all_gate_or_timed_keep. by apply Hg.
Qed.

End Selector.

(** ** Facts on doubles *)

Lemma too_slow_infinity (approx_duration : double) :
  too_slow approx_duration infinity = false.
Proof.
  unfold too_slow.
  change (dmul (double_of_Z 2) infinity) with infinity.
  by destruct approx_duration as [[] | [] | | [] m e].
Qed.

Lemma dlt_not_infinity (d m : double) : dlt d m = true -> d <> infinity.
Proof. intros H ->. by destruct m as [[] | [] | | [] ? ?]. Qed.

Lemma too_slow_not_infinity (approx_duration m : double) :
  too_slow approx_duration m = true -> m <> infinity.
Proof. intros H ->. by rewrite too_slow_infinity in H. Qed.

(** ** The messages of the loop *)

Section LoopLogs.

Implicit Types (names : list string) (st : double * string) (l : list LogMsg).

Lemma body_outcome_index i name st o l m :
  body_outcome i name st o l -> m ∈ l -> log_index m = Some i.
Proof.
  intros Hb Hm. destruct Hb;
    repeat (apply elem_of_cons in Hm as [-> | Hm]; [done |]);
    by apply elem_of_nil in Hm.
Qed.

Lemma loop_logs_index names i st o l m :
  loop_logs names i st o l -> m ∈ l ->
  exists j, log_index m = Some j /\ (i <= j < i + length names)%nat.
Proof.
  induction 1 as [i st | name rest i st st1 o l1 l2 Hb Hl IH | name rest i st l1 Hb];
    intros Hm.
  - by apply elem_of_nil in Hm.
  - apply elem_of_app in Hm as [Hm | Hm].
    + exists i. split; [by eapply body_outcome_index |]. simpl. lia.
    + destruct (IH Hm) as (j & Hj & Hr). exists j. split; [done |]. simpl. lia.
  - exists i. split; [by eapply body_outcome_index |]. simpl. lia.
Qed.

(** Whether a list of messages holds an improvement can be decided. *)
Lemma classic_found l :
  (exists j d, LogFoundBetter j d ∈ l) \/ (forall j d, LogFoundBetter j d ∉ l).
Proof.
  induction l as [| m l [(j & d & Hf) | Hno]].
  - right. intros j d Hm. by apply elem_of_nil in Hm.
  - left. exists j, d. apply elem_of_cons. by right.
  - destruct m; try (right; intros j d Hm; apply elem_of_cons in Hm as [[=] | Hm];
                     by eapply Hno).
    left. eexists _, _. apply elem_of_cons. by left.
Qed.

(** A round prints an improvement only for its own candidate, whose name
    and duration become the state. *)
Lemma body_outcome_found i name st st' l j d :
  body_outcome i name st (Some st') l -> LogFoundBetter j d ∈ l ->
  j = i /\ st' = (d, name) /\ forall k, LogSkipSlow k ∉ l.
Proof.
  intros Hb Hm. inversion Hb; subst;
    repeat (apply elem_of_cons in Hm as [[=] | Hm]);
    try by apply elem_of_nil in Hm.
  subst. split; [done |]. split; [done |].
  intros k Hk. repeat (apply elem_of_cons in Hk as [[=] | Hk]).
  by apply elem_of_nil in Hk.
Qed.

(** A round that prints no improvement leaves the state as it was. *)
Lemma body_outcome_kept i name st st' l :
  body_outcome i name st (Some st') l ->
  (forall j d, LogFoundBetter j d ∉ l) -> st' = st.
Proof.
  intros Hb Hno. inversion Hb; subst; try done.
  exfalso. eapply Hno. apply elem_of_cons. right. apply elem_of_cons. by left.
Qed.

(** A candidate the early bail skipped is not printed as an improvement. *)
Lemma loop_logs_skip_excludes_found names i st o l j d :
  loop_logs names i st o l -> LogSkipSlow j ∈ l -> LogFoundBetter j d ∉ l.
Proof.
  induction 1 as [i st | name rest i st st1 o l1 l2 Hb Hl IH | name rest i st l1 Hb];
    intros Hs Hf.
  - by apply elem_of_nil in Hs.
  - apply elem_of_app in Hs as [Hs | Hs], Hf as [Hf | Hf].
    + destruct (body_outcome_found _ _ _ _ _ _ _ Hb Hf) as (_ & _ & Hno).
      by apply (Hno j).
    + pose proof (body_outcome_index _ _ _ _ _ _ Hb Hs) as [= ->].
      destruct (loop_logs_index _ _ _ _ _ _ Hl Hf) as (k & [= <-] & Hk). lia.
    + pose proof (body_outcome_index _ _ _ _ _ _ Hb Hf) as [= ->].
      destruct (loop_logs_index _ _ _ _ _ _ Hl Hs) as (k & [= <-] & Hk). lia.
    + by apply IH.
  - inversion Hb; subst; repeat (apply elem_of_cons in Hs as [[=] | Hs]);
      by apply elem_of_nil in Hs.
Qed.

(** The state the loop ends with: the one it started with when no
    improvement was printed, else the name and duration of a candidate an
    improvement was printed for. *)
Lemma loop_logs_final names i st st' l :
  loop_logs names i st (Some st') l ->
  (st' = st /\ forall j d, LogFoundBetter j d ∉ l) \/
  (exists j d, LogFoundBetter j d ∈ l /\ (i <= j)%nat /\
               names !! (j - i)%nat = Some (snd st') /\ fst st' = d).
Proof.
  remember (Some st') as o eqn:Eo.
  induction 1 as [i st | name rest i st st1 o l1 l2 Hb Hl IH | name rest i st l1 Hb];
    [| | done].
  { injection Eo as ->. left. split; [done |]. intros j d Hm.
    by apply elem_of_nil in Hm. }
  destruct (IH Eo) as [[-> Hno2] | (j & d & Hf & Hij & Hn & Hd)].
  - destruct (classic_found l1) as [(j & d & Hf) | Hno1].
    + destruct (body_outcome_found _ _ _ _ _ _ _ Hb Hf) as (-> & -> & _).
      right. exists i, d. split; [apply elem_of_app; by left |].
      split; [lia |]. by rewrite Nat.sub_diag.
    + left. split; [by eapply body_outcome_kept |].
      intros j d Hm. apply elem_of_app in Hm as [Hm | Hm]; [by eapply Hno1 | by eapply Hno2].
  - right. exists j, d. split; [apply elem_of_app; by right |].
    split; [lia |]. split; [| done].
    replace (j - i)%nat with (S (j - S i)) by lia. done.
Qed.

(** While the minimum is still infinite no early bail is printed. *)
Lemma loop_logs_guarded names i st o l (found : bool) :
  loop_logs names i st o l ->
  (found = false -> fst st = infinity) ->
  skip_guarded found l = true.
Proof.
  intros Hl. revert found.
  induction Hl as [i st | name rest i st st1 o l1 l2 Hb Hl IH | name rest i st l1 Hb];
    intros found Hseed; [done | |].
  - inversion Hb; subst; simpl.
    + by apply IH.
    + by apply IH.
    + destruct found.
      * by apply IH.
      * match goal with H : too_slow _ _ = true |- _ =>
          apply too_slow_not_infinity in H end.
        by destruct (Hseed eq_refl).
    + by apply IH.
    + by apply IH.
  - inversion Hb; subst; done.
Qed.

(** With [skip_guarded], an early bail has an improvement before it. *)
Lemma skip_guarded_split found l1 j l2 :
  skip_guarded found (l1 ++ LogSkipSlow j :: l2) = true ->
  found = true \/ exists j' d, LogFoundBetter j' d ∈ l1.
Proof.
  revert found. induction l1 as [| m l1 IH]; intros found H; simpl in H.
  { left. by destruct found. }
  assert (Hrest : forall b, skip_guarded b (l1 ++ LogSkipSlow j :: l2) = true ->
                  b = found -> found = true \/
                  exists j' d, LogFoundBetter j' d ∈ m :: l1).
  { intros b Hb ->. destruct (IH _ Hb) as [-> | (j' & d & Hf)]; [by left |].
    right. exists j', d. apply elem_of_cons. by right. }
  destruct m; try (by eapply Hrest).
  - apply andb_true_iff in H as [-> _]. by left.
  - right. eexists _, _. apply elem_of_cons. by left.
Qed.

(** Every candidate of a loop that ran to its end got a verdict. *)
Lemma loop_logs_verdict names i st st' l k name :
  loop_logs names i st (Some st') l -> names !! k = Some name ->
  LogUnsupported (i + k) ∈ l \/ LogNumericsFailed (i + k) ∈ l \/
  LogSkipSlow (i + k) ∈ l \/
  exists warmup tuning, LogTuningUsing (i + k) warmup tuning ∈ l.
Proof.
  remember (Some st') as o eqn:Eo. intros Hl. revert k.
  induction Hl as [i st | name' rest i st st1 o l1 l2 Hb Hl IH | name' rest i st l1 Hb];
    intros k Hk; [done | | done].
  destruct k as [| k]; simpl in Hk.
  - rewrite Nat.add_0_r.
    inversion Hb; subst.
    + left. apply elem_of_app. left. apply elem_of_cons. by left.
    + right. left. apply elem_of_app. left. apply elem_of_cons. by left.
    + right. right. left. apply elem_of_app. left. apply elem_of_cons. by left.
    + right. right. right. eexists _, _. apply elem_of_app. left.
      apply elem_of_cons. by left.
    + right. right. right. eexists _, _. apply elem_of_app. left.
      apply elem_of_cons. by left.
  - replace (i + S k)%nat with (S i + k)%nat by lia.
    destruct (IH Eo k Hk) as [H | [H | [H | (wu & tu & H)]]].
    + left. apply elem_of_app. by right.
    + right. left. apply elem_of_app. by right.
    + right. right. left. apply elem_of_app. by right.
    + right. right. right. exists wu, tu. apply elem_of_app. by right.
Qed.

End LoopLogs.

(** ** Runs of the selector *)

Lemma elem_of_logs_of (m : LogMsg) (evs : list Event) :
  m ∈ logs_of evs <-> EvLog m ∈ evs.
Proof.
  induction evs as [| e evs IH]; [by rewrite !elem_of_nil |].
  destruct e; simpl; rewrite ?elem_of_cons, IH;
    try (split; [by right | by intros [[=] |]]).
  split; (intros [H | H]; [left | by right]); congruence.
Qed.

Lemma FindFastest_logs env self params w o w' :
  finish (FindFastest env self params w) = Some (o, w') ->
  selector_post (op_names_ self) (new_events w w') o.
Proof.
  intros H.
  destruct (post_FindFastest env self params w o w' H) as (evs & Ht & Hp & _).
  by rewrite (new_events_app _ _ _ Ht).
Qed.

(** The messages of the loop, cut out of the messages of a run. *)
Lemma selector_post_loop names evs o m :
  selector_post names evs o -> m ∈ logs_of evs ->
  log_index m <> None ->
  exists l, loop_logs names 0 seed (option_map (fun r => (time_ r, key_ r)) o) l /\
            m ∈ l.
Proof.
  intros (op_sig & params_sig & pre & l & Hpre & _ & Hcase) Hm Hidx.
  assert (Hnot_pre : m ∉ pre).
  { intros Hin. rewrite Forall_forall in Hpre. specialize (Hpre m Hin).
    by destruct m. }
  destruct o as [r |]; simpl.
  - destruct Hcase as [Hl Heq]. rewrite Heq in Hm. exists l. split; [done |].
    apply elem_of_app in Hm as [Hm | Hm]; [done |].
    apply elem_of_app in Hm as [Hm | Hm]; [done |].
    apply list_elem_of_singleton in Hm as ->. done.
  - destruct Hcase as [Hl Heq]. rewrite Heq in Hm.
    apply elem_of_app in Hm as [Hm | Hm]; [done |].
    destruct Hl as [-> | Hl]; [by apply elem_of_nil in Hm |]. by exists l.
Qed.

(** C2.  In a run of [FindFastest] over distinct candidate names, a
    candidate the run skipped by the early bail ("skip slow instance") is
    never printed as an improvement in that run, and it is not the winner
    the run returns. *)
Theorem early_bail_is_final (env : Env) (self : TunableOp) (params : ParamsPtr)
    (w w' : World) (r : ResultEntry) (i : nat) (name : string) :
  NoDup (op_names_ self) ->
  FindFastest env self params w = Ok r w' ->
  op_names_ self !! i = Some name ->
  EvLog (LogSkipSlow i) ∈ new_events w w' ->
  (forall d, EvLog (LogFoundBetter i d) ∉ new_events w w') /\
  key_ r <> name.
Proof.
  intros Hnodup Hrun Hname Hskip.
  assert (Hfin : finish (FindFastest env self params w) = Some (Some r, w'))
    by (by rewrite Hrun).
  apply FindFastest_logs in Hfin.
  apply elem_of_logs_of in Hskip.
  destruct (selector_post_loop _ _ _ _ Hfin Hskip) as (l & Hl & Hin); [done |].
  simpl in Hl. split.
  { intros d Hf. apply elem_of_logs_of in Hf.
    destruct Hfin as (? & ? & pre & l0 & Hpre & _ & Hl0 & Heq).
    assert (Hin0 : forall m, log_index m <> None -> m ∈ logs_of (new_events w w') ->
                             m ∈ l0).
    { intros m Hm Hmem. rewrite Heq in Hmem.
      apply elem_of_app in Hmem as [Hmem | Hmem].
      - rewrite Forall_forall in Hpre. specialize (Hpre m Hmem). by destruct m.
      - apply elem_of_app in Hmem as [Hmem | Hmem]; [done |].
        apply list_elem_of_singleton in Hmem as ->. done. }
    apply (loop_logs_skip_excludes_found _ _ _ _ _ i d Hl0);
      by apply Hin0. }
  destruct (loop_logs_final _ _ _ _ _ Hl) as [[Hseed Hno] | (j & d & Hf & _ & Hj & _)].
  - pose proof (loop_logs_guarded _ _ _ _ _ false Hl (fun _ => eq_refl)) as Hg.
    apply list_elem_of_split in Hin as (l1 & l2 & ->).
    destruct (skip_guarded_split _ _ _ _ Hg) as [[=] | (j & d & Hf)].
    exfalso. apply (Hno j d). apply elem_of_app. by left.
  - simpl in Hj. rewrite Nat.sub_0_r in Hj. intros Heq. rewrite Heq in Hj.
    pose proof (NoDup_lookup _ _ _ _ Hnodup Hname Hj) as ->.
    by apply (loop_logs_skip_excludes_found _ _ _ _ _ _ d Hl Hin).
Qed.

(** Over a whole run of [FindFastest], however it ends, every early bail
    is printed after some improvement was printed. *)
Lemma skip_follows_improvement (env : Env) (self : TunableOp)
    (params : ParamsPtr) (w w' : World) (o : option ResultEntry) :
  finish (FindFastest env self params w) = Some (o, w') ->
  forall l1 i l2,
    logs_of (new_events w w') = l1 ++ LogSkipSlow i :: l2 ->
    exists j d, LogFoundBetter j d ∈ l1.
Proof.
  intros Hfin l1 i l2 Hsplit.
  apply FindFastest_logs in Hfin.
  destruct Hfin as (op_sig & params_sig & pre & l & Hpre & _ & Hcase).
  assert (Hall : exists post, logs_of (new_events w w') = pre ++ l ++ post /\
                   skip_guarded false l = true /\
                   forall m, m ∈ post -> log_index m = None).
  { destruct o as [r |]; destruct Hcase as [Hl Heq].
    - exists [LogFoundFastest (key_ r)]. split; [done |]. split.
      + by eapply loop_logs_guarded.
      + intros m Hm. by apply list_elem_of_singleton in Hm as ->.
    - exists []. rewrite app_nil_r. split; [done |]. split.
      + destruct Hl as [-> | Hl]; [done |]. by eapply loop_logs_guarded.
      + intros m Hm. by apply elem_of_nil in Hm. }
  destruct Hall as (post & Heq & Hg & Hpost).
  assert (Hgall : skip_guarded false (pre ++ l ++ post) = true).
  { clear Heq Hsplit Hcase.
    assert (Hpost' : forall b, skip_guarded b post = true).
    { intros b. induction post as [| m post IH]; [done |].
      pose proof (Hpost m (list_elem_of_here _ _)) as Hm.
      assert (IH' := IH (fun m' H' => Hpost m' (list_elem_of_further _ _ _ H'))).
      by destruct m. }
    assert (Hl' : forall b, skip_guarded b l = true ->
                            skip_guarded b (l ++ post) = true).
    { clear Hg. induction l as [| m l IH]; intros b Hb; [apply Hpost' |].
      destruct m; simpl in *; try by apply IH.
      apply andb_true_iff in Hb as [-> Hb]. by apply IH. }
    induction Hpre as [| m pre Hm _ IH]; [by apply Hl' |].
    by destruct m. }
  rewrite <- Heq, Hsplit in Hgall.
  by destruct (skip_guarded_split _ _ _ _ Hgall) as [[=] |].
Qed.

(** A run of [FindFastest] that ends, normally or with a fatal error,
    has printed its announcement. *)
Lemma FindFastest_announces env self params w o w' :
  finish (FindFastest env self params w) = Some (o, w') ->
  exists op_sig params_sig n,
    EvLog (LogFindingFastest op_sig params_sig n) ∈ new_events w w'.
Proof.
  intros H. apply FindFastest_logs in H.
  destruct H as (op_sig & params_sig & pre & l & _ & Hhd & Hcase).
  exists op_sig, params_sig, (length (op_names_ self)).
  apply elem_of_logs_of. destruct pre as [| m pre]; [done |].
  injection Hhd as ->.
  destruct o; destruct Hcase as [_ ->]; apply elem_of_cons; by left.
Qed.

(** The state the loop starts from and falls back to: an infinite
    duration under the name Default. *)
Lemma seed_is_default : seed = (infinity, "Default"%string).
Proof. reflexivity. Qed.

(** C5, as stated, fails: in the example world the candidate registered
    as Default is timed in the loop; it is even printed as an improvement
    with its measured 10 ms before FastKernel takes the lead. *)
Lemma default_is_timed :
  exists r w',
    FindFastest Example.env Example.op 0%nat Example.w0 = Ok r w' /\
    op_names_ Example.op !! 0%nat = Some "Default"%string /\
    ops_ Example.op !! "Default"%string = Some 0%nat /\
    timed 0%nat (new_events Example.w0 w') = true /\
    LogFoundBetter 0 (double_of_Z 10) ∈ logs_of (new_events Example.w0 w').
Proof.
  eexists _, _. split; [vm_compute; reflexivity |].
  split; [reflexivity |]. split; [reflexivity |]. split; [reflexivity |].
  vm_compute. do 3 apply list_elem_of_further. apply list_elem_of_here.
Qed.

(** C5, amended.  In a run of [FindFastest] that returns, the name
    Default with an infinite duration is the seed of the comparison and
    is what the run returns when no improvement was printed; the
    candidate registered under the name Default takes part in the loop at
    its place like every other candidate: it is turned away by the
    correctness gate or it is timed. *)
Theorem default_takes_part (env : Env) (self : TunableOp) (params : ParamsPtr)
    (w w' : World) (r : ResultEntry) :
  FindFastest env self params w = Ok r w' ->
  ((forall j d, EvLog (LogFoundBetter j d) ∉ new_events w w') ->
   r = mkResultEntry "Default" infinity) /\
  (forall i, op_names_ self !! i = Some "Default"%string ->
     exists op, ops_ self !! "Default"%string = Some op /\
       (EvLog (LogUnsupported i) ∈ new_events w w' \/
        EvLog (LogNumericsFailed i) ∈ new_events w w' \/
        timed op (new_events w w') = true)).
Proof.
  intros Hrun.
  destruct (post_FindFastest env self params w (Some r) w') as (evs & Ht & Hp & Hg);
    [by rewrite Hrun |].
  rewrite (new_events_app _ _ _ Ht). split.
  - intros Hno.
    destruct Hp as (op_sig & params_sig & pre & l & _ & _ & Hl & Heq).
    destruct (loop_logs_final _ _ _ _ _ Hl) as [[Hseed _] | (j & d & Hf & _)].
    + destruct r as [k t]. simpl in Hseed. by injection Hseed as -> ->.
    + exfalso. apply (Hno j d). apply elem_of_logs_of. rewrite Heq.
      apply elem_of_app. right. apply elem_of_app. by left.
  - intros i Hi. destruct (Hg ltac:(done) i _ Hi) as (op & Hop & Hgt).
    exists op. split; [done |]. rewrite <- !elem_of_logs_of. exact Hgt.
Qed.

(** ** The correctness gate and its copy *)

(** When the candidate's call on the fresh copy answers OK, the copy is
    deleted, whether the numerical check passes or not. *)
Lemma gate_deletes_copy_after_call (env : Env) (i : nat) (candidate : Callable)
    (params reference_params : ParamsPtr) (reusable_params : list ParamsPtr)
    (w : World) :
  IsNumericsCheckEnabled (ctx env) = true ->
  call_status env (trace w ++ [EvDeepCopy params false (next_ptr w)])
    candidate (next_ptr w) = OK ->
  exists pass w',
    gate env i candidate params reference_params reusable_params w = Ok pass w' /\
    EvDelete (next_ptr w) ∈ new_events w w'.
Proof.
  intros Hnum Hcall. unfold gate. rewrite Hnum.
  unfold bind, DeepCopy, Call. simpl. rewrite Hcall. simpl.
  destruct (status_ok _); simpl.
  - eexists _, _. split; [reflexivity |]. unfold new_events. simpl.
    rewrite <- !app_assoc, drop_app_length. simpl.
    do 3 apply list_elem_of_further. apply list_elem_of_here.
  - eexists _, _. split; [reflexivity |]. unfold new_events. simpl.
    rewrite <- !app_assoc, drop_app_length. simpl.
    do 3 apply list_elem_of_further. apply list_elem_of_here.
Qed.

(** When the call on the fresh copy does not answer OK, the round moves
    on to the next candidate and the copy is not deleted: the gate ends
    after the copy, the call and the message. *)
Lemma gate_keeps_copy_after_failed_call (env : Env) (i : nat) (candidate : Callable)
    (params reference_params : ParamsPtr) (reusable_params : list ParamsPtr)
    (w : World) :
  IsNumericsCheckEnabled (ctx env) = true ->
  call_status env (trace w ++ [EvDeepCopy params false (next_ptr w)])
    candidate (next_ptr w) = FAIL ->
  exists w',
    gate env i candidate params reference_params reusable_params w = Ok false w' /\
    new_events w w' = [EvDeepCopy params false (next_ptr w);
                       EvCall candidate (next_ptr w) FAIL;
                       EvLog (LogUnsupported i)].
Proof.
  intros Hnum Hcall. unfold gate. rewrite Hnum.
  unfold bind, DeepCopy, Call. simpl. rewrite Hcall. simpl.
  eexists. split; [reflexivity |]. unfold new_events. simpl.
  by rewrite <- !app_assoc, drop_app_length.
Qed.

(** C4, at the failing input: with the numerics check on and a third
    candidate whose call fails, the run returns and the fresh copy made
    for that candidate's gate (object 5) is the one copy never deleted;
    the copies made for the two candidates whose calls succeed (objects 3
    and 4), the pool and the reference copy are all deleted. *)
Theorem gate_copy_leaks_at_failed_call :
  exists r w',
    FindFastest Example.env_failing Example.op 0%nat Example.w0 = Ok r w' /\
    EvDeepCopy 0%nat false 5%nat ∈ trace w' /\
    EvCall 2%nat 5%nat FAIL ∈ trace w' /\
    deleted 5%nat (trace w') = false /\
    deleted 3%nat (trace w') = true /\
    deleted 4%nat (trace w') = true /\
    leaked (trace w') = [5%nat].
Proof.
  eexists _, _. split; [vm_compute; reflexivity |].
  split; [apply list_elem_of_In; vm_compute; tauto |].
  split; [apply list_elem_of_In; vm_compute; tauto |].
  repeat split; reflexivity.
Qed.

(** ** The operation facade *)

(** C1.  With the tunable-op feature on, when the lookup in the results
    cache for (operation signature, parameter signature) answers a
    decision [r] other than Null and a candidate is registered under the
    name of [r], the call does exactly two things: the lookup, and one
    call of that candidate on the caller's parameters, whose status it
    returns.  [FindFastest] is not run (its announcement is not printed)
    and the cache is left as it was. *)
Theorem cache_first_dispatch (env : Env) (self : TunableOp) (params : ParamsPtr)
    (w : World) (r : ResultEntry) (op : Callable) :
  let op_sig := default (type_name env) (signature_ w) in
  let params_sig := params_signature env params in
  IsTunableOpEnabled (ctx env) = true ->
  default ResultEntry.Null (mgr w !! (op_sig, params_sig)) = r ->
  ResultEntry.eqb r ResultEntry.Null = false ->
  ops_ self !! key_ r = Some op ->
  exists status w',
    operator_call env self params w = Ok status w' /\
    new_events w w' = [EvLookup op_sig params_sig r; EvCall op params status] /\
    status = call_status env (trace w ++ [EvLookup op_sig params_sig r]) op params /\
    (forall s p n, EvLog (LogFindingFastest s p n) ∉ new_events w w') /\
    mgr w' = mgr w.
Proof.
  intros op_sig params_sig Hon Hlook Hnn Hop.
  assert (Hrun : exists w', operator_call env self params w
            = Ok (call_status env (trace w ++ [EvLookup op_sig params_sig r]) op params) w' /\
            trace w' = trace w ++ [EvLookup op_sig params_sig r;
              EvCall op params
                (call_status env (trace w ++ [EvLookup op_sig params_sig r]) op params)] /\
            mgr w' = mgr w).
  { unfold operator_call. rewrite Hon. unfold bind at 1. unfold bind at 1.
    unfold Signature, op_sig, params_sig in *.
    destruct (signature_ w) as [sig |] eqn:Esig; simpl in *;
      unfold bind, Lookup, dispatch, bind, TORCH_CHECK, Call, ret; simpl;
      rewrite Hlook, Hnn; simpl; rewrite Hnn, Hop; simpl;
      (eexists; split; [reflexivity |]; simpl; split; [| done]);
      by rewrite <- app_assoc. }
  destruct Hrun as (w' & Hrun & Ht & Hmgr).
  eexists _, w'. split; [exact Hrun |].
  rewrite (new_events_app _ _ _ Ht). split; [done |]. split; [done |].
  split; [| done].
  intros s p n Hin. apply elem_of_cons in Hin as [[=] | Hin].
  apply elem_of_cons in Hin as [[=] | Hin]. by apply elem_of_nil in Hin.
Qed.

(** A cached decision whose name is not registered ends the call with a
    fatal error right after the lookup; [FindFastest] is not run either. *)
Lemma cache_hit_unregistered_is_fatal (env : Env) (self : TunableOp)
    (params : ParamsPtr) (w : World) (r : ResultEntry) :
  let op_sig := default (type_name env) (signature_ w) in
  let params_sig := params_signature env params in
  IsTunableOpEnabled (ctx env) = true ->
  default ResultEntry.Null (mgr w !! (op_sig, params_sig)) = r ->
  ResultEntry.eqb r ResultEntry.Null = false ->
  ops_ self !! key_ r = None ->
  exists w',
    operator_call env self params w = Fatal w' /\
    new_events w w' = [EvLookup op_sig params_sig r].
Proof.
  intros op_sig params_sig Hon Hlook Hnn Hop.
  unfold operator_call. rewrite Hon. unfold bind at 1. unfold bind at 1.
  unfold Signature, op_sig, params_sig in *.
  destruct (signature_ w) as [sig |] eqn:Esig; simpl in *;
    unfold bind, Lookup, dispatch, bind, TORCH_CHECK, Call, ret; simpl;
    rewrite Hlook, Hnn; simpl; rewrite Hnn, Hop; simpl;
    (eexists; split; [reflexivity |]);
    unfold new_events; simpl; by rewrite drop_app_length.
Qed.

(** With the tunable-op feature off, whatever the results cache holds,
    the call does one thing: it calls the candidate registered as Default
    on the caller's parameters and returns its status.  The cache is
    neither read nor written. *)
Lemma feature_off_dispatches_default (env : Env) (self : TunableOp)
    (params : ParamsPtr) (w : World) (op : Callable) :
  IsTunableOpEnabled (ctx env) = false ->
  ops_ self !! "Default"%string = Some op ->
  exists status w',
    operator_call env self params w = Ok status w' /\
    new_events w w' = [EvCall op params status] /\
    status = call_status env (trace w) op params /\
    mgr w' = mgr w.
Proof.
  intros Hoff Hop. unfold operator_call. rewrite Hoff.
  unfold bind, ret, dispatch, bind, TORCH_CHECK, Call. simpl. rewrite Hop. simpl.
  eexists _, _. split; [reflexivity |]. split; [| done].
  unfold new_events. simpl. by rewrite drop_app_length.
Qed.

(** ** The pool of parameter copies *)

Lemma make_copies_total (params : ParamsPtr) (rot : bool) (n : nat) (w : World) :
  exists ps w',
    make_copies params rot n w = Ok ps w' /\ length ps = n /\
    trace w' = trace w ++ map (EvDeepCopy params rot) ps.
Proof.
  revert w. induction n as [| n IH]; intros w; simpl.
  { exists [], w. by rewrite app_nil_r. }
  unfold bind at 1. unfold DeepCopy at 1.
  destruct (IH {| trace := trace w ++ [EvDeepCopy params rot (next_ptr w)];
                  next_ptr := S (next_ptr w); mgr := mgr w;
                  signature_ := signature_ w |}) as (ps & w' & Hrun & Hlen & Ht).
  unfold bind. rewrite Hrun. unfold ret.
  exists (next_ptr w :: ps), w'. split; [done |]. split; [by rewrite <- Hlen |].
  rewrite Ht. simpl. by rewrite <- app_assoc.
Qed.

(** The pool always comes out with [rotating_size / param_size + 1]
    copies, counted in [size_t]. *)
Lemma make_pool_total (env : Env) (params : ParamsPtr) (w : World) :
  let rotating_size := GetRotatingBufferSize (ctx env) in
  let param_size := GetSize env (0 <? rotating_size) in
  param_size <> 0 ->
  exists m pool w',
    make_pool env params w = Ok pool w' /\
    Z.of_nat (length pool) = wrap_size (rotating_size / param_size + 1) /\
    new_events w w' = EvLog m :: map (EvDeepCopy params (0 <? rotating_size)) pool.
Proof.
  intros rotating_size param_size Hsize. unfold make_pool, param_count.
  fold rotating_size. fold param_size.
  destruct (param_size =? 0) eqn:E; [by apply Z.eqb_eq in E |].
  set (count := wrap_size (rotating_size / param_size + 1)).
  assert (Hcount : 0 <= count) by (apply Z.mod_pos_bound; done).
  set (m := if 0 <? rotating_size
            then LogRotatingBuffer rotating_size param_size count
            else LogRotatingNotRequested).
  destruct (make_copies_total params (0 <? rotating_size) (Z.to_nat count)
              (world_emit (EvLog m) w)) as (ps & w' & Hrun & Hlen & Ht).
  exists m, ps, w'. split.
  - unfold bind. unfold m in Hrun.
    destruct (0 <? rotating_size); unfold TUNABLE_LOG, emit; by rewrite Hrun.
  - split; [rewrite Hlen; lia |].
    apply new_events_app. rewrite Ht. simpl. by rewrite <- app_assoc.
Qed.

(** C6, at the failing input.  The count [rotating_size / param_size + 1]
    of line 143 is computed in [size_t] and not checked: with a budget of
    [SIZE_MAX] bytes and parameters of one byte the count asked for is 2^64,
    the code's count wraps around to 0, and the pool is empty, which the
    comment at lines 138-139 and every later use of the pool exclude.  A
    run whose candidates are all turned away by the numerics gate returns
    without one copy made for rotation.  With the numerics check off the
    gate reads [reusable_params[0]] of the empty pool (line 176); with it
    on, a candidate that passes the gate is profiled with
    [i % param.size()] for a size of 0 (line 111): both are undefined. *)
Theorem pool_size_wraps :
  GetRotatingBufferSize (ctx Example.env_wrap) = SIZE_MAX /\
  GetSize Example.env_wrap true = 1 /\
  SIZE_MAX / 1 + 1 = 2 ^ 64 /\
  param_count SIZE_MAX 1 = Some 0 /\
  (exists w', make_pool Example.env_wrap 0%nat Example.w0 = Ok [] w') /\
  (exists r w', FindFastest Example.env_wrap Example.op 0%nat Example.w0 = Ok r w' /\
     forall src p, EvDeepCopy src true p ∉ trace w') /\
  FindFastest Scenario.env_wrap_plain Example.op 0%nat Example.w0 = Undef /\
  FindFastest Scenario.env_wrap_checked Example.op 0%nat Example.w0 = Undef.
Proof.
  split; [reflexivity |]. split; [reflexivity |]. split; [reflexivity |].
  split; [reflexivity |].
  split; [eexists; vm_compute; reflexivity |]. split.
  - eexists _, _. split; [vm_compute; reflexivity |].
    intros src p Hin. apply list_elem_of_In in Hin. vm_compute in Hin.
    repeat (destruct Hin as [Hin | Hin]; [discriminate Hin |]). done.
  - split; vm_compute; reflexivity.
Qed.

(** Where the count fits in a [size_t] the code sizes the pool as asked:
    for a rotating-buffer budget [B] and a per-copy size [S > 0] with
    [B / S + 1 <= SIZE_MAX], the pool holds exactly [B / S + 1] deep
    copies when [B > 0] and exactly one when [B = 0]; nothing else than
    these copies is made. *)
Lemma pool_size (env : Env) (params : ParamsPtr) (w : World) :
  let B := GetRotatingBufferSize (ctx env) in
  let S := GetSize env (0 <? B) in
  0 <= B <= SIZE_MAX -> 0 < S <= SIZE_MAX -> B / S + 1 <= SIZE_MAX ->
  exists m pool w',
    make_pool env params w = Ok pool w' /\
    Z.of_nat (length pool) = (if 0 <? B then B / S + 1 else 1) /\
    new_events w w' = EvLog m :: map (EvDeepCopy params (0 <? B)) pool.
Proof.
  intros B S HB HS Hfit.
  destruct (make_pool_total env params w) as (m & pool & w' & Hrun & Hlen & Hev).
  { fold B. fold S. lia. }
  exists m, pool, w'. split; [done |]. split; [| done].
  rewrite Hlen. fold B. fold S. unfold wrap_size.
  assert (Hq : 0 <= B / S) by (apply Z.div_pos; lia).
  rewrite Z.mod_small by (unfold SIZE_MAX in Hfit; lia).
  destruct (0 <? B) eqn:E; [done |].
  apply Z.ltb_ge in E. assert (B = 0) as -> by lia. done.
Qed.

(** ** Calibration *)

Lemma wrap_int_small (z : Z) : INT_MIN <= z <= INT_MAX -> wrap_int z = z.
Proof.
  unfold INT_MIN, INT_MAX, wrap_int. intros H. rewrite Z.mod_small; lia.
Qed.

(** C7, at the failing input.  Line 229 clamps the count against
    [static_cast<int>(reusable_params.size())]: a budget of 2^31 - 1 bytes
    over parameters of one byte makes a pool of 2^31 copies, the cast
    turns that size into [INT_MIN], the clamp does nothing, and the tuning
    runs the 10 iterations of the knob, fewer than the pool has buffers,
    against the comment at line 228. *)
Theorem tuning_iterations_below_pool_size :
  GetRotatingBufferSize (ctx Example.env_pool31) = 2 ^ 31 - 1 /\
  GetSize Example.env_pool31 true = 1 /\
  GetMaxTuningIterations (ctx Example.env_pool31) = 10 /\
  (forall params w, exists m pool w',
      make_pool Example.env_pool31 params w = Ok pool w' /\
      Z.of_nat (length pool) = 2 ^ 31 /\
      new_events w w' = EvLog m :: map (EvDeepCopy params true) pool) /\
  wrap_int (2 ^ 31) = INT_MIN /\
  tuning_iterations Example.env_pool31 (double_of_Z 2) (2 ^ 31) = Some 10 /\
  10 < 2 ^ 31.
Proof.
  split; [reflexivity |]. split; [reflexivity |]. split; [reflexivity |].
  split; [| split; [reflexivity | split; [reflexivity | done]]].
  intros params w.
  destruct (make_pool_total Example.env_pool31 params w) as (m & pool & w' & H);
    [done |].
  by exists m, pool, w'.
Qed.

(** Where the cast is harmless the code clamps as asked: whatever the
    knobs and the approximate duration, provided the conversion of the
    count derived from the duration knob is defined, the number of tuning
    iterations is at least 1, and it is at least the size of the pool
    whenever that size fits in an [int]. *)
Lemma tuning_iterations_floor (env : Env) (approx_duration : double)
    (pool_size : Z) :
  let max_tuning_duration := GetMaxTuningDurationMs (ctx env) in
  (dlt dzero max_tuning_duration = true ->
   duration_iters max_tuning_duration approx_duration <> None) ->
  exists tuning_iter,
    tuning_iterations env approx_duration pool_size = Some tuning_iter /\
    1 <= tuning_iter /\
    (0 <= pool_size <= INT_MAX -> pool_size <= tuning_iter).
Proof.
  intros max_tuning_duration Hdef. unfold tuning_iterations.
  fold max_tuning_duration.
  assert (Hclamp : forall t,
    1 <= Z.max (wrap_int pool_size) (Z.max 1 t) /\
    (0 <= pool_size <= INT_MAX ->
     pool_size <= Z.max (wrap_int pool_size) (Z.max 1 t))).
  { intros t. split; [lia |]. intros Hp.
    rewrite wrap_int_small by (unfold INT_MIN, INT_MAX in *; lia). lia. }
  destruct (dlt dzero max_tuning_duration).
  - destruct (duration_iters max_tuning_duration approx_duration) as [count |];
      [| by destruct (Hdef eq_refl)].
    destruct (0 <? GetMaxTuningIterations (ctx env)); eexists; (split; [done |]);
      apply Hclamp.
  - destruct (0 <? GetMaxTuningIterations (ctx env)); eexists; (split; [done |]);
      apply Hclamp.
Qed.









(** ** The theorems at work on the example worlds *)

(** The harness on the first candidate of the example, three rounds over
    a pool of one buffer. *)
Lemma harness_calls_asserted_witness :
  [2%nat] <> [] /\
  match WarmUp Example.env 0%nat [2%nat] 3 Example.w0 with
  | Ok _ w' => statuses (new_events Example.w0 w') = [OK; OK; OK]
  | _ => False
  end /\
  match Profile Example.env 0%nat [2%nat] 3 Example.w0 with
  | Ok _ w' => statuses (new_events Example.w0 w') = [OK; OK; OK]
  | _ => False
  end.
Proof.
  split; [done |].
  exact (harness_calls_asserted Example.env 0%nat [2%nat] 3 Example.w0
           ltac:(done)).
Defined.

(** The cached decision of the example names FastKernel: it is called,
    and nothing else happens. *)
Lemma cache_first_dispatch_witness :
  IsTunableOpEnabled (ctx Example.env) = true /\
  ResultEntry.eqb (mkResultEntry "FastKernel" (double_of_Z 2)) ResultEntry.Null
    = false /\
  ops_ Example.op !! "FastKernel"%string = Some 1%nat /\
  exists status w',
    operator_call Example.env Example.op 0%nat Example.w_cached = Ok status w' /\
    new_events Example.w_cached w' =
      [EvLookup "ExampleOp" "params" (mkResultEntry "FastKernel" (double_of_Z 2));
       EvCall 1%nat 0%nat status].
Proof.
  split; [reflexivity |]. split; [reflexivity |]. split; [reflexivity |].
  destruct (cache_first_dispatch Example.env Example.op 0%nat Example.w_cached
              (mkResultEntry "FastKernel" (double_of_Z 2)) 1%nat
              eq_refl eq_refl eq_refl eq_refl)
    as (status & w' & Hrun & Hev & _).
  exists status, w'. split; [exact Hrun | exact Hev].
Defined.

Lemma example_run_eq :
  FindFastest Example.env Example.op 0%nat Example.w0
  = Ok example_result example_world.
Proof. vm_compute. reflexivity. Defined.

(** In the example SlowKernel is skipped by the early bail, and the
    winner is another candidate. *)
Lemma early_bail_is_final_witness :
  NoDup (op_names_ Example.op) /\
  op_names_ Example.op !! 2%nat = Some "SlowKernel"%string /\
  EvLog (LogSkipSlow 2) ∈ new_events Example.w0 example_world /\
  key_ example_result <> "SlowKernel"%string.
Proof.
  assert (Hnodup : NoDup (op_names_ Example.op)).
  { apply NoDup_ListNoDup. vm_compute.
    repeat (constructor; [simpl; intuition discriminate |]). constructor. }
  assert (Hskip : EvLog (LogSkipSlow 2) ∈ new_events Example.w0 example_world).
  { apply list_elem_of_In. vm_compute. tauto. }
  split; [exact Hnodup |]. split; [reflexivity |]. split; [exact Hskip |].
  exact (proj2 (early_bail_is_final Example.env Example.op 0%nat Example.w0
                  example_world example_result 2%nat "SlowKernel"%string
                  Hnodup example_run_eq eq_refl Hskip)).
Defined.

(** In the example Default, registered first, is timed. *)
Lemma default_takes_part_witness :
  FindFastest Example.env Example.op 0%nat Example.w0
    = Ok example_result example_world /\
  op_names_ Example.op !! 0%nat = Some "Default"%string /\
  exists op, ops_ Example.op !! "Default"%string = Some op /\
    (EvLog (LogUnsupported 0) ∈ new_events Example.w0 example_world \/
     EvLog (LogNumericsFailed 0) ∈ new_events Example.w0 example_world \/
     timed op (new_events Example.w0 example_world) = true).
Proof.
  split; [exact example_run_eq |]. split; [reflexivity |].
  exact (proj2 (default_takes_part Example.env Example.op 0%nat Example.w0
                  example_world example_result example_run_eq)
           0%nat eq_refl).
Defined.

(** A budget of 2^31 - 1 bytes over parameters of one byte: 2^31 copies. *)
Lemma pool_size_example :
  exists m pool w',
    make_pool Example.env_pool31 0%nat Example.w0 = Ok pool w' /\
    Z.of_nat (length pool) = 2 ^ 31 /\
    new_events Example.w0 w' = EvLog m :: map (EvDeepCopy 0%nat true) pool.
Proof.
  assert (HB : 0 <= GetRotatingBufferSize (ctx Example.env_pool31) <= SIZE_MAX)
    by (vm_compute; split; discriminate).
  assert (HS : 0 < GetSize Example.env_pool31 true <= SIZE_MAX)
    by (vm_compute; split; [reflexivity | discriminate]).
  assert (Hfit : GetRotatingBufferSize (ctx Example.env_pool31)
                 / GetSize Example.env_pool31 true + 1 <= SIZE_MAX)
    by (vm_compute; discriminate).
  exact (pool_size Example.env_pool31 0%nat Example.w0 HB HS Hfit).
Defined.

(** A pool of 3 buffers and the knob at 10 iterations. *)
Lemma tuning_iterations_floor_example :
  dlt dzero (GetMaxTuningDurationMs (ctx Example.env)) = false /\
  0 <= 3 <= INT_MAX /\
  exists tuning_iter,
    tuning_iterations Example.env (double_of_Z 2) 3 = Some tuning_iter /\
    1 <= tuning_iter /\ 3 <= tuning_iter.
Proof.
  assert (Hp : 0 <= 3 <= INT_MAX) by (vm_compute; split; discriminate).
  split; [reflexivity |]. split; [exact Hp |].
  destruct (tuning_iterations_floor Example.env (double_of_Z 2) 3)
    as (tuning_iter & Hrun & H1 & H2).
  { simpl. discriminate. }
  exists tuning_iter. split; [exact Hrun |]. split; [exact H1 | exact (H2 Hp)].
Defined.


(** * More on the code *)

(** ** The registry *)

Lemma register_all_names (regs : list (string * Callable)) (self : TunableOp) :
  op_names_ (register_all regs self) = op_names_ self ++ map fst regs.
Proof.
  revert self. induction regs as [| [name op] regs IH]; intros self; simpl.
  - by rewrite app_nil_r.
  - rewrite IH. simpl. by rewrite <- app_assoc.
Qed.

Lemma register_all_ops (regs : list (string * Callable)) (self : TunableOp)
    (name : string) :
  ops_ (register_all regs self) !! name =
  match ops_ self !! name with
  | Some op => Some op
  | None => first_registered name regs
  end.
Proof.
  revert self. induction regs as [| [n op] regs IH]; intros self; simpl.
  - by destruct (ops_ self !! name).
  - rewrite IH. simpl. destruct (ops_ self !! n) as [op' |] eqn:En.
    + destruct (ops_ self !! name) as [op'' |] eqn:Ename; [done |].
      case_bool_decide as Hn; [| done]. subst. congruence.
    + case_bool_decide as Hn.
      * subst. by rewrite lookup_insert_eq, En.
      * by rewrite lookup_insert_ne.
Qed.

(** X1.  A facade built by a sequence of [RegisterOp] calls lists the
    names in the order of the calls, repeats included, and maps each name
    to the implementation of the first call that registered it: a later
    registration under a taken name adds the name again and changes no
    implementation. *)
Theorem registry_contents (regs : list (string * Callable)) (name : string) :
  op_names_ (register_all regs empty_op) = map fst regs /\
  ops_ (register_all regs empty_op) !! name = first_registered name regs.
Proof.
  split.
  - by rewrite register_all_names.
  - rewrite register_all_ops. simpl. by rewrite lookup_empty.
Qed.

Lemma first_registered_is_Some (name : string) (regs : list (string * Callable)) :
  is_Some (first_registered name regs) <-> name ∈ map fst regs.
Proof.
  induction regs as [| [n op] regs IH]; simpl.
  - split; [by intros [? ?] | by intros ?%elem_of_nil].
  - rewrite elem_of_cons. case_bool_decide as Hn.
    + subst. split; [by left | eauto].
    + rewrite IH. split; [by right | by intros [-> |]].
Qed.

(** X2.  In a facade built by [RegisterOp] calls, the names of
    [op_names_] are exactly the keys of [ops_]: every name the selector
    visits has an implementation, and every implementation is visited. *)
Theorem registry_names_are_keys (regs : list (string * Callable)) (name : string) :
  name ∈ op_names_ (register_all regs empty_op) <->
  is_Some (ops_ (register_all regs empty_op) !! name).
Proof.
  rewrite register_all_names, register_all_ops. simpl. rewrite lookup_empty.
  symmetry. apply first_registered_is_Some.
Qed.

(** ** What a run leaves untouched *)

Section Keeps.

Context {A B : Type}.

Lemma keeps_ret (R : World -> World -> Prop) (a : A) :
  (forall w, R w w) -> keeps R (ret a).
Proof. intros Hrefl w o w' [= <- <-]. apply Hrefl. Qed.

Lemma keeps_undefined (R : World -> World -> Prop) : keeps R (@undefined A).
Proof. intros w o w' H. discriminate H. Qed.

Lemma keeps_bind (R : World -> World -> Prop) (m : M A) (k : A -> M B) :
  (forall w1 w2 w3, R w1 w2 -> R w2 w3 -> R w1 w3) ->
  keeps R m -> (forall a, keeps R (k a)) -> keeps R (bind m k).
Proof.
  intros Htrans Hm Hk w o w' H. unfold bind in H.
  destruct (m w) as [a w1 | w1 |] eqn:Em; [| | discriminate H].
  - eapply Htrans; [eapply Hm; by rewrite Em | eapply Hk; exact H].
  - injection H as <- <-. eapply Hm. by rewrite Em.
Qed.

End Keeps.

Lemma cache_kept_refl (w : World) : cache_kept w w.
Proof. by split. Qed.

Lemma cache_kept_trans (w1 w2 w3 : World) :
  cache_kept w1 w2 -> cache_kept w2 w3 -> cache_kept w1 w3.
Proof.
  intros [Hm1 Hs1] [Hm2 Hs2]. split; [congruence |]. intros s Hs. auto.
Qed.

(** Chains the frame rule through a computation made of the steps of the
    model. *)
Ltac keeps_steps :=
  repeat first
    [ solve [eauto]
    | match goal with
      | |- keeps _ (if ?b then _ else _) => destruct b
      | |- keeps _ (match ?x with _ => _ end) => destruct x
      | |- keeps _ (when ?b _) => destruct b; simpl
      | |- keeps _ (bind _ _) =>
          apply keeps_bind; [exact cache_kept_trans | | intros ?]
      | |- keeps _ (ret _) => apply keeps_ret; exact cache_kept_refl
      | |- keeps _ undefined => apply keeps_undefined
      end ].


Section CacheKept.

Context (env : Env) (self : TunableOp).

Lemma keeps_emit e : keeps cache_kept (emit e).
Proof. intros w o w' [= <- <-]. by split. Qed.

Lemma keeps_TORCH_CHECK b : keeps cache_kept (TORCH_CHECK b).
Proof. intros w o w' H. unfold TORCH_CHECK in H. destruct b; injection H as <- <-; by split. Qed.

Lemma keeps_Call op p : keeps cache_kept (Call env op p).
Proof. intros w o w' [= <- <-]. by split. Qed.

Lemma keeps_DeepCopy params rot : keeps cache_kept (DeepCopy params rot).
Proof. intros w o w' [= <- <-]. by split. Qed.

Lemma keeps_NumericalCheck r p : keeps cache_kept (NumericalCheck env r p).
Proof. intros w o w' [= <- <-]. by split. Qed.

Lemma keeps_Signature : keeps cache_kept (Signature env).
Proof.
  intros w o w' H. unfold Signature in H.
  destruct (signature_ w) eqn:E; injection H as <- <-; split; simpl; congruence.
Qed.

#[local] Hint Resolve keeps_emit keeps_TORCH_CHECK keeps_Call keeps_DeepCopy
  keeps_NumericalCheck keeps_Signature : core.

Lemma keeps_harness_loop op param n i :
  keeps cache_kept (harness_loop env op param n i).
Proof.
  revert i. induction n as [| n IH]; intros i; simpl; [keeps_steps |].
  unfold param_at, flush_icache. keeps_steps.
Qed.

Lemma keeps_WarmUp op param n : keeps cache_kept (WarmUp env op param n).
Proof. apply keeps_harness_loop. Qed.

Lemma keeps_Profile op param n : keeps cache_kept (Profile env op param n).
Proof.
  unfold Profile. pose proof keeps_harness_loop. keeps_steps.
  intros w o w' [= <- <-]. apply cache_kept_refl.
Qed.

Lemma keeps_gate i candidate params reference_params reusable_params :
  keeps cache_kept (gate env i candidate params reference_params reusable_params).
Proof. unfold gate, TUNABLE_LOG, Delete. keeps_steps. Qed.

Lemma keeps_loop_body params reference_params reusable_params i name st :
  keeps cache_kept
    (loop_body env self params reference_params reusable_params i name st).
Proof.
  pose proof keeps_gate. pose proof keeps_Profile. pose proof keeps_WarmUp.
  unfold loop_body, ops_at, TUNABLE_LOG. cbv zeta. keeps_steps.
Qed.

Lemma keeps_candidates_loop params reference_params reusable_params names i st :
  keeps cache_kept
    (candidates_loop env self params reference_params reusable_params names i st).
Proof.
  revert i st. induction names as [| name rest IH]; intros i st; simpl.
  - keeps_steps.
  - pose proof keeps_loop_body. keeps_steps.
Qed.

Lemma keeps_make_copies params rot n : keeps cache_kept (make_copies params rot n).
Proof. induction n as [| n IH]; simpl; keeps_steps. Qed.

Lemma keeps_delete_all ps : keeps cache_kept (delete_all ps).
Proof. induction ps as [| p ps IH]; simpl; unfold Delete; keeps_steps. Qed.

Lemma keeps_flushes n : keeps cache_kept (repeatM n flush_icache).
Proof. induction n as [| n IH]; simpl; unfold flush_icache; keeps_steps. Qed.

Lemma keeps_make_pool params : keeps cache_kept (make_pool env params).
Proof.
  pose proof keeps_make_copies. unfold make_pool, TUNABLE_LOG. keeps_steps.
Qed.

Lemma keeps_FindFastest params : keeps cache_kept (FindFastest env self params).
Proof.
  pose proof keeps_candidates_loop. pose proof keeps_make_pool.
  pose proof keeps_delete_all. pose proof keeps_flushes.
  unfold FindFastest, ops_at, TUNABLE_LOG, Delete. keeps_steps.
Qed.

End CacheKept.

(** X3.  [FindFastest] never writes to the results cache, and a
    signature that was memoized before the run is still the memoized one
    after it, whether the run returns or ends with a fatal error. *)
Theorem FindFastest_keeps_cache (env : Env) (self : TunableOp) (params : ParamsPtr)
    (w w' : World) (o : option ResultEntry) :
  finish (FindFastest env self params w) = Some (o, w') ->
  mgr w' = mgr w /\
  forall s, signature_ w = Some s -> signature_ w' = Some s.
Proof. apply keeps_FindFastest. Qed.

(** In the example run the cache is empty before and after. *)
Lemma FindFastest_keeps_cache_witness :
  finish (FindFastest Example.env Example.op 0%nat Example.w0)
    = Some (Some example_result, example_world) /\
  mgr example_world = mgr Example.w0.
Proof.
  assert (Hfin : finish (FindFastest Example.env Example.op 0%nat Example.w0)
                 = Some (Some example_result, example_world)).
  { vm_compute. reflexivity. }
  split; [exact Hfin |].
  exact (proj1 (FindFastest_keeps_cache Example.env Example.op 0%nat Example.w0
                  example_world (Some example_result) Hfin)).
Defined.

(** ** The paths of [operator()] *)

Section Facade.

Context (env : Env) (self : TunableOp).

Lemma flushes_total (n : nat) (w : World) :
  exists w', repeatM n flush_icache w = Ok tt w'.
Proof.
  revert w. induction n as [| n IH]; intros w; simpl; [by eexists |].
  unfold bind, flush_icache, emit. apply IH.
Qed.

(** Without a candidate registered as Default the reference call goes
    through a null pointer. *)
Lemma FindFastest_without_default (params : ParamsPtr) (w : World) :
  ops_ self !! "Default"%string = None ->
  FindFastest env self params w = Undef.
Proof.
  intros Hnone. unfold FindFastest.
  unfold bind at 1. destruct (Signature env w) as [op_sig w1 | |] eqn:Es;
    [| unfold Signature in Es; by destruct (signature_ w)..].
  unfold bind at 1. unfold TUNABLE_LOG at 1, emit at 1.
  unfold bind at 1.
  assert (Hwhen : exists w2,
    when (0 <? IsICacheFlushEnabled (ctx env)) (TUNABLE_LOG LogICacheFlushEnabled)
      (world_emit (EvLog (LogFindingFastest op_sig (params_signature env params)
                            (length (op_names_ self)))) w1) = Ok tt w2).
  { unfold when. destruct (0 <? _); by eexists. }
  destruct Hwhen as [w2 ->].
  unfold bind at 1.
  destruct (flushes_total (Z.to_nat (IsICacheFlushEnabled (ctx env))) w2) as [w3 ->].
  unfold bind at 1. unfold DeepCopy at 1.
  unfold bind at 1. unfold ops_at at 1. simpl. by rewrite Hnone.
Qed.

(** The winner of a run that returns is Default or a registered name, and
    a candidate is registered under it. *)
Lemma FindFastest_winner (params : ParamsPtr) (w w' : World) (r : ResultEntry) :
  FindFastest env self params w = Ok r w' ->
  (key_ r = "Default"%string \/ key_ r ∈ op_names_ self) /\
  is_Some (ops_ self !! key_ r).
Proof.
  intros Hrun.
  assert (Hdef : is_Some (ops_ self !! "Default"%string)).
  { destruct (ops_ self !! "Default"%string) eqn:E; [by eexists |].
    by rewrite (FindFastest_without_default params w E) in Hrun. }
  destruct (post_FindFastest env self params w (Some r) w') as (evs & Ht & Hp & Hg);
    [by rewrite Hrun |].
  destruct Hp as (op_sig & params_sig & pre & l & _ & _ & Hl & Heq).
  destruct (loop_logs_final _ _ _ _ _ Hl) as [[Hseed _] | (j & d & _ & _ & Hj & _)].
  - simpl in Hseed. injection Hseed as _ Hk. rewrite Hk. split; [by left | done].
  - simpl in Hj. split.
    + right. by eapply list_elem_of_lookup_2.
    + destruct (Hg ltac:(done) _ _ Hj) as (op & Hop & _). by eexists.
Qed.

Lemma Signature_run (w : World) :
  Signature env w =
  Ok (op_signature env w)
     {| trace := trace w; next_ptr := next_ptr w; mgr := mgr w;
        signature_ := Some (op_signature env w) |}.
Proof.
  unfold Signature, op_signature. destruct w as [t n m [s |]]; reflexivity.
Qed.

(** [operator()] with the feature on, cut after the lookup. *)
Lemma operator_call_enabled (params : ParamsPtr) (w : World) :
  IsTunableOpEnabled (ctx env) = true ->
  operator_call env self params w =
  (let* result :=
     (if ResultEntry.eqb (cached env params w) ResultEntry.Null
         && IsTuningEnabled (ctx env)
      then let* result := FindFastest env self params in
           Add (op_signature env w) (params_signature env params) result >>
           ret result
      else ret (cached env params w)) in
   let* result :=
     (if ResultEntry.eqb result ResultEntry.Null
      then TUNABLE_LOG LogNoResult >> ret ResultEntry.Default
      else ret result) in
   dispatch env self result params) (looked_up env params w).
Proof.
  intros Hon. unfold operator_call. rewrite Hon.
  unfold bind at 1. unfold bind at 1. rewrite Signature_run.
  unfold bind at 1. unfold Lookup at 1. cbv beta zeta.
  reflexivity.
Qed.

Lemma dispatch_run (r : ResultEntry) (params : ParamsPtr) (w : World)
    (op : Callable) :
  ops_ self !! key_ r = Some op ->
  dispatch env self r params w =
  Ok (call_status env (trace w) op params)
     (world_emit (EvCall op params (call_status env (trace w) op params)) w).
Proof. intros Hop. unfold dispatch. rewrite Hop. reflexivity. Qed.

Lemma dispatch_missing (r : ResultEntry) (params : ParamsPtr) (w : World) :
  ops_ self !! key_ r = None -> dispatch env self r params w = Fatal w.
Proof. intros Hop. unfold dispatch. rewrite Hop. reflexivity. Qed.

Lemma new_events_looked_up (params : ParamsPtr) (w w' : World) (evs : list Event) :
  trace w' = trace (looked_up env params w) ++ evs ->
  new_events w w' =
  EvLookup (op_signature env w) (params_signature env params)
    (cached env params w) :: evs.
Proof.
  intros Ht. apply new_events_app. rewrite Ht. simpl. by rewrite <- app_assoc.
Qed.

(** X4.  With the feature on but tuning off, a lookup that answers Null
    (nothing cached) makes the call fall back to Default: the lookup, the
    message "no result, using default" and one call of the candidate
    registered as Default; [FindFastest] is not run and nothing is written
    to the cache. *)
Theorem miss_without_tuning_uses_default (params : ParamsPtr) (w : World)
    (op : Callable) :
  IsTunableOpEnabled (ctx env) = true ->
  IsTuningEnabled (ctx env) = false ->
  ResultEntry.eqb (cached env params w) ResultEntry.Null = true ->
  ops_ self !! "Default"%string = Some op ->
  exists status w',
    operator_call env self params w = Ok status w' /\
    new_events w w' =
      [EvLookup (op_signature env w) (params_signature env params)
         (cached env params w);
       EvLog LogNoResult;
       EvCall op params status] /\
    mgr w' = mgr w.
Proof.
  intros Hon Hoff Hmiss Hop. rewrite (operator_call_enabled params w Hon).
  rewrite Hmiss, Hoff. simpl.
  unfold bind at 1. unfold ret at 1. rewrite Hmiss.
  unfold bind at 1. unfold bind at 1. unfold TUNABLE_LOG, emit, ret.
  rewrite (dispatch_run ResultEntry.Default params _ op Hop).
  eexists _, _. split; [reflexivity |]. split; [| done].
  apply new_events_looked_up. simpl. by rewrite <- app_assoc.
Qed.

(** X5.  A cached decision that names no registered candidate is not
    recovered from: the call ends with a fatal error right after the
    lookup, without calling any candidate, without running [FindFastest]
    and without touching the cache. *)
Theorem stale_decision_is_fatal (params : ParamsPtr) (w : World) :
  IsTunableOpEnabled (ctx env) = true ->
  ResultEntry.eqb (cached env params w) ResultEntry.Null = false ->
  ops_ self !! key_ (cached env params w) = None ->
  exists w',
    operator_call env self params w = Fatal w' /\
    new_events w w' =
      [EvLookup (op_signature env w) (params_signature env params)
         (cached env params w)] /\
    mgr w' = mgr w.
Proof.
  intros Hon Hhit Hnone. rewrite (operator_call_enabled params w Hon).
  rewrite Hhit. simpl.
  unfold bind at 1. unfold ret at 1. rewrite Hhit.
  unfold bind at 1. unfold ret at 1.
  rewrite (dispatch_missing _ params _ Hnone).
  eexists. split; [reflexivity |]. split; [| done].
  apply new_events_looked_up. by rewrite app_nil_r.
Qed.

(** The decision a call with tuning ends up dispatching: the one
    [FindFastest] returned, or Default when that one compares equal to
    Null. *)
Lemma tuned_dispatch_run (params : ParamsPtr) (w w1 : World) (r : ResultEntry) :
  IsTunableOpEnabled (ctx env) = true ->
  IsTuningEnabled (ctx env) = true ->
  ResultEntry.eqb (cached env params w) ResultEntry.Null = true ->
  FindFastest env self params (looked_up env params w) = Ok r w1 ->
  exists op evs status w',
    ops_ self !! (if ResultEntry.eqb r ResultEntry.Null then "Default"%string
                  else key_ r) = Some op /\
    operator_call env self params w = Ok status w' /\
    mgr w' = <[(op_signature env w, params_signature env params) := r]> (mgr w) /\
    signature_ w' = Some (op_signature env w) /\
    new_events w w' = evs ++ [EvCall op params status] /\
    EvAdd (op_signature env w) (params_signature env params) r ∈ evs.
Proof.
  intros Hon Htune Hmiss Hrun.
  destruct (FindFastest_winner params _ _ _ Hrun) as [_ [opw Hopw]].
  assert (Hdef : is_Some (ops_ self !! "Default"%string)).
  { destruct (ops_ self !! "Default"%string) eqn:E; [by eexists |].
    by rewrite (FindFastest_without_default params _ E) in Hrun. }
  destruct Hdef as [opd Hopd].
  destruct (keeps_FindFastest env self params (looked_up env params w) (Some r) w1)
    as [Hmgr Hsig]; [by rewrite Hrun |].
  destruct (post_FindFastest env self params (looked_up env params w) (Some r) w1)
    as (ffevs & Ht & _); [by rewrite Hrun |].
  specialize (Hsig _ eq_refl). simpl in Hmgr.
  rewrite (operator_call_enabled params w Hon). rewrite Hmiss, Htune. simpl.
  unfold bind at 1. unfold bind at 1. rewrite Hrun.
  unfold bind at 1. unfold Add at 1. unfold ret at 1.
  destruct (ResultEntry.eqb r ResultEntry.Null) eqn:Enull.
  - unfold bind at 1. unfold bind at 1. unfold TUNABLE_LOG, emit, ret.
    rewrite (dispatch_run ResultEntry.Default params _ opd Hopd).
    exists opd,
      (EvLookup (op_signature env w) (params_signature env params)
         (cached env params w) ::
       ffevs ++ [EvAdd (op_signature env w) (params_signature env params) r;
                 EvLog LogNoResult]).
    eexists _, _. split; [done |]. split; [reflexivity |].
    unfold world_emit. cbn [mgr signature_ trace next_ptr]. rewrite Hmgr.
    split; [done |]. split; [done |]. split.
    + rewrite <- app_comm_cons. apply new_events_looked_up.
      rewrite Ht. by rewrite <- !app_assoc.
    + apply elem_of_cons. right. apply elem_of_app. right.
      apply elem_of_cons. by left.
  - unfold bind at 1. unfold ret at 1.
    rewrite (dispatch_run r params _ opw Hopw).
    exists opw,
      (EvLookup (op_signature env w) (params_signature env params)
         (cached env params w) ::
       ffevs ++ [EvAdd (op_signature env w) (params_signature env params) r]).
    eexists _, _. split; [done |]. split; [reflexivity |].
    unfold world_emit. cbn [mgr signature_ trace next_ptr]. rewrite Hmgr.
    split; [done |]. split; [done |]. split.
    + rewrite <- app_comm_cons. apply new_events_looked_up.
      rewrite Ht. by rewrite <- !app_assoc.
    + apply elem_of_cons. right. apply elem_of_app. right.
      apply elem_of_cons. by left.
Qed.

(** X6.  A call that finds nothing cached, with tuning on, runs
    [FindFastest] once, on the world right after the lookup.  If the call
    returns, the decision [FindFastest] returned is in the cache under the
    pair that was looked up, and the last thing the call did was to call
    the candidate registered under the name of that decision (under
    Default if the decision compares equal to Null): after a tuning that
    returned, the dispatch always finds its candidate.  If the call ends
    with a fatal error, the cache is as it was. *)
Theorem tuned_call (params : ParamsPtr) (w w' : World)
    (o : option TuningStatus) :
  IsTunableOpEnabled (ctx env) = true ->
  IsTuningEnabled (ctx env) = true ->
  ResultEntry.eqb (cached env params w) ResultEntry.Null = true ->
  finish (operator_call env self params w) = Some (o, w') ->
  match o with
  | Some status =>
      exists r w1 op evs,
        FindFastest env self params (looked_up env params w) = Ok r w1 /\
        ops_ self !! (if ResultEntry.eqb r ResultEntry.Null then "Default"%string
                      else key_ r) = Some op /\
        mgr w' = <[(op_signature env w, params_signature env params) := r]> (mgr w) /\
        new_events w w' = evs ++ [EvCall op params status] /\
        EvAdd (op_signature env w) (params_signature env params) r ∈ evs
  | None => mgr w' = mgr w
  end.
Proof.
  intros Hon Htune Hmiss Hfin.
  destruct (FindFastest env self params (looked_up env params w))
    as [r w1 | w1 |] eqn:Hrun.
  - destruct (tuned_dispatch_run params w w1 r Hon Htune Hmiss Hrun)
      as (op & evs & status & w2 & Hop & Hcall & Hmgr & _ & Hev & Hadd).
    rewrite Hcall in Hfin. injection Hfin as <- <-.
    by exists r, w1, op, evs.
  - rewrite (operator_call_enabled params w Hon), Hmiss, Htune in Hfin.
    simpl in Hfin. unfold bind at 1 in Hfin. unfold bind at 1 in Hfin.
    rewrite Hrun in Hfin. injection Hfin as <- <-.
    destruct (keeps_FindFastest env self params (looked_up env params w) None w1)
      as [Hmgr _]; [by rewrite Hrun |]. exact Hmgr.
  - rewrite (operator_call_enabled params w Hon), Hmiss, Htune in Hfin.
    simpl in Hfin. unfold bind at 1 in Hfin. unfold bind at 1 in Hfin.
    rewrite Hrun in Hfin. discriminate Hfin.
Qed.

(** X7.  Tuning happens once: after a call that tuned and returned, in a
    facade with no candidate named Null, the same call again finds the
    decision in the cache and does two things only, the lookup and one
    call of the winner; the cache stays as the first call left it. *)
Theorem tune_once (params : ParamsPtr) (w w' : World) (status : TuningStatus) :
  IsTunableOpEnabled (ctx env) = true ->
  IsTuningEnabled (ctx env) = true ->
  ResultEntry.eqb (cached env params w) ResultEntry.Null = true ->
  "Null"%string ∉ op_names_ self ->
  operator_call env self params w = Ok status w' ->
  exists r op status2 w2,
    cached env params w' = r /\
    ops_ self !! key_ r = Some op /\
    operator_call env self params w' = Ok status2 w2 /\
    new_events w' w2 =
      [EvLookup (op_signature env w) (params_signature env params) r;
       EvCall op params status2] /\
    mgr w2 = mgr w'.
Proof.
  intros Hon Htune Hmiss Hnull Hcall.
  destruct (FindFastest env self params (looked_up env params w))
    as [r w1 | w1 |] eqn:Hrun.
  2,3: rewrite (operator_call_enabled params w Hon), Hmiss, Htune in Hcall;
       simpl in Hcall; unfold bind at 1 in Hcall; unfold bind at 1 in Hcall;
       rewrite Hrun in Hcall; discriminate Hcall.
  destruct (tuned_dispatch_run params w w1 r Hon Htune Hmiss Hrun)
    as (op0 & evs & status0 & w0 & Hop0 & Hcall0 & Hmgr & Hsig & _).
  rewrite Hcall in Hcall0. injection Hcall0 as <- <-.
  destruct (FindFastest_winner params _ _ _ Hrun) as [Hname [op Hop]].
  assert (Hkey : key_ r <> "Null"%string).
  { destruct Hname as [Hk | Hk]; [by rewrite Hk |]. by intros Heq; rewrite Heq in Hk. }
  assert (Hsame : op_signature env w' = op_signature env w).
  { unfold op_signature at 1. by rewrite Hsig. }
  assert (Hcached : cached env params w' = r).
  { unfold cached. rewrite Hsame, Hmgr. by rewrite lookup_insert_eq. }
  assert (Hhit : ResultEntry.eqb (cached env params w') ResultEntry.Null = false).
  { rewrite Hcached. unfold ResultEntry.eqb. by apply bool_decide_eq_false. }
  exists r, op. rewrite (operator_call_enabled params w' Hon).
  rewrite Hhit. simpl.
  unfold bind at 1. unfold ret at 1. rewrite Hhit.
  unfold bind at 1. unfold ret at 1.
  rewrite Hcached in *. rewrite (dispatch_run r params _ op Hop).
  eexists _, _. split; [done |]. split; [done |]. split; [reflexivity |].
  split; [| done].
  rewrite <- Hsame, <- Hcached. apply new_events_looked_up. simpl.
  by rewrite <- app_assoc.
Qed.

End Facade.

(** ** The paths of [operator()] on the example worlds *)

Lemma example_call_eq :
  operator_call Example.env Example.op 0%nat Example.w0
  = Ok OK example_call_world.
Proof. vm_compute. reflexivity. Defined.

(** Nothing cached and tuning off: the example call goes to Default. *)
Lemma miss_without_tuning_uses_default_witness :
  IsTunableOpEnabled (ctx Scenario.env_no_tuning) = true /\
  IsTuningEnabled (ctx Scenario.env_no_tuning) = false /\
  ResultEntry.eqb (cached Scenario.env_no_tuning 0%nat Example.w0)
    ResultEntry.Null = true /\
  ops_ Example.op !! "Default"%string = Some 0%nat /\
  exists status w',
    operator_call Scenario.env_no_tuning Example.op 0%nat Example.w0
      = Ok status w' /\
    new_events Example.w0 w' =
      [EvLookup "ExampleOp" "params" ResultEntry.Null;
       EvLog LogNoResult;
       EvCall 0%nat 0%nat status].
Proof.
  split; [reflexivity |]. split; [reflexivity |]. split; [reflexivity |].
  split; [reflexivity |].
  destruct (miss_without_tuning_uses_default Scenario.env_no_tuning Example.op
              0%nat Example.w0 0%nat eq_refl eq_refl eq_refl eq_refl)
    as (status & w' & Hrun & Hev & _).
  exists status, w'. split; [exact Hrun | exact Hev].
Defined.

(** The cache names RetiredKernel, which the example operation does not
    register: the call is fatal. *)
Lemma stale_decision_is_fatal_witness :
  IsTunableOpEnabled (ctx Example.env) = true /\
  cached Example.env 0%nat Scenario.w_stale
    = mkResultEntry "RetiredKernel" (double_of_Z 1) /\
  ops_ Example.op !! "RetiredKernel"%string = None /\
  exists w',
    operator_call Example.env Example.op 0%nat Scenario.w_stale = Fatal w' /\
    mgr w' = mgr Scenario.w_stale.
Proof.
  split; [reflexivity |]. split; [reflexivity |]. split; [reflexivity |].
  destruct (stale_decision_is_fatal Example.env Example.op 0%nat Scenario.w_stale
              eq_refl eq_refl eq_refl)
    as (w' & Hrun & _ & Hmgr).
  exists w'. split; [exact Hrun | exact Hmgr].
Defined.

(** The first call of the example tunes: the decision is cached and the
    winner is called last. *)
Lemma tuned_call_witness :
  IsTunableOpEnabled (ctx Example.env) = true /\
  IsTuningEnabled (ctx Example.env) = true /\
  ResultEntry.eqb (cached Example.env 0%nat Example.w0) ResultEntry.Null = true /\
  finish (operator_call Example.env Example.op 0%nat Example.w0)
    = Some (Some OK, example_call_world) /\
  exists r op,
    ops_ Example.op !!
      (if ResultEntry.eqb r ResultEntry.Null then "Default"%string else key_ r)
      = Some op /\
    mgr example_call_world
      = <[("ExampleOp"%string, "params"%string) := r]> (mgr Example.w0).
Proof.
  assert (Hfin : finish (operator_call Example.env Example.op 0%nat Example.w0)
                 = Some (Some OK, example_call_world)).
  { vm_compute. reflexivity. }
  split; [reflexivity |]. split; [reflexivity |]. split; [reflexivity |].
  split; [exact Hfin |].
  destruct (tuned_call Example.env Example.op 0%nat Example.w0 example_call_world
              (Some OK) eq_refl eq_refl eq_refl Hfin)
    as (r & w1 & op & evs & _ & Hop & Hmgr & _).
  exists r, op. split; [exact Hop | exact Hmgr].
Defined.

(** The second call of the example finds the decision of the first. *)
Lemma tune_once_witness :
  IsTunableOpEnabled (ctx Example.env) = true /\
  IsTuningEnabled (ctx Example.env) = true /\
  ResultEntry.eqb (cached Example.env 0%nat Example.w0) ResultEntry.Null = true /\
  ("Null"%string ∉ op_names_ Example.op) /\
  operator_call Example.env Example.op 0%nat Example.w0
    = Ok OK example_call_world /\
  exists r op status2 w2,
    operator_call Example.env Example.op 0%nat example_call_world
      = Ok status2 w2 /\
    new_events example_call_world w2 =
      [EvLookup "ExampleOp" "params" r; EvCall op 0%nat status2].
Proof.
  assert (Hnull : "Null"%string ∉ op_names_ Example.op).
  { apply (bool_decide_unpack _). vm_compute. exact I. }
  split; [reflexivity |]. split; [reflexivity |]. split; [reflexivity |].
  split; [exact Hnull |]. split; [exact example_call_eq |].
  destruct (tune_once Example.env Example.op 0%nat Example.w0 example_call_world
              OK eq_refl eq_refl eq_refl Hnull example_call_eq)
    as (r & op & status2 & w2 & _ & _ & Hrun & Hev & _).
  exists r, op, status2, w2. split; [exact Hrun | exact Hev].
Defined.

(** ** What the messages of the loop add up to *)

Lemma improvements_app (l1 l2 : list LogMsg) :
  improvements (l1 ++ l2) = improvements l1 ++ improvements l2.
Proof.
  induction l1 as [| m l1 IH]; [done |]. destruct m; simpl; by rewrite ?IH.
Qed.

Lemma verdicts_app (l1 l2 : list LogMsg) :
  verdicts (l1 ++ l2) = verdicts l1 ++ verdicts l2.
Proof.
  induction l1 as [| m l1 IH]; [done |]. destruct m; simpl; by rewrite ?IH.
Qed.

Lemma improvements_setup (pre : list LogMsg) :
  Forall setup_log pre -> improvements pre = [].
Proof.
  induction 1 as [| m pre Hm _ IH]; [done |]. by destruct m.
Qed.

Lemma verdicts_setup (pre : list LogMsg) :
  Forall setup_log pre -> verdicts pre = [].
Proof.
  induction 1 as [| m pre Hm _ IH]; [done |]. by destruct m.
Qed.

(** The improvements of the loop: each below the best so far, and the
    state after the loop is the one of the last improvement. *)
Lemma loop_logs_improvements names i st st' l :
  loop_logs names i st (Some st') l ->
  descending (fst st) (map snd (improvements l)) /\
  match last (improvements l) with
  | None => st' = st
  | Some (j, d) =>
      fst st' = d /\ (i <= j)%nat /\ names !! (j - i)%nat = Some (snd st')
  end.
Proof.
  intros H. remember (Some st') as o eqn:Ho. revert st' Ho.
  induction H as [i st | name rest i st st1 o l1 l2 Hb Hl IH | ];
    intros st' Ho; [| | done].
  - injection Ho as <-. done.
  - specialize (IH st' Ho). destruct IH as [Hd Hlast].
    rewrite improvements_app.
    assert (Hcase : (improvements l1 = [] /\ st1 = st) \/
                    (exists d, improvements l1 = [(i, d)] /\ st1 = (d, name) /\
                               dlt d (fst st) = true)).
    { inversion Hb; subst; simpl; eauto. }
    destruct Hcase as [[-> ->] | (d & -> & -> & Hlt)]; simpl.
    + split; [exact Hd |].
      destruct (last (improvements l2)) as [[j d] |]; [| done].
      destruct Hlast as (Hf & Hle & Hn). split; [done |]. split; [lia |].
      replace (j - i)%nat with (S (j - S i)) by lia. exact Hn.
    + split; [done |].
      destruct (improvements l2) as [| x xs] eqn:E.
      * simpl in *. subst st'. split; [done |]. split; [lia |].
        by rewrite Nat.sub_diag.
      * rewrite last_cons. destruct (last (x :: xs)) as [[j d'] |] eqn:El.
        -- destruct Hlast as (Hf & Hle & Hn). split; [done |]. split; [lia |].
           replace (j - i)%nat with (S (j - S i)) by lia. exact Hn.
        -- by rewrite last_None in El.
Qed.

(** The verdicts of the loop: one for each candidate visited, in order;
    after a fatal error, for the candidates before the one where it
    struck, and for that one if it was past its first measurement. *)
Lemma loop_logs_verdicts names i st o l :
  loop_logs names i st o l ->
  match o with
  | Some _ => verdicts l = seq i (length names)
  | None => exists k, (k <= length names)%nat /\ verdicts l = seq i k
  end.
Proof.
  induction 1 as [i st | name rest i st st1 o l1 l2 Hb Hl IH
                  | name rest i st l1 Hb]; [done | |].
  - rewrite verdicts_app.
    assert (H1 : verdicts l1 = [i]) by (inversion Hb; subst; done).
    rewrite H1. destruct o as [st' |].
    + simpl. by rewrite IH.
    + destruct IH as (k & Hk & ->). exists (S k). split; [simpl; lia | done].
  - inversion Hb; subst.
    + exists 0%nat. split; [lia | done].
    + exists 1%nat. split; [simpl; lia | done].
Qed.

(** X8.  The result of a run that returns can be read off its messages.
    The "found better" messages carry strictly decreasing durations, the
    first one below infinity.  If there is none the result is Default with
    an infinite time; otherwise the result is the candidate and the
    duration of the last one. *)
Theorem result_is_last_improvement (env : Env) (self : TunableOp)
    (params : ParamsPtr) (w w' : World) (r : ResultEntry) :
  FindFastest env self params w = Ok r w' ->
  let found := improvements (logs_of (new_events w w')) in
  descending infinity (map snd found) /\
  match last found with
  | None => r = mkResultEntry "Default" infinity
  | Some (j, d) => time_ r = d /\ op_names_ self !! j = Some (key_ r)
  end.
Proof.
  intros Hrun found.
  pose proof (FindFastest_logs env self params w (Some r) w') as Hlogs.
  rewrite Hrun in Hlogs. specialize (Hlogs eq_refl).
  destruct Hlogs as (op_sig & params_sig & pre & l & Hpre & _ & Hl & Heq).
  assert (Hfound : found = improvements l).
  { unfold found. rewrite Heq, !improvements_app, (improvements_setup pre Hpre).
    simpl. by rewrite app_nil_r. }
  rewrite Hfound.
  destruct (loop_logs_improvements _ _ _ _ _ Hl) as [Hd Hlast].
  split; [exact Hd |].
  destruct (last (improvements l)) as [[j d] |].
  - destruct Hlast as (Hf & _ & Hn). rewrite Nat.sub_0_r in Hn. done.
  - destruct r as [k t]. simpl in Hlast. by injection Hlast as -> ->.
Qed.

(** X9.  Every candidate gets exactly one verdict, in the order of
    registration: the messages "unsupported", "numerics check failed",
    "skip slow" and "tuning using" of a run that returns name the indices
    0, 1, ..., n-1 once each, n being the number of registered names.  A
    run that ends with a fatal error got through an initial part of
    them. *)
Theorem one_verdict_each (env : Env) (self : TunableOp) (params : ParamsPtr)
    (w w' : World) (o : option ResultEntry) :
  finish (FindFastest env self params w) = Some (o, w') ->
  match o with
  | Some _ =>
      verdicts (logs_of (new_events w w')) = seq 0 (length (op_names_ self))
  | None =>
      exists k, (k <= length (op_names_ self))%nat /\
                verdicts (logs_of (new_events w w')) = seq 0 k
  end.
Proof.
  intros Hfin.
  destruct (FindFastest_logs env self params w o w' Hfin)
    as (op_sig & params_sig & pre & l & Hpre & _ & Hcase).
  destruct o as [r |].
  - destruct Hcase as [Hl ->].
    rewrite !verdicts_app, (verdicts_setup pre Hpre). simpl.
    rewrite app_nil_r. exact (loop_logs_verdicts _ _ _ _ _ Hl).
  - destruct Hcase as [[-> | Hl] ->];
      rewrite !verdicts_app, (verdicts_setup pre Hpre); simpl.
    + exists 0%nat. split; [lia | done].
    + exact (loop_logs_verdicts _ _ _ _ _ Hl).
Qed.

(** The example run, read off its messages. *)
Lemma result_is_last_improvement_witness :
  FindFastest Example.env Example.op 0%nat Example.w0
    = Ok example_result example_world /\
  time_ example_result = double_of_Z 2 /\
  op_names_ Example.op !! 1%nat = Some (key_ example_result).
Proof.
  split; [exact example_run_eq |].
  pose proof (result_is_last_improvement Example.env Example.op 0%nat Example.w0
                example_world example_result example_run_eq) as H.
  vm_compute in H. vm_compute. exact (proj2 H).
Defined.

Lemma one_verdict_each_witness :
  finish (FindFastest Example.env Example.op 0%nat Example.w0)
    = Some (Some example_result, example_world) /\
  verdicts (logs_of (new_events Example.w0 example_world)) = [0; 1; 2]%nat.
Proof.
  assert (Hfin : finish (FindFastest Example.env Example.op 0%nat Example.w0)
                 = Some (Some example_result, example_world)).
  { vm_compute. reflexivity. }
  split; [exact Hfin |].
  exact (one_verdict_each Example.env Example.op 0%nat Example.w0 example_world
           (Some example_result) Hfin).
Defined.

(** ** The rounds of the harness *)

Lemma world_emit_eq (e : Event) (w : World) : world_emit e w = with_events w [e].
Proof. reflexivity. Qed.

Lemma with_events_nil (w : World) : with_events w [] = w.
Proof. destruct w. unfold with_events. simpl. by rewrite app_nil_r. Qed.

Lemma with_events_app (w : World) (e1 e2 : list Event) :
  with_events (with_events w e1) e2 = with_events w (e1 ++ e2).
Proof. unfold with_events. simpl. by rewrite app_assoc. Qed.

Lemma new_events_with_events (w : World) (evs : list Event) :
  new_events w (with_events w evs) = evs.
Proof. by apply new_events_app. Qed.

Lemma param_at_run (param : list ParamsPtr) (i : nat) (p : ParamsPtr) (w w' : World) :
  param_at param i w = Ok p w' ->
  w' = w /\ p = nth (i mod length param) param 0%nat /\ param <> [].
Proof.
  unfold param_at. destruct param as [| q qs]; [done |].
  destruct ((q :: qs) !! (i mod length (q :: qs))%nat) as [p' |] eqn:E; [| done].
  intros [= <- <-]. split; [done |]. split; [| done].
  symmetry. apply nth_lookup_Some with (d := 0%nat) in E. exact E.
Qed.

Section Harness.

Context (env : Env).

(** The harness loop, when it returns, has made exactly the rounds of
    [harness_trace] and changed nothing else. *)
Lemma harness_loop_run op param n i w w' :
  harness_loop env op param n i w = Ok tt w' ->
  w' = with_events w (harness_trace (do_flush env) op param n i).
Proof.
  revert i w. induction n as [| n IH]; intros i w; simpl.
  - intros [= <-]. by rewrite with_events_nil.
  - unfold bind at 1.
    assert (Hflush : when (do_flush env) flush_icache w
                     = Ok tt (with_events w (if do_flush env then [EvFlush] else []))).
    { destruct (do_flush env); simpl; [done |]. by rewrite with_events_nil. }
    rewrite Hflush. unfold bind at 1.
    destruct (param_at param i _) as [p w1 | |] eqn:Ep; [| done..].
    apply param_at_run in Ep as (-> & -> & _).
    unfold bind at 1. unfold Call at 1. cbv zeta.
    unfold bind at 1. unfold TORCH_CHECK at 1.
    destruct (call_status env _ op _) eqn:Est; simpl; [| done].
    intros Hrest. apply IH in Hrest as ->.
    rewrite !world_emit_eq, !with_events_app. reflexivity.
Qed.

Lemma WarmUp_run op param num_iter w w' :
  WarmUp env op param num_iter w = Ok tt w' ->
  w' = with_events w (harness_trace (do_flush env) op param (Z.to_nat num_iter) 0).
Proof. apply harness_loop_run. Qed.

Lemma Profile_run op param num_iter w d w' :
  Profile env op param num_iter w = Ok d w' ->
  w' = with_events w
         (EvTimerStart ::
          harness_trace (do_flush env) op param (Z.to_nat num_iter) 0 ++
          [EvTimerEnd]) /\
  d = ddiv (timer_duration env (trace w')) (double_of_Z num_iter).
Proof.
  unfold Profile. unfold bind at 1. unfold emit at 1.
  unfold bind at 1.
  destruct (harness_loop env op param _ 0 _) as [[] w1 | |] eqn:Eh; [| done..].
  apply harness_loop_run in Eh as ->.
  unfold bind at 1. unfold emit at 1. intros [= <- <-].
  split; [| done].
  by rewrite !world_emit_eq, !with_events_app.
Qed.

End Harness.

Lemma called_app (e1 e2 : list Event) : called (e1 ++ e2) = called e1 ++ called e2.
Proof. induction e1 as [| [] e1 IH]; simpl; by rewrite ?IH. Qed.

Lemma flushes_app (e1 e2 : list Event) : (flushes (e1 ++ e2) = flushes e1 + flushes e2)%nat.
Proof. induction e1 as [| [] e1 IH]; simpl; by rewrite ?IH. Qed.

Lemma called_harness_trace flush op param n i :
  called (harness_trace flush op param n i)
  = map (fun k => nth (k mod length param) param 0%nat) (seq i n).
Proof.
  revert i. induction n as [| n IH]; intros i; [done |].
  simpl. rewrite called_app. destruct flush; simpl; by rewrite IH.
Qed.

Lemma flushes_harness_trace flush op param n i :
  flushes (harness_trace flush op param n i) = if flush then n else 0%nat.
Proof.
  revert i. induction n as [| n IH]; intros i; simpl; [by destruct flush |].
  rewrite flushes_app. destruct flush; simpl; by rewrite IH.
Qed.

Lemma statuses_harness_trace flush op param n i :
  statuses (harness_trace flush op param n i) = repeat OK n.
Proof.
  revert i. induction n as [| n IH]; intros i; [done |].
  simpl. rewrite statuses_app. destruct flush; simpl; by rewrite IH.
Qed.

(** X10.  What [Profile] does when it returns is fixed by the pool and
    the number of rounds: the timer is started; round k is a flush of the
    instruction cache, if flushing is switched on, and one call of the
    candidate on the buffer k mod pool size, which answers OK; the timer
    is stopped.  The value is the reading taken after the stop, divided by
    the number of rounds.  The address counter, the cache and the
    signature are left alone. *)
Theorem profile_rounds (env : Env) (op : Callable) (param : list ParamsPtr)
    (num_iter : Z) (w w' : World) (d : double) :
  Profile env op param num_iter w = Ok d w' ->
  w' = with_events w
         (EvTimerStart ::
          harness_trace (do_flush env) op param (Z.to_nat num_iter) 0 ++
          [EvTimerEnd]) /\
  d = ddiv (timer_duration env (trace w')) (double_of_Z num_iter).
Proof. apply Profile_run. Qed.

(** X11.  The rounds of [WarmUp] go over the pool in turn, and nothing
    else happens: round k is a flush, if flushing is on, and a call on
    the buffer k mod pool size.  After at least as many rounds as the
    pool has buffers every buffer of the pool was used; and there were as
    many flushes as rounds if flushing is on, none otherwise. *)
Theorem rounds_cover_pool (env : Env) (op : Callable) (param : list ParamsPtr)
    (num_iter : Z) (w w' : World) (u : unit) :
  WarmUp env op param num_iter w = Ok u w' ->
  w' = with_events w
         (harness_trace (do_flush env) op param (Z.to_nat num_iter) 0) /\
  called (new_events w w')
    = map (fun k => nth (k mod length param) param 0%nat)
          (seq 0 (Z.to_nat num_iter)) /\
  flushes (new_events w w')
    = (if do_flush env then Z.to_nat num_iter else 0%nat) /\
  ((length param <= Z.to_nat num_iter)%nat ->
   forall p, p ∈ param -> p ∈ called (new_events w w')).
Proof.
  intros Hrun. destruct u. apply WarmUp_run in Hrun as ->.
  rewrite new_events_with_events, called_harness_trace, flushes_harness_trace.
  split; [done |]. split; [done |]. split; [done |].
  intros Hlen p Hp. apply list_elem_of_lookup_1 in Hp as [k Hk].
  pose proof (lookup_lt_Some _ _ _ Hk) as Hlt.
  apply list_elem_of_fmap. exists k. split.
  - rewrite Nat.mod_small by exact Hlt. symmetry.
    by apply nth_lookup_Some with (d := 0%nat) in Hk.
  - apply elem_of_seq. lia.
Qed.

(** Three rounds on the first candidate of the example, over a pool of
    two buffers. *)
Lemma profile_rounds_witness :
  exists d w',
    Profile Example.env 0%nat [2%nat; 3%nat] 3 Example.w0 = Ok d w' /\
    new_events Example.w0 w' =
      [EvTimerStart; EvCall 0%nat 2%nat OK; EvCall 0%nat 3%nat OK;
       EvCall 0%nat 2%nat OK; EvTimerEnd].
Proof.
  destruct (Profile Example.env 0%nat [2%nat; 3%nat] 3 Example.w0)
    as [d w' | |] eqn:E; [| vm_compute in E; discriminate E..].
  exists d, w'. split; [reflexivity |].
  rewrite (proj1 (profile_rounds Example.env 0%nat [2%nat; 3%nat] 3 Example.w0
                    w' d E)).
  apply new_events_with_events.
Defined.

Lemma rounds_cover_pool_witness :
  exists w',
    WarmUp Example.env 0%nat [2%nat; 3%nat] 3 Example.w0 = Ok tt w' /\
    called (new_events Example.w0 w') = [2; 3; 2]%nat /\
    (3%nat ∈ called (new_events Example.w0 w')).
Proof.
  destruct (WarmUp Example.env 0%nat [2%nat; 3%nat] 3 Example.w0)
    as [[] w' | |] eqn:E; [| vm_compute in E; discriminate E..].
  exists w'. split; [reflexivity |].
  destruct (rounds_cover_pool Example.env 0%nat [2%nat; 3%nat] 3 Example.w0 w'
              tt E) as (_ & Hcalled & _ & Hcover).
  split; [exact Hcalled |].
  apply Hcover; [vm_compute; lia |].
  apply list_elem_of_further, list_elem_of_here.
Defined.

(** ** Copies and their release *)

Lemma copies_app (e1 e2 : list Event) : copies (e1 ++ e2) = copies e1 ++ copies e2.
Proof. induction e1 as [| [] e1 IH]; simpl; by rewrite ?IH. Qed.

Lemma deletes_app (e1 e2 : list Event) : deletes (e1 ++ e2) = deletes e1 ++ deletes e2.
Proof. induction e1 as [| [] e1 IH]; simpl; by rewrite ?IH. Qed.

Lemma failed_app (e1 e2 : list Event) : failed (e1 ++ e2) = failed e1 ++ failed e2.
Proof.
  induction e1 as [| e e1 IH]; [done |].
  destruct e; simpl; repeat case_match; simpl; by rewrite ?IH.
Qed.

Lemma deleted_app (p : ParamsPtr) (e1 e2 : list Event) :
  deleted p (e1 ++ e2) = deleted p e1 || deleted p e2.
Proof.
  induction e1 as [| [] e1 IH]; simpl; rewrite ?IH; try done.
  by rewrite orb_assoc.
Qed.

Lemma deleted_deletes (p : ParamsPtr) (evs : list Event) :
  deleted p evs = true <-> p ∈ deletes evs.
Proof.
  induction evs as [| [] evs IH]; simpl; try exact IH.
  - split; [done | by intros ?%elem_of_nil].
  - rewrite orb_true_iff, Nat.eqb_eq, elem_of_cons, IH. done.
Qed.

Lemma not_deleted (p : ParamsPtr) (evs : list Event) :
  p ∉ deletes evs -> deleted p evs = false.
Proof.
  intros Hn. destruct (deleted p evs) eqn:E; [| done].
  by apply deleted_deletes in E.
Qed.

Lemma leaked_app (e1 e2 : list Event) :
  leaked (e1 ++ e2)
  = filter (fun p => deleted p e2 = false) (leaked e1) ++ leaked e2.
Proof.
  induction e1 as [| e e1 IH]; [done |].
  destruct e as [| src rot q | | | | | | | |]; simpl; try exact IH.
  rewrite deleted_app, IH. destruct (deleted q e1); simpl; [done |].
  rewrite filter_cons. destruct (deleted q e2); by case_decide.
Qed.

Lemma leaked_in_copies (p : ParamsPtr) (evs : list Event) :
  p ∈ leaked evs -> p ∈ copies evs.
Proof.
  induction evs as [| e evs IH]; [done |].
  destruct e; simpl; try exact IH.
  destruct (deleted _ evs); rewrite ?elem_of_cons; intuition.
Qed.

Lemma leaked_no_copies (evs : list Event) : copies evs = [] -> leaked evs = [].
Proof.
  intros Hc. destruct (leaked evs) as [| p l] eqn:E; [done |].
  assert (Hp : p ∈ copies evs).
  { apply leaked_in_copies. rewrite E. apply list_elem_of_here. }
  rewrite Hc in Hp. by apply elem_of_nil in Hp.
Qed.

Lemma filter_not_deleted (evs : list Event) (l : list ParamsPtr) :
  (forall p, p ∈ l -> p ∉ deletes evs) ->
  filter (fun p => deleted p evs = false) l = l.
Proof.
  induction l as [| p l IH]; intros H; [done |].
  rewrite filter_cons, decide_True.
  - f_equal. apply IH. intros q Hq. apply H. by apply list_elem_of_further.
  - apply not_deleted, H, list_elem_of_here.
Qed.

Lemma filter_all_deleted (evs : list Event) (l : list ParamsPtr) :
  (forall p, p ∈ l -> p ∈ deletes evs) ->
  filter (fun p => deleted p evs = false) l = [].
Proof.
  induction l as [| p l IH]; intros H; [done |].
  rewrite filter_cons, decide_False.
  - apply IH. intros q Hq. apply H. by apply list_elem_of_further.
  - assert (Hd : deleted p evs = true).
    { apply deleted_deletes, H, list_elem_of_here. }
    by rewrite Hd.
Qed.

(** Copies that nothing later deletes stay leaked. *)
Lemma leaked_app_apart (e1 e2 : list Event) :
  (forall p, p ∈ copies e1 -> p ∉ deletes e2) ->
  leaked (e1 ++ e2) = leaked e1 ++ leaked e2.
Proof.
  intros H. rewrite leaked_app, filter_not_deleted; [done |].
  intros p Hp. by apply H, leaked_in_copies.
Qed.

(** ** Computations that copy and delete nothing *)

Lemma quiet_ret {A} (a : A) : quiet (ret a).
Proof. intros w. exists []. by rewrite with_events_nil. Qed.

Lemma quiet_undefined {A} : quiet (@undefined A).
Proof. by intros w. Qed.

Lemma quiet_bind {A B} (m : M A) (k : A -> M B) :
  quiet m -> (forall a, quiet (k a)) -> quiet (bind m k).
Proof.
  intros Hm Hk w. unfold bind. specialize (Hm w).
  destruct (m w) as [a w1 | w1 |]; [| exact Hm | done].
  destruct Hm as (e1 & -> & Hc1 & Hd1 & Hf1).
  specialize (Hk a (with_events w e1)).
  destruct (k a (with_events w e1)) as [b w2 | w2 |]; [| | done].
  - destruct Hk as (e2 & -> & Hc2 & Hd2 & Hf2). exists (e1 ++ e2).
    by rewrite with_events_app, copies_app, deletes_app, failed_app,
      Hc1, Hc2, Hd1, Hd2, Hf1, Hf2.
  - destruct Hk as (e2 & -> & Hc2 & Hd2). exists (e1 ++ e2).
    by rewrite with_events_app, copies_app, deletes_app, Hc1, Hc2, Hd1, Hd2.
Qed.

Lemma quiet_emit (e : Event) :
  copies [e] = [] -> deletes [e] = [] -> failed [e] = [] -> quiet (emit e).
Proof. intros Hc Hd Hf w. by exists [e]. Qed.

Lemma quiet_TUNABLE_LOG (m : LogMsg) : quiet (TUNABLE_LOG m).
Proof. by apply quiet_emit. Qed.

Lemma quiet_flush_icache : quiet flush_icache.
Proof. by apply quiet_emit. Qed.

Lemma quiet_TORCH_CHECK (b : bool) : quiet (TORCH_CHECK b).
Proof. intros w. destruct b; exists []; by rewrite with_events_nil. Qed.

Lemma quiet_param_at (param : list ParamsPtr) (i : nat) : quiet (param_at param i).
Proof.
  unfold param_at. destruct param; [apply quiet_undefined |].
  destruct (_ !! _); [apply quiet_ret | apply quiet_undefined].
Qed.

Ltac quiet_steps :=
  repeat first
    [ solve [eauto]
    | match goal with
      | |- quiet (if ?b then _ else _) => destruct b
      | |- quiet (match ?x with _ => _ end) => destruct x
      | |- quiet (when ?b _) => destruct b; simpl
      | |- quiet (bind _ _) => apply quiet_bind; [| intros ?]
      | |- quiet (ret _) => apply quiet_ret
      | |- quiet undefined => apply quiet_undefined
      end ].

Section Quiet.

Context (env : Env).

(** A call whose status is asserted: it returns only after an OK. *)
Lemma quiet_checked_call {A} (op : Callable) (p : ParamsPtr) (k : M A) :
  quiet k ->
  quiet (let* status := Call env op p in TORCH_CHECK (status_ok status) >> k).
Proof.
  intros Hk w. unfold bind at 1. unfold Call. cbv zeta.
  destruct (call_status env (trace w) op p) eqn:Est; unfold bind; simpl.
  - specialize (Hk (world_emit (EvCall op p OK) w)).
    destruct (k _) as [a w2 | w2 |]; [| | done].
    + destruct Hk as (e2 & -> & Hc & Hd & Hf).
      exists (EvCall op p OK :: e2). by rewrite world_emit_eq, with_events_app.
    + destruct Hk as (e2 & -> & Hc & Hd).
      exists (EvCall op p OK :: e2). by rewrite world_emit_eq, with_events_app.
  - by exists [EvCall op p FAIL].
Qed.

#[local] Hint Resolve quiet_TUNABLE_LOG quiet_flush_icache quiet_TORCH_CHECK
  quiet_param_at : core.

Lemma quiet_harness_loop op param n i : quiet (harness_loop env op param n i).
Proof.
  revert i. induction n as [| n IH]; intros i; simpl; [apply quiet_ret |].
  apply quiet_bind; [quiet_steps |]. intros _.
  apply quiet_bind; [quiet_steps |]. intros p.
  apply quiet_checked_call, IH.
Qed.

Lemma quiet_WarmUp op param n : quiet (WarmUp env op param n).
Proof. apply quiet_harness_loop. Qed.

Lemma quiet_Profile op param n : quiet (Profile env op param n).
Proof.
  unfold Profile.
  apply quiet_bind; [by apply quiet_emit |]. intros _.
  apply quiet_bind; [apply quiet_harness_loop |]. intros _.
  apply quiet_bind; [by apply quiet_emit |]. intros _.
  intros w. exists []. by rewrite with_events_nil.
Qed.

End Quiet.

(** ** The copies of the candidate loop *)

Lemma allocates_refl (w : World) : allocates w [] w.
Proof. unfold allocates. simpl. rewrite app_nil_r. auto. Qed.

Lemma allocates_trans (w w1 w2 : World) (e1 e2 : list Event) :
  allocates w e1 w1 -> allocates w1 e2 w2 -> allocates w (e1 ++ e2) w2.
Proof.
  intros (Ht1 & Hn1 & Hc1 & Hd1) (Ht2 & Hn2 & Hc2 & Hd2).
  unfold allocates. rewrite copies_app, deletes_app, Ht2, Ht1, app_assoc.
  split; [done |]. split; [lia |]. split; apply Forall_app; split.
  - eapply Forall_impl; [exact Hc1 |]. simpl. lia.
  - eapply Forall_impl; [exact Hc2 |]. simpl. lia.
  - exact Hd1.
  - eapply Forall_impl; [exact Hd2 |]. simpl. lia.
Qed.

(** Events that copy and delete nothing, added to a stretch. *)
Lemma allocates_quiet (w w1 : World) (e1 e2 : list Event) :
  allocates w e1 w1 -> copies e2 = [] -> deletes e2 = [] ->
  allocates w (e1 ++ e2) (with_events w1 e2).
Proof.
  intros H1 Hc Hd. apply (allocates_trans _ w1); [exact H1 |].
  unfold allocates. simpl. rewrite Hc, Hd. auto.
Qed.

Lemma leaked_app_quiet (e1 e2 : list Event) :
  copies e2 = [] -> deletes e2 = [] -> leaked (e1 ++ e2) = leaked e1.
Proof.
  intros Hc Hd. rewrite leaked_app_apart.
  - by rewrite (leaked_no_copies e2 Hc), app_nil_r.
  - intros p _. rewrite Hd. apply not_elem_of_nil.
Qed.

Lemma loop_run_trans {A B} (numerics : bool) (w w1 w2 : World) (a : A)
    (o : option B) :
  loop_run numerics w (Some a) w1 -> loop_run numerics w1 o w2 ->
  loop_run numerics w o w2.
Proof.
  intros (e1 & Ha1 & Hl1) (e2 & Ha2 & Hl2). exists (e1 ++ e2).
  split; [by eapply allocates_trans |].
  intros Ho. specialize (Hl1 ltac:(done)). specialize (Hl2 Ho).
  rewrite leaked_app_apart, Hl1, Hl2.
  - destruct numerics; [by rewrite failed_app | done].
  - destruct Ha1 as (_ & _ & Hc1 & _). destruct Ha2 as (_ & _ & _ & Hd2).
    intros p Hp Hq.
    rewrite Forall_forall in Hc1. rewrite Forall_forall in Hd2.
    specialize (Hc1 p Hp). specialize (Hd2 p Hq). lia.
Qed.

(** The events of a run of the gate, once its calls are decided. *)
Ltac gate_events :=
  intros [= <- <-]; (split; [done |]); eexists;
  unfold allocates, world_emit; cbn [trace next_ptr];
  rewrite <- ?app_assoc;
  (split; [split; [reflexivity |] |]);
  simpl; rewrite ?Nat.eqb_refl; simpl;
  repeat match goal with
         | |- Forall _ [] => constructor
         | |- Forall _ (_ :: _) => constructor; [simpl; lia |]
         | |- _ /\ _ => split
         | |- _ => lia
         | |- _ => done
         end.

Section LoopCopies.

Context (env : Env) (self : TunableOp).

#[local] Hint Resolve quiet_TUNABLE_LOG quiet_WarmUp quiet_Profile : core.

(** The gate returns, and leaks its copy exactly when the candidate's
    call on it failed. *)
Lemma gate_run i candidate params reference_params reusable_params w o w' :
  finish (gate env i candidate params reference_params reusable_params w)
    = Some (o, w') ->
  o <> None /\
  exists evs, allocates w evs w' /\
    leaked evs = if IsNumericsCheckEnabled (ctx env) then failed evs else [].
Proof.
  unfold gate. destruct (IsNumericsCheckEnabled (ctx env)).
  - unfold bind at 1. unfold DeepCopy at 1. cbv zeta.
    unfold bind at 1. unfold Call at 1. cbv zeta. cbn [trace].
    destruct (call_status env _ candidate (next_ptr w)) eqn:Est; simpl.
    + unfold bind at 1. unfold NumericalCheck at 1. cbv zeta. cbn [trace].
      match goal with |- context [numerical_check env ?t ?r ?p] =>
        destruct (numerical_check env t r p) eqn:Enum end;
        simpl; gate_events.
    + gate_events.
  - destruct reusable_params as [| p0 rest]; [done |].
    unfold bind at 1. unfold ret at 1.
    unfold bind at 1. unfold Call at 1. cbv zeta.
    destruct (call_status env (trace w) candidate p0) eqn:Est; simpl;
      gate_events.
Qed.

Lemma loop_body_run params reference_params reusable_params i name st w o w' :
  finish (loop_body env self params reference_params reusable_params i name st w)
    = Some (o, w') ->
  loop_run (IsNumericsCheckEnabled (ctx env)) w o w'.
Proof.
  unfold loop_body. cbv zeta. unfold bind at 1. unfold ops_at.
  destruct (ops_ self !! name) as [candidate |]; [| done].
  unfold ret at 1. unfold bind at 1.
  destruct (gate env i candidate params reference_params reusable_params w)
    as [pass w1 | w1 |] eqn:Eg; [| | done].
  - destruct (gate_run i candidate params reference_params reusable_params w
                (Some pass) w1) as (_ & e1 & Ha & Hl); [by rewrite Eg |].
    destruct pass; simpl negb; cbv iota.
    + intros H.
      match type of H with
      | finish (?m _) = _ => assert (Hq : quiet m) by quiet_steps
      end.
      specialize (Hq w1). cbv beta in Hq.
      match type of H with
      | finish ?r = _ => destruct r as [st' w2 | w2 |]
      end; [| | done].
      * injection H as <- <-. destruct Hq as (e2 & -> & Hc & Hd & Hf).
        exists (e1 ++ e2). split; [by apply allocates_quiet |].
        intros _. rewrite leaked_app_quiet, Hl by done.
        destruct (IsNumericsCheckEnabled (ctx env)); [| done].
        by rewrite failed_app, Hf, app_nil_r.
      * injection H as <- <-. destruct Hq as (e2 & -> & Hc & Hd).
        exists (e1 ++ e2). split; [by apply allocates_quiet | done].
    + intros [= <- <-]. exists e1. split; [exact Ha | by intros _].
  - intros H. injection H as <- <-.
    by destruct (gate_run i candidate params reference_params reusable_params w
                   None w1) as (Hn & _); [by rewrite Eg |].
Qed.

Lemma candidates_loop_run params reference_params reusable_params names i st w o w' :
  finish (candidates_loop env self params reference_params reusable_params
            names i st w) = Some (o, w') ->
  loop_run (IsNumericsCheckEnabled (ctx env)) w o w'.
Proof.
  revert i st w. induction names as [| name rest IH]; intros i st w; simpl.
  - intros [= <- <-]. exists []. split; [apply allocates_refl |].
    intros _. by destruct (IsNumericsCheckEnabled (ctx env)).
  - unfold bind at 1.
    destruct (loop_body env self params reference_params reusable_params i name
                st w) as [st1 w1 | w1 |] eqn:Eb; [| | done].
    + intros H. apply IH in H.
      eapply loop_run_trans; [| exact H].
      apply (loop_body_run params reference_params reusable_params i name st).
      by rewrite Eb.
    + intros [= <- <-].
      apply (loop_body_run params reference_params reusable_params i name st).
      by rewrite Eb.
Qed.

End LoopCopies.

(** ** The anatomy of a run of [FindFastest] *)

Lemma flushes_run (n : nat) (w : World) :
  repeatM n flush_icache w = Ok tt (with_events w (repeat EvFlush n)).
Proof.
  revert w. induction n as [| n IH]; intros w; simpl.
  - by rewrite with_events_nil.
  - unfold bind, flush_icache, emit. rewrite IH, world_emit_eq, with_events_app.
    reflexivity.
Qed.

Lemma make_copies_run (params : ParamsPtr) (rot : bool) (n : nat) (w : World) :
  make_copies params rot n w =
  Ok (seq (next_ptr w) n)
     {| trace := trace w ++ map (EvDeepCopy params rot) (seq (next_ptr w) n);
        next_ptr := (next_ptr w + n)%nat; mgr := mgr w; signature_ := signature_ w |}.
Proof.
  revert w. induction n as [| n IH]; intros w; simpl.
  - unfold ret. f_equal. destruct w; simpl. f_equal; [by rewrite app_nil_r | lia].
  - unfold bind at 1. unfold DeepCopy at 1. cbv zeta.
    unfold bind at 1. rewrite IH. cbn [trace next_ptr mgr signature_].
    unfold ret. f_equal. f_equal; [by rewrite <- app_assoc | lia].
Qed.

Lemma delete_all_run (ps : list ParamsPtr) (w : World) :
  delete_all ps w = Ok tt (with_events w (map EvDelete ps)).
Proof.
  revert w. induction ps as [| p ps IH]; intros w; simpl.
  - by rewrite with_events_nil.
  - unfold bind, Delete, emit. rewrite IH, world_emit_eq, with_events_app.
    reflexivity.
Qed.

Lemma make_pool_run (env : Env) (params : ParamsPtr) (w : World) :
  make_pool env params w = Undef \/
  exists m n,
    setup_log m /\
    make_pool env params w =
    Ok (seq (next_ptr w) n)
       {| trace := trace w ++ EvLog m ::
                     map (EvDeepCopy params (0 <? GetRotatingBufferSize (ctx env)))
                         (seq (next_ptr w) n);
          next_ptr := (next_ptr w + n)%nat; mgr := mgr w; signature_ := signature_ w |}.
Proof.
  unfold make_pool. cbv zeta.
  destruct (param_count _ _) as [count |]; [| by left]. right.
  destruct (0 <? GetRotatingBufferSize (ctx env)) eqn:Erot.
  - eexists _, (Z.to_nat count). split; [| unfold bind, TUNABLE_LOG, emit;
      rewrite make_copies_run; cbn [trace next_ptr mgr signature_ world_emit];
      by rewrite <- app_assoc]. done.
  - eexists _, (Z.to_nat count). split; [| unfold bind, TUNABLE_LOG, emit;
      rewrite make_copies_run; cbn [trace next_ptr mgr signature_ world_emit];
      by rewrite <- app_assoc]. done.
Qed.

Section Anatomy.

Context (env : Env) (self : TunableOp).

(** A run of [FindFastest], cut into its parts: the setup, the reference
    call, the pool, the events of the loop, the release of the pool and
    of the reference, the last message. *)
Lemma FindFastest_anatomy (params : ParamsPtr) (w : World)
    (o : option ResultEntry) (w' : World) :
  finish (FindFastest env self params w) = Some (o, w') ->
  exists d, ops_ self !! "Default"%string = Some d /\
    ((o = None /\
      new_events w w'
      = setup_events env self params w ++ [EvCall d (next_ptr w) FAIL]) \/
     (exists m n loopevs,
        setup_log m /\
        Forall (fun p => (S (next_ptr w) + n <= p)%nat) (copies loopevs) /\
        Forall (fun p => (S (next_ptr w) + n <= p)%nat) (deletes loopevs) /\
        (exists w3 w4,
           next_ptr w3 = (S (next_ptr w) + n)%nat /\
           finish (candidates_loop env self params (next_ptr w)
                     (seq (S (next_ptr w)) n) (op_names_ self) 0 seed w3)
           = Some (option_map (fun r => (time_ r, key_ r)) o, w4) /\
           new_events w3 w4 = loopevs) /\
        match o with
        | Some r =>
            leaked loopevs
            = (if IsNumericsCheckEnabled (ctx env) then failed loopevs else []) /\
            (exists w3 w4,
               candidates_loop env self params (next_ptr w)
                 (seq (S (next_ptr w)) n) (op_names_ self) 0 seed w3
               = Ok (time_ r, key_ r) w4 /\
               new_events w3 w4 = loopevs) /\
            new_events w w' =
              setup_events env self params w ++
              [EvCall d (next_ptr w) OK; EvLog m] ++
              map (EvDeepCopy params (0 <? GetRotatingBufferSize (ctx env)))
                  (seq (S (next_ptr w)) n) ++
              loopevs ++ map EvDelete (seq (S (next_ptr w)) n) ++
              [EvDelete (next_ptr w); EvLog (LogFoundFastest (key_ r))]
        | None =>
            new_events w w' =
              setup_events env self params w ++
              [EvCall d (next_ptr w) OK; EvLog m] ++
              map (EvDeepCopy params (0 <? GetRotatingBufferSize (ctx env)))
                  (seq (S (next_ptr w)) n) ++
              loopevs
        end)).
Proof.
  unfold FindFastest.
  unfold bind at 1. rewrite Signature_run.
  unfold bind at 1. unfold TUNABLE_LOG at 1, emit at 1.
  unfold bind at 1.
  assert (Hwhen : forall w0,
    when (0 <? IsICacheFlushEnabled (ctx env)) (TUNABLE_LOG LogICacheFlushEnabled) w0
    = Ok tt (with_events w0 (if 0 <? IsICacheFlushEnabled (ctx env)
                             then [EvLog LogICacheFlushEnabled] else []))).
  { intros w0. destruct (0 <? _); simpl; [done |]. by rewrite with_events_nil. }
  rewrite Hwhen. unfold bind at 1. rewrite flushes_run.
  unfold bind at 1. unfold DeepCopy at 1. cbv zeta.
  unfold bind at 1. unfold ops_at at 1.
  change (key_ ResultEntry.Default) with "Default"%string.
  destruct (ops_ self !! "Default"%string) as [d |]; [| done].
  unfold ret at 1. intros Hfin. exists d. split; [done |].
  revert Hfin.
  unfold bind at 1. unfold Call at 1. cbv zeta.
  cbn [trace next_ptr mgr signature_ with_events world_emit].
  match goal with
  | |- context [call_status env ?t d (next_ptr w)] =>
      assert (Htr : t = trace w ++ setup_events env self params w)
        by (unfold setup_events; rewrite <- !app_assoc; reflexivity);
      rewrite !Htr; clear Htr
  end.
  destruct (call_status env (trace w ++ setup_events env self params w) d
              (next_ptr w)) eqn:Est.
  2:{ unfold bind at 1. simpl. intros [= <- <-]. left. split; [done |].
      apply new_events_app. simpl. by rewrite <- app_assoc. }
  unfold bind at 1. unfold TORCH_CHECK at 1. simpl status_ok. cbv iota.
  unfold bind at 1.
  match goal with
  | |- context [make_pool env params ?W] =>
      destruct (make_pool_run env params W) as [-> | (m & n & Hm & ->)]; [done |]
  end.
  cbn [trace next_ptr mgr signature_ with_events world_emit].
  unfold bind at 1.
  match goal with
  | |- context [candidates_loop env self params ?r ?pool ?names 0%nat seed ?W] =>
      pose proof (candidates_loop_run env self params r pool names 0%nat seed W)
        as Hloop;
      destruct (candidates_loop env self params r pool names 0%nat seed W)
        as [[min_duration_ms id_name] w4 | w4 |] eqn:Eloop; [| | done]
  end.
  - specialize (Hloop _ _ eq_refl).
    destruct Hloop as (loopevs & (Ht & Hn & Hc & Hd) & Hl).
    cbn [trace next_ptr] in Ht, Hn, Hc, Hd.
    unfold bind at 1. rewrite delete_all_run.
    unfold bind at 1. unfold Delete at 1, emit at 1.
    unfold bind at 1. unfold TUNABLE_LOG at 1, emit at 1. unfold ret at 1.
    intros [= <- <-]. right. exists m, n, loopevs.
    split; [done |]. split; [| split; [done |]].
    { eapply Forall_impl; [exact Hc |]. simpl. lia. }
    split.
    { match type of Eloop with
      | candidates_loop _ _ _ _ _ _ _ _ ?W = _ => exists W, w4
      end.
      split; [reflexivity |].
      split; [by rewrite Eloop | by apply new_events_app]. }
    split; [by apply Hl |]. split.
    { eexists _, w4. split; [exact Eloop |]. by apply new_events_app. }
    apply new_events_app. cbn [trace with_events world_emit]. rewrite Ht.
    rewrite <- !app_assoc. reflexivity.
  - specialize (Hloop _ _ eq_refl).
    destruct Hloop as (loopevs & (Ht & Hn & Hc & Hd) & _).
    cbn [trace next_ptr] in Ht, Hn, Hc, Hd.
    intros [= <- <-]. right. exists m, n, loopevs.
    split; [done |]. split; [| split; [done |]].
    { eapply Forall_impl; [exact Hc |]. simpl. lia. }
    split.
    { match type of Eloop with
      | candidates_loop _ _ _ _ _ _ _ _ ?W = _ => exists W, w4
      end.
      split; [reflexivity |].
      split; [by rewrite Eloop | by apply new_events_app]. }
    apply new_events_app. rewrite Ht.
    rewrite <- !app_assoc. reflexivity.
Qed.

End Anatomy.

(** ** What a run leaks *)

Lemma copies_deep_copies params rot ps : copies (map (EvDeepCopy params rot) ps) = ps.
Proof. induction ps as [| p ps IH]; simpl; by rewrite ?IH. Qed.

Lemma deletes_deep_copies params rot ps : deletes (map (EvDeepCopy params rot) ps) = [].
Proof. induction ps as [| p ps IH]; simpl; by rewrite ?IH. Qed.

Lemma failed_deep_copies params rot ps : failed (map (EvDeepCopy params rot) ps) = [].
Proof. induction ps as [| p ps IH]; simpl; by rewrite ?IH. Qed.

Lemma copies_deletes ps : copies (map EvDelete ps) = [].
Proof. induction ps as [| p ps IH]; simpl; by rewrite ?IH. Qed.

Lemma deletes_deletes ps : deletes (map EvDelete ps) = ps.
Proof. induction ps as [| p ps IH]; simpl; by rewrite ?IH. Qed.

Lemma failed_deletes ps : failed (map EvDelete ps) = [].
Proof. induction ps as [| p ps IH]; simpl; by rewrite ?IH. Qed.

Lemma copies_flushes n : copies (repeat EvFlush n) = [].
Proof. induction n as [| n IH]; simpl; by rewrite ?IH. Qed.

Lemma deletes_flushes n : deletes (repeat EvFlush n) = [].
Proof. induction n as [| n IH]; simpl; by rewrite ?IH. Qed.

Lemma failed_flushes n : failed (repeat EvFlush n) = [].
Proof. induction n as [| n IH]; simpl; by rewrite ?IH. Qed.

(** The setup ends with the copy of the reference, and copies nothing
    else. *)
Lemma setup_events_copy env self params w :
  exists pre,
    setup_events env self params w
    = pre ++ [EvDeepCopy params false (next_ptr w)] /\
    copies pre = [] /\ deletes pre = [] /\ failed pre = [].
Proof.
  unfold setup_events.
  exists (EvLog (LogFindingFastest (op_signature env w)
                   (params_signature env params) (length (op_names_ self))) ::
          (if 0 <? IsICacheFlushEnabled (ctx env)
           then [EvLog LogICacheFlushEnabled] else []) ++
          repeat EvFlush (Z.to_nat (IsICacheFlushEnabled (ctx env)))).
  split; [cbn [app]; by rewrite <- app_assoc |].
  simpl. rewrite copies_app, deletes_app, failed_app,
    copies_flushes, deletes_flushes, failed_flushes.
  by destruct (0 <? _).
Qed.

(** Leading events that copy nothing do not count. *)
Lemma leaked_skip (pre evs : list Event) :
  copies pre = [] -> leaked (pre ++ evs) = leaked evs.
Proof. intros Hc. by rewrite leaked_app, (leaked_no_copies pre Hc). Qed.

(** The leaks of a run that returned are those of its loop: the
    reference and the pool are released after it. *)
Lemma leaked_returned pre params rot ref d m n loopevs l :
  copies pre = [] ->
  Forall (fun p => (S ref + n <= p)%nat) (copies loopevs) ->
  leaked ((pre ++ [EvDeepCopy params false ref]) ++
          [EvCall d ref OK; EvLog m] ++
          map (EvDeepCopy params rot) (seq (S ref) n) ++
          loopevs ++ map EvDelete (seq (S ref) n) ++
          [EvDelete ref; EvLog l])
  = leaked loopevs.
Proof.
  intros Hpre Hc.
  rewrite <- app_assoc, (leaked_skip pre) by exact Hpre.
  rewrite leaked_app, filter_all_deleted.
  2:{ intros p Hp. apply leaked_in_copies in Hp. simpl in Hp.
      apply list_elem_of_singleton in Hp as ->.
      rewrite !deletes_app, deletes_deep_copies, deletes_deletes. simpl.
      rewrite !elem_of_app. right. right. apply elem_of_cons. by left. }
  simpl. rewrite leaked_app, filter_all_deleted.
  2:{ intros p Hp. apply leaked_in_copies in Hp.
      rewrite copies_deep_copies in Hp.
      rewrite !deletes_app, deletes_deletes, !elem_of_app. right. by left. }
  simpl. rewrite leaked_app_apart.
  - rewrite (leaked_no_copies (map EvDelete _ ++ _)), app_nil_r; [done |].
    by rewrite copies_app, copies_deletes.
  - intros p Hp. rewrite Forall_forall in Hc. specialize (Hc p Hp).
    rewrite deletes_app, deletes_deletes. simpl.
    rewrite elem_of_app, elem_of_seq, list_elem_of_singleton. lia.
Qed.

Lemma failed_returned pre params rot ref d m n loopevs l :
  failed pre = [] ->
  failed ((pre ++ [EvDeepCopy params false ref]) ++
          [EvCall d ref OK; EvLog m] ++
          map (EvDeepCopy params rot) (seq (S ref) n) ++
          loopevs ++ map EvDelete (seq (S ref) n) ++
          [EvDelete ref; EvLog l])
  = failed loopevs.
Proof.
  intros Hpre. rewrite !failed_app, Hpre, failed_deep_copies, failed_deletes.
  simpl. by rewrite app_nil_r.
Qed.

(** After a fatal error the reference is the first leak. *)
Lemma leaked_fatal pre params ref rest :
  copies pre = [] ->
  Forall (fun p => (S ref <= p)%nat) (deletes rest) ->
  leaked ((pre ++ [EvDeepCopy params false ref]) ++ rest)
  = ref :: leaked rest.
Proof.
  intros Hpre Hd. rewrite <- app_assoc, (leaked_skip pre) by exact Hpre.
  simpl. rewrite not_deleted; [done |].
  intros Hin. rewrite Forall_forall in Hd. specialize (Hd ref Hin). lia.
Qed.

(** [FindFastest] up to the reference call. *)
Lemma FindFastest_to_reference (env : Env) (self : TunableOp)
    (params : ParamsPtr) (w : World) (d : Callable) :
  ops_ self !! "Default"%string = Some d ->
  exists k : M ResultEntry,
    FindFastest env self params w =
    (let* status := Call env d (next_ptr w) in
     TORCH_CHECK (status_ok status) >> k)
      {| trace := trace w ++ setup_events env self params w;
         next_ptr := S (next_ptr w); mgr := mgr w;
         signature_ := Some (op_signature env w) |}.
Proof.
  intros Hd. unfold FindFastest.
  unfold bind at 1. rewrite Signature_run.
  unfold bind at 1. unfold TUNABLE_LOG at 1, emit at 1.
  unfold bind at 1.
  assert (Hwhen : forall w0,
    when (0 <? IsICacheFlushEnabled (ctx env)) (TUNABLE_LOG LogICacheFlushEnabled) w0
    = Ok tt (with_events w0 (if 0 <? IsICacheFlushEnabled (ctx env)
                             then [EvLog LogICacheFlushEnabled] else []))).
  { intros w0. destruct (0 <? _); simpl; [done |]. by rewrite with_events_nil. }
  rewrite Hwhen. unfold bind at 1. rewrite flushes_run.
  unfold bind at 1. unfold DeepCopy at 1. cbv zeta.
  unfold bind at 1. unfold ops_at at 1.
  change (key_ ResultEntry.Default) with "Default"%string. rewrite Hd.
  unfold ret at 1.
  cbn [trace next_ptr mgr signature_ with_events world_emit].
  eexists. 
  match goal with
  | |- _ ?W = _ =>
      match W with
      | context [?t ++ [EvDeepCopy params false (next_ptr w)]] =>
          replace (t ++ [EvDeepCopy params false (next_ptr w)])
            with (trace w ++ setup_events env self params w)
            by (unfold setup_events; cbn [app]; rewrite <- !app_assoc; reflexivity)
      end
  end.
  reflexivity.
Qed.

(** X12.  When the call of Default on the reference copy does not answer
    OK, [FindFastest] ends with a fatal error at once: after the
    announcement, the flushes and the copy of the reference there is that
    one call and nothing else.  No pool is built, no candidate is tried,
    and the reference copy is not released. *)
Theorem reference_failure_is_fatal (env : Env) (self : TunableOp)
    (params : ParamsPtr) (w : World) (d : Callable) :
  ops_ self !! "Default"%string = Some d ->
  call_status env (trace w ++ setup_events env self params w) d (next_ptr w)
    = FAIL ->
  exists w',
    FindFastest env self params w = Fatal w' /\
    new_events w w'
    = setup_events env self params w ++ [EvCall d (next_ptr w) FAIL] /\
    leaked (new_events w w') = [next_ptr w].
Proof.
  intros Hd Hfail.
  destruct (FindFastest_to_reference env self params w d Hd) as [k ->].
  unfold bind at 1. unfold Call at 1. cbv zeta. cbn [trace]. rewrite Hfail.
  unfold bind at 1. simpl. eexists. split; [reflexivity |].
  assert (Hev : new_events w
            (world_emit (EvCall d (next_ptr w) FAIL)
               {| trace := trace w ++ setup_events env self params w;
                  next_ptr := S (next_ptr w); mgr := mgr w;
                  signature_ := Some (op_signature env w) |})
          = setup_events env self params w ++ [EvCall d (next_ptr w) FAIL]).
  { apply new_events_app. simpl. by rewrite <- app_assoc. }
  rewrite Hev. split; [done |].
  destruct (setup_events_copy env self params w) as (pre & -> & Hc & _).
  rewrite leaked_fatal by (done || by repeat constructor). done.
Qed.

(** X13.  What a run of [FindFastest] that returns has leaked is known
    from its calls.  With the numerics check on, the copies never released
    are exactly the buffers of the calls that answered FAIL, in order:
    each candidate turned away as unsupported leaves its fresh copy
    behind, and every other copy (the reference, the pool, the copies of
    the other candidates) is released.  With the numerics check off
    nothing is leaked. *)
Theorem leaks_are_failed_gate_copies (env : Env) (self : TunableOp)
    (params : ParamsPtr) (w w' : World) (r : ResultEntry) :
  FindFastest env self params w = Ok r w' ->
  leaked (new_events w w')
  = if IsNumericsCheckEnabled (ctx env) then failed (new_events w w') else [].
Proof.
  intros Hrun.
  destruct (FindFastest_anatomy env self params w (Some r) w') as (d & _ & H);
    [by rewrite Hrun |].
  destruct H as [[H _] | (m & n & loopevs & _ & Hc & _ & _ & Hl & _ & ->)]; [done |].
  destruct (setup_events_copy env self params w) as (pre & -> & Hpc & _ & Hpf).
  rewrite leaked_returned, failed_returned by done. exact Hl.
Qed.

(** X14.  A fatal error skips the cleanup: when [FindFastest] ends with a
    failed check, the copy of the reference was made and is not released;
    it is the first of the leaked copies. *)
Theorem fatal_run_leaks_reference (env : Env) (self : TunableOp)
    (params : ParamsPtr) (w w' : World) :
  FindFastest env self params w = Fatal w' ->
  EvDeepCopy params false (next_ptr w) ∈ new_events w w' /\
  exists rest, leaked (new_events w w') = next_ptr w :: rest.
Proof.
  intros Hrun.
  destruct (FindFastest_anatomy env self params w None w') as (d & _ & H);
    [by rewrite Hrun |].
  destruct (setup_events_copy env self params w) as (pre & Hs & Hpc & _).
  destruct H as [[_ ->] | (m & n & loopevs & _ & _ & Hd & _ & ->)]; rewrite Hs.
  - split.
    + rewrite !elem_of_app. left. right. apply list_elem_of_here.
    + eexists. apply leaked_fatal; [done | by repeat constructor].
  - split.
    + rewrite !elem_of_app. left. right. apply list_elem_of_here.
    + eexists. apply leaked_fatal; [done |].
      simpl. rewrite deletes_app, deletes_deep_copies. simpl.
      eapply Forall_impl; [exact Hd |]. simpl. lia.
Qed.

(** X15.  The shape of a run of [FindFastest] that returns.  After the
    setup the candidate registered as Default is called on the copy of
    the reference and answers OK; one message on the rotating buffer is
    printed; the pool is filled with copies of the parameters, made one
    after the other; the loop over the candidates runs, and it neither
    makes nor releases any of these objects; then every buffer of the
    pool is released, in the order they were made, then the reference,
    and the name of the winner is printed last. *)
Theorem returning_run_shape (env : Env) (self : TunableOp)
    (params : ParamsPtr) (w w' : World) (r : ResultEntry) :
  FindFastest env self params w = Ok r w' ->
  exists d m n loopevs,
    ops_ self !! "Default"%string = Some d /\
    setup_log m /\
    Forall (fun p => (S (next_ptr w) + n <= p)%nat) (copies loopevs) /\
    Forall (fun p => (S (next_ptr w) + n <= p)%nat) (deletes loopevs) /\
    new_events w w' =
      setup_events env self params w ++
      [EvCall d (next_ptr w) OK; EvLog m] ++
      map (EvDeepCopy params (0 <? GetRotatingBufferSize (ctx env)))
          (seq (S (next_ptr w)) n) ++
      loopevs ++ map EvDelete (seq (S (next_ptr w)) n) ++
      [EvDelete (next_ptr w); EvLog (LogFoundFastest (key_ r))].
Proof.
  intros Hrun.
  destruct (FindFastest_anatomy env self params w (Some r) w') as (d & Hd & H);
    [by rewrite Hrun |].
  destruct H as [[H _] | (m & n & loopevs & Hm & Hc & Hdel & _ & _ & _ & Hev)]; [done |].
  by exists d, m, n, loopevs.
Qed.

(** ** The cache across a call *)

Section CacheFrame.

Context (env : Env) (self : TunableOp).

#[local] Hint Resolve keeps_emit keeps_TORCH_CHECK keeps_Call : core.

Lemma keeps_dispatch result params : keeps cache_kept (dispatch env self result params).
Proof. unfold dispatch. cbv zeta. keeps_steps. Qed.

Lemma keeps_fallback result params :
  keeps cache_kept
    (let* result :=
       (if ResultEntry.eqb result ResultEntry.Null
        then TUNABLE_LOG LogNoResult >> ret ResultEntry.Default
        else ret result) in
     dispatch env self result params).
Proof.
  pose proof keeps_dispatch. unfold TUNABLE_LOG. keeps_steps.
Qed.

End CacheFrame.

(** X16.  A call of [operator()] changes at most one entry of the results
    cache, the one of the pair it looked up; and it changes none when the
    feature or tuning is switched off, or when the lookup found a
    decision. *)
Theorem operator_call_cache_frame (env : Env) (self : TunableOp)
    (params : ParamsPtr) (w w' : World) (o : option TuningStatus) :
  finish (operator_call env self params w) = Some (o, w') ->
  (forall k, k <> (op_signature env w, params_signature env params) ->
     mgr w' !! k = mgr w !! k) /\
  (IsTunableOpEnabled (ctx env) && IsTuningEnabled (ctx env)
   && ResultEntry.eqb (cached env params w) ResultEntry.Null = false ->
   mgr w' = mgr w).
Proof.
  intros Hfin.
  assert (Hcases : mgr w' = mgr w \/
            (IsTunableOpEnabled (ctx env) && IsTuningEnabled (ctx env)
             && ResultEntry.eqb (cached env params w) ResultEntry.Null = true /\
             exists r, mgr w' = <[(op_signature env w,
                                   params_signature env params) := r]> (mgr w))).
  { destruct (IsTunableOpEnabled (ctx env)) eqn:Hon.
    - rewrite (operator_call_enabled env self params w Hon) in Hfin.
      destruct (ResultEntry.eqb (cached env params w) ResultEntry.Null) eqn:Hmiss;
        destruct (IsTuningEnabled (ctx env)) eqn:Htune; simpl in Hfin |- *.
      2-4: left; by destruct (keeps_fallback env self (cached env params w) params
                                (looked_up env params w) o w' Hfin).
      revert Hfin. unfold bind at 1. unfold bind at 1.
      destruct (FindFastest env self params (looked_up env params w))
        as [r w1 | w1 |] eqn:Hrun; [| | done].
      + destruct (keeps_FindFastest env self params (looked_up env params w)
                    (Some r) w1) as [Hmgr _]; [by rewrite Hrun |].
        unfold bind at 1. unfold Add at 1. unfold ret at 1. intros Hfin.
        apply (keeps_fallback env self r params) in Hfin as [Hm _].
        right. split; [done |]. exists r. rewrite Hm. simpl. by rewrite Hmgr.
      + intros [= <- <-]. left.
        by destruct (keeps_FindFastest env self params (looked_up env params w)
                       None w1) as [Hmgr _]; [by rewrite Hrun |].
    - left. revert Hfin. unfold operator_call. rewrite Hon.
      unfold bind at 1. unfold ret at 1. intros Hfin.
      by apply (keeps_fallback env self ResultEntry.Default params) in Hfin as [Hm _]. }
  destruct Hcases as [-> | [Hc (r & ->)]].
  - done.
  - split; [| by rewrite Hc]. intros k Hk. by rewrite lookup_insert_ne.
Qed.

(** ** The leaks of the example runs *)

(** With candidates that all fail, the reference call is fatal and the
    reference copy, object 1, stays behind. *)
Lemma reference_failure_is_fatal_witness :
  ops_ Example.op !! "Default"%string = Some 0%nat /\
  exists w',
    FindFastest Scenario.env_broken Example.op 0%nat Example.w0 = Fatal w' /\
    leaked (new_events Example.w0 w') = [1%nat].
Proof.
  split; [reflexivity |].
  destruct (reference_failure_is_fatal Scenario.env_broken Example.op 0%nat Example.w0
              0%nat eq_refl eq_refl) as (w' & Hrun & _ & Hl).
  exists w'. split; [exact Hrun | exact Hl].
Defined.

(** In the run where SlowKernel fails its gate, the leak is the copy made
    for that gate. *)
Lemma leaks_are_failed_gate_copies_witness :
  exists r w',
    FindFastest Example.env_failing Example.op 0%nat Example.w0 = Ok r w' /\
    leaked (new_events Example.w0 w') = failed (new_events Example.w0 w').
Proof.
  destruct (FindFastest Example.env_failing Example.op 0%nat Example.w0)
    as [r w' | |] eqn:E; [| vm_compute in E; discriminate E..].
  exists r, w'. split; [reflexivity |].
  exact (leaks_are_failed_gate_copies Example.env_failing Example.op 0%nat
           Example.w0 w' r E).
Defined.

(** The run with the flaky candidate ends with a fatal error: the
    reference copy, object 1, is leaked. *)
Lemma fatal_run_leaks_reference_witness :
  exists w',
    FindFastest Example.env_flaky Example.op 0%nat Example.w0 = Fatal w' /\
    exists rest, leaked (new_events Example.w0 w') = 1%nat :: rest.
Proof.
  destruct (FindFastest Example.env_flaky Example.op 0%nat Example.w0)
    as [| w' |] eqn:E; [vm_compute in E; discriminate E | | vm_compute in E; discriminate E].
  exists w'. split; [reflexivity |].
  exact (proj2 (fatal_run_leaks_reference Example.env_flaky Example.op 0%nat
                  Example.w0 w' E)).
Defined.

Lemma returning_run_shape_witness :
  FindFastest Example.env Example.op 0%nat Example.w0
    = Ok example_result example_world /\
  exists d m n loopevs,
    ops_ Example.op !! "Default"%string = Some d /\
    new_events Example.w0 example_world =
      setup_events Example.env Example.op 0%nat Example.w0 ++
      [EvCall d 1%nat OK; EvLog m] ++
      map (EvDeepCopy 0%nat false) (seq 2 n) ++
      loopevs ++ map EvDelete (seq 2 n) ++
      [EvDelete 1%nat; EvLog (LogFoundFastest (key_ example_result))].
Proof.
  split; [exact example_run_eq |].
  destruct (returning_run_shape Example.env Example.op 0%nat Example.w0
              example_world example_result example_run_eq)
    as (d & m & n & loopevs & Hd & _ & _ & _ & Hev).
  exists d, m, n, loopevs. split; [exact Hd | exact Hev].
Defined.

(** The first call of the example writes one entry. *)
Lemma operator_call_cache_frame_witness :
  finish (operator_call Example.env Example.op 0%nat Example.w0)
    = Some (Some OK, example_call_world) /\
  forall k, k <> ("ExampleOp"%string, "params"%string) ->
    mgr example_call_world !! k = mgr Example.w0 !! k.
Proof.
  assert (Hfin : finish (operator_call Example.env Example.op 0%nat Example.w0)
                 = Some (Some OK, example_call_world)).
  { vm_compute. reflexivity. }
  split; [exact Hfin |].
  exact (proj1 (operator_call_cache_frame Example.env Example.op 0%nat Example.w0
                  example_call_world (Some OK) Hfin)).
Defined.

(** ** A candidate that implements nothing *)

(** The message "unsupported" is the only one about its candidate. *)
Lemma loop_logs_unsupported_only names i st o l j m :
  loop_logs names i st o l -> LogUnsupported j ∈ l ->
  m ∈ l -> log_index m = Some j -> m = LogUnsupported j.
Proof.
  induction 1 as [i st | name rest i st st1 o l1 l2 Hb Hl IH | name rest i st l1 Hb];
    intros Hu Hm Hi.
  - by apply elem_of_nil in Hu.
  - apply elem_of_app in Hu as [Hu | Hu], Hm as [Hm | Hm].
    + inversion Hb; subst;
        repeat (apply elem_of_cons in Hu as [[=] | Hu]);
        try (by apply elem_of_nil in Hu).
      subst. by apply list_elem_of_singleton in Hm.
    + pose proof (body_outcome_index _ _ _ _ _ _ Hb Hu) as [= ->].
      destruct (loop_logs_index _ _ _ _ _ _ Hl Hm) as (k & Hk & Hr).
      rewrite Hi in Hk. injection Hk as <-. lia.
    + pose proof (body_outcome_index _ _ _ _ _ _ Hb Hm) as Hk.
      rewrite Hi in Hk. injection Hk as ->.
      destruct (loop_logs_index _ _ _ _ _ _ Hl Hu) as (k & [= <-] & Hr). lia.
    + by apply IH.
  - inversion Hb; subst; repeat (apply elem_of_cons in Hu as [[=] | Hu]);
      by apply elem_of_nil in Hu.
Qed.

Section Unimplemented.

Context (env : Env) (self : TunableOp).

(** The round of a candidate whose calls fail: it is turned away by the
    gate, and the state of the loop is kept. *)
Lemma loop_body_unimplemented params reference_params reusable_params i name st
    op w o w' :
  unimplemented env op -> ops_ self !! name = Some op ->
  finish (loop_body env self params reference_params reusable_params i name st w)
    = Some (o, w') ->
  o = Some st /\ EvLog (LogUnsupported i) ∈ new_events w w'.
Proof.
  intros Hfail Hop. unfold loop_body. cbv zeta.
  unfold bind at 1. unfold ops_at. rewrite Hop. unfold ret at 1.
  unfold bind at 1. unfold gate.
  destruct (IsNumericsCheckEnabled (ctx env)).
  - unfold bind at 1. unfold DeepCopy at 1. cbv zeta.
    unfold bind at 1. unfold Call at 1. cbv zeta. rewrite Hfail. simpl.
    intros [= <- <-]. split; [done |].
    unfold new_events. simpl. rewrite <- !app_assoc, drop_app_length.
    apply elem_of_cons. right. apply elem_of_cons. right. apply list_elem_of_here.
  - destruct reusable_params as [| p0 rest]; [done |].
    unfold bind at 1. unfold ret at 1.
    unfold bind at 1. unfold Call at 1. cbv zeta. rewrite Hfail. simpl.
    intros [= <- <-]. split; [done |].
    unfold new_events. simpl. rewrite <- !app_assoc, drop_app_length.
    apply elem_of_cons. right. apply list_elem_of_here.
Qed.

Lemma new_events_trans (w w1 w2 : World) (e1 e2 : list Event) :
  trace w1 = trace w ++ e1 -> trace w2 = trace w1 ++ e2 ->
  new_events w w2 = e1 ++ new_events w1 w2.
Proof.
  intros H1 H2. rewrite (new_events_app w1 w2 e2 H2).
  apply new_events_app. by rewrite H2, H1, app_assoc.
Qed.

Lemma candidates_loop_unimplemented params reference_params reusable_params
    names i st w st' w' k name op :
  unimplemented env op -> ops_ self !! name = Some op ->
  names !! k = Some name ->
  candidates_loop env self params reference_params reusable_params names i st w
    = Ok st' w' ->
  EvLog (LogUnsupported (i + k)) ∈ new_events w w'.
Proof.
  intros Hfail Hop. revert i st w k.
  induction names as [| n rest IH]; intros i st w k Hk; [done |].
  simpl. unfold bind at 1.
  destruct (loop_body env self params reference_params reusable_params i n st w)
    as [st1 w1 | w1 |] eqn:Eb; [| done..].
  intros Hrest.
  destruct (post_loop_body env self params reference_params reusable_params i n
              st w (Some st1) w1) as (e1 & Ht1 & _); [by rewrite Eb |].
  destruct (post_candidates_loop env self params reference_params reusable_params
              rest (S i) st1 w1 (Some st') w') as (e2 & Ht2 & _);
    [by rewrite Hrest |].
  rewrite (new_events_trans w w1 w' e1 e2 Ht1 Ht2).
  destruct k as [| k].
  - injection Hk as ->. rewrite Nat.add_0_r.
    destruct (loop_body_unimplemented params reference_params reusable_params i
                name st op w (Some st1) w1 Hfail Hop) as [_ Hin];
      [by rewrite Eb |].
    rewrite (new_events_app w w1 e1 Ht1) in Hin.
    apply elem_of_app. by left.
  - simpl in Hk. apply elem_of_app. right.
    replace (i + S k)%nat with (S i + k)%nat by lia.
    by apply (IH (S i) st1 w1 k).
Qed.

End Unimplemented.

(** X18.  A candidate that keeps [Callable]'s own [Call], which answers
    FAIL, takes no part in the tuning.  In a run of [FindFastest] that
    returns, such a candidate is reported as unsupported, and that is the
    only message about it: it is not measured, gets no early bail and is
    never printed as an improvement.  If the names are pairwise distinct it
    is not the winner. *)
Theorem unimplemented_candidate_is_unsupported (env : Env) (self : TunableOp)
    (params : ParamsPtr) (w w' : World) (r : ResultEntry) (i : nat)
    (name : string) (op : Callable) :
  unimplemented env op ->
  op_names_ self !! i = Some name ->
  ops_ self !! name = Some op ->
  FindFastest env self params w = Ok r w' ->
  EvLog (LogUnsupported i) ∈ new_events w w' /\
  (forall m, EvLog m ∈ new_events w w' -> log_index m = Some i ->
     m = LogUnsupported i) /\
  (NoDup (op_names_ self) -> key_ r <> name).
Proof.
  intros Hfail Hname Hop Hrun.
  assert (Hin : EvLog (LogUnsupported i) ∈ new_events w w').
  { destruct (FindFastest_anatomy env self params w (Some r) w') as (d & _ & H);
      [by rewrite Hrun |].
    destruct H as [[H _] | (m & n & loopevs & _ & _ & _ & _ & _ & (w3 & w4 & Hloop & Hev)
                            & ->)]; [done |].
    pose proof (candidates_loop_unimplemented env self params _ _ _ 0%nat _ _ _ _
                  i name op Hfail Hop Hname Hloop) as Hu.
    rewrite Hev in Hu. simpl in Hu.
    rewrite !elem_of_app. right. right. right. by left. }
  pose proof (FindFastest_logs env self params w (Some r) w') as Hlogs.
  rewrite Hrun in Hlogs. specialize (Hlogs eq_refl).
  destruct Hlogs as (op_sig & params_sig & pre & l & Hpre & _ & Hl & Heq).
  assert (Hloop : forall m, EvLog m ∈ new_events w w' -> log_index m <> None ->
                            m ∈ l).
  { intros m Hm Hi. apply elem_of_logs_of in Hm. rewrite Heq in Hm.
    apply elem_of_app in Hm as [Hm | Hm].
    - rewrite Forall_forall in Hpre. specialize (Hpre m Hm). by destruct m.
    - apply elem_of_app in Hm as [Hm | Hm]; [done |].
      apply list_elem_of_singleton in Hm as ->. done. }
  assert (Hul : LogUnsupported i ∈ l) by (by apply Hloop).
  assert (Honly : forall m, EvLog m ∈ new_events w w' -> log_index m = Some i ->
                            m = LogUnsupported i).
  { intros m Hm Hi.
    apply (loop_logs_unsupported_only _ _ _ _ _ _ _ Hl Hul); [| done].
    apply Hloop; [done | by rewrite Hi]. }
  split; [exact Hin |]. split; [exact Honly |].
  intros Hnodup Hkey.
  destruct (loop_logs_final _ _ _ _ _ Hl) as [[Hseed _] | (j & d & Hf & _ & Hj & _)].
  - injection Hseed as _ Hdef. rewrite Hkey in Hdef. rewrite Hdef in Hop.
    destruct (FindFastest_to_reference env self params w op Hop) as [k Hk].
    rewrite Hk in Hrun. unfold bind at 1 in Hrun. unfold Call at 1 in Hrun.
    cbv zeta in Hrun. rewrite Hfail in Hrun. done.
  - simpl in Hj. rewrite Nat.sub_0_r, Hkey in Hj.
    pose proof (NoDup_lookup _ _ _ _ Hnodup Hname Hj) as <-.
    assert (Hbad : LogFoundBetter i d = LogUnsupported i).
    { apply (loop_logs_unsupported_only _ _ _ _ _ _ _ Hl Hul); done. }
    done.
Qed.

(** SlowKernel, whose calls all fail in this world, is reported as
    unsupported and does not win. *)
Lemma unimplemented_candidate_is_unsupported_witness :
  unimplemented Example.env_failing 2%nat /\
  op_names_ Example.op !! 2%nat = Some "SlowKernel"%string /\
  ops_ Example.op !! "SlowKernel"%string = Some 2%nat /\
  NoDup (op_names_ Example.op) /\
  exists r w',
    FindFastest Example.env_failing Example.op 0%nat Example.w0 = Ok r w' /\
    EvLog (LogUnsupported 2) ∈ new_events Example.w0 w' /\
    key_ r <> "SlowKernel"%string.
Proof.
  assert (Hfail : unimplemented Example.env_failing 2%nat).
  { intros h p. reflexivity. }
  assert (Hnodup : NoDup (op_names_ Example.op)).
  { apply (bool_decide_unpack _). vm_compute. exact I. }
  split; [exact Hfail |]. split; [reflexivity |]. split; [reflexivity |].
  split; [exact Hnodup |].
  destruct (FindFastest Example.env_failing Example.op 0%nat Example.w0)
    as [r w' | |] eqn:E; [| vm_compute in E; discriminate E..].
  exists r, w'. split; [reflexivity |].
  destruct (unimplemented_candidate_is_unsupported Example.env_failing Example.op
              0%nat Example.w0 w' r 2%nat "SlowKernel"%string 2%nat
              Hfail eq_refl eq_refl E) as (Hin & _ & Hkey).
  split; [exact Hin | exact (Hkey Hnodup)].
Defined.

(** ** The reference copy is left alone *)

Lemma keeps_bind_ret {A B} (R : World -> World -> Prop) (a : A) (k : A -> M B) :
  keeps R (k a) -> keeps R (bind (ret a) k).
Proof. intros Hk w o w' H. exact (Hk w o w' H). Qed.

Ltac keeps_with Hrefl Htrans :=
  repeat first
    [ solve [eauto]
    | match goal with
      | |- keeps _ (if ?b then _ else _) => destruct b
      | |- keeps _ (match ?x with _ => _ end) => destruct x
      | |- keeps _ (when ?b _) => destruct b; simpl
      | |- keeps _ (bind (ret _) _) => apply keeps_bind_ret
      | |- keeps _ (bind _ _) => apply keeps_bind; [apply Htrans | | intros ?]
      | |- keeps _ (ret _) => apply keeps_ret; apply Hrefl
      | |- keeps _ undefined => apply keeps_undefined
      end ].

Section InLoop.

Context (env : Env) (self : TunableOp) (reference : ParamsPtr)
  (pool : list ParamsPtr) (lo : nat).

Lemma in_loop_refl (w : World) : in_loop self reference pool lo w w.
Proof. intros Hlo. split; [done |]. exists []. by rewrite app_nil_r. Qed.

Lemma in_loop_trans (w1 w2 w3 : World) : in_loop self reference pool lo w1 w2 -> in_loop self reference pool lo w2 w3 ->
  in_loop self reference pool lo w1 w3.
Proof.
  intros H1 H2 Hlo. destruct (H1 Hlo) as (Hlo2 & e1 & Ht1 & Hf1).
  destruct (H2 Hlo2) as (Hlo3 & e2 & Ht2 & Hf2). split; [done |].
  exists (e1 ++ e2). split; [by rewrite Ht2, Ht1, app_assoc |].
  by apply Forall_app.
Qed.

Lemma in_loop_emit (e : Event) :
  loop_event self reference pool lo e -> keeps (in_loop self reference pool lo) (emit e).
Proof.
  intros He w o w' [= <- <-] Hlo. split; [done |]. exists [e].
  split; [done |]. by constructor.
Qed.

Lemma in_loop_TUNABLE_LOG (m : LogMsg) : keeps (in_loop self reference pool lo) (TUNABLE_LOG m).
Proof. by apply in_loop_emit. Qed.

Lemma in_loop_TORCH_CHECK (b : bool) : keeps (in_loop self reference pool lo) (TORCH_CHECK b).
Proof.
  intros w o w' H. unfold TORCH_CHECK in H.
  destruct b; injection H as <- <-; apply in_loop_refl.
Qed.

Lemma in_loop_Call (c : Callable) (p : ParamsPtr) :
  (exists name, ops_ self !! name = Some c) -> p ∈ pool \/ (lo <= p)%nat ->
  keeps (in_loop self reference pool lo) (Call env c p).
Proof.
  intros Hc Hp w o w' [= <- <-] Hlo. split; [done |]. eexists [_].
  split; [reflexivity |]. by constructor.
Qed.

#[local] Hint Resolve in_loop_TUNABLE_LOG in_loop_TORCH_CHECK : core.

Lemma param_at_elem (param : list ParamsPtr) (i : nat) (p : ParamsPtr)
    (w w1 : World) :
  param_at param i w = Ok p w1 -> w1 = w /\ p ∈ param.
Proof.
  unfold param_at. destruct param as [| q qs]; [done |].
  destruct ((q :: qs) !! (i mod length (q :: qs))%nat) as [p' |] eqn:E; [| done].
  intros [= <- <-]. split; [done |]. by eapply list_elem_of_lookup_2.
Qed.

Lemma in_loop_harness_loop (c : Callable) (n i : nat) :
  (exists name, ops_ self !! name = Some c) ->
  keeps (in_loop self reference pool lo) (harness_loop env c pool n i).
Proof.
  intros Hc. revert i. induction n as [| n IH]; intros i; simpl.
  - apply keeps_ret, in_loop_refl.
  - apply keeps_bind; [apply in_loop_trans | |].
    { destruct (do_flush env); simpl;
        [by apply in_loop_emit | apply keeps_ret, in_loop_refl]. }
    intros _ w o w' H. unfold bind at 1 in H.
    destruct (param_at pool i w) as [p w1 | w1 |] eqn:Ep; [| | done].
    2:{ exfalso. unfold param_at in Ep. by repeat case_match. }
    apply param_at_elem in Ep as [-> Hp]. revert H.
    apply (keeps_bind (in_loop self reference pool lo)); [apply in_loop_trans | |].
    { apply in_loop_Call; [done | by left]. }
    intros status.
    apply keeps_bind; [apply in_loop_trans | apply in_loop_TORCH_CHECK |].
    intros _. apply IH.
Qed.

Lemma in_loop_WarmUp (c : Callable) (n : Z) :
  (exists name, ops_ self !! name = Some c) ->
  keeps (in_loop self reference pool lo) (WarmUp env c pool n).
Proof. apply in_loop_harness_loop. Qed.

Lemma in_loop_Profile (c : Callable) (n : Z) :
  (exists name, ops_ self !! name = Some c) ->
  keeps (in_loop self reference pool lo) (Profile env c pool n).
Proof.
  intros Hc. unfold Profile.
  apply keeps_bind; [apply in_loop_trans | by apply in_loop_emit |]. intros _.
  apply keeps_bind; [apply in_loop_trans | by apply in_loop_harness_loop |].
  intros _.
  apply keeps_bind; [apply in_loop_trans | by apply in_loop_emit |]. intros _.
  intros w o w' [= <- <-]. apply in_loop_refl.
Qed.

(** The gate calls the candidate on a fresh copy or on the first buffer of
    the pool, and checks a fresh copy against the reference. *)
Lemma in_loop_gate (i : nat) (c : Callable) (params : ParamsPtr) :
  (exists name, ops_ self !! name = Some c) ->
  keeps (in_loop self reference pool lo) (gate env i c params reference pool).
Proof.
  intros Hc w o w' H Hlo. revert H. unfold gate.
  destruct (IsNumericsCheckEnabled (ctx env)).
  - unfold bind at 1. unfold DeepCopy at 1. cbv zeta.
    unfold bind at 1. unfold Call at 1. cbv zeta. cbn [trace].
    destruct (call_status env _ c (next_ptr w)) eqn:Est; simpl.
    + unfold bind at 1. unfold NumericalCheck at 1. cbv zeta. cbn [trace].
      match goal with |- context [numerical_check env ?t ?r ?p] =>
        destruct (numerical_check env t r p) eqn:Enum end;
        simpl; intros [= <- <-]; (split; [simpl; lia |]); eexists;
        unfold world_emit; cbn [trace]; rewrite <- ?app_assoc;
        (split; [reflexivity |]); simpl;
        repeat (constructor; [simpl; auto with lia |]); constructor.
    + intros [= <- <-]. split; [simpl; lia |]. eexists.
      unfold world_emit; cbn [trace]; rewrite <- ?app_assoc.
      split; [reflexivity |]. simpl.
      repeat (constructor; [simpl; auto with lia |]); constructor.
  - destruct pool as [| p0 rest] eqn:Epool; [done |].
    unfold bind at 1. unfold ret at 1.
    unfold bind at 1. unfold Call at 1. cbv zeta.
    destruct (call_status env (trace w) c p0) eqn:Est; simpl;
      intros [= <- <-]; (split; [simpl; lia |]); eexists;
      unfold world_emit; cbn [trace]; rewrite <- ?app_assoc;
      (split; [reflexivity |]); simpl;
      repeat (constructor; [simpl; auto using list_elem_of_here with lia |]);
      constructor.
Qed.

#[local] Hint Resolve in_loop_WarmUp in_loop_Profile in_loop_gate : core.

Lemma in_loop_loop_body params i name st :
  keeps (in_loop self reference pool lo)
    (loop_body env self params reference pool i name st).
Proof.
  unfold loop_body, ops_at. cbv zeta.
  destruct (ops_ self !! name) as [c |] eqn:Ec.
  - assert (Hc : exists name, ops_ self !! name = Some c) by eauto.
    keeps_with in_loop_refl in_loop_trans.
  - intros w o w' H. discriminate H.
Qed.

Lemma in_loop_candidates_loop params names i st :
  keeps (in_loop self reference pool lo)
    (candidates_loop env self params reference pool names i st).
Proof.
  revert i st. induction names as [| name rest IH]; intros i st; simpl.
  - apply keeps_ret, in_loop_refl.
  - apply keeps_bind; [apply in_loop_trans | apply in_loop_loop_body | done].
Qed.

End InLoop.

(** X19.  The reference copy is left alone.  In a run of [FindFastest],
    however it ends, the first call is the one of Default on the copy of
    the reference, right after the setup.  After it no candidate is ever
    called on that copy: the calls go to registered candidates, on other
    objects.  Every numerics check compares another object against that
    copy, and no later copy takes its address. *)
Theorem reference_is_left_alone (env : Env) (self : TunableOp)
    (params : ParamsPtr) (w w' : World) (o : option ResultEntry) :
  finish (FindFastest env self params w) = Some (o, w') ->
  exists d st rest,
    ops_ self !! "Default"%string = Some d /\
    new_events w w'
    = setup_events env self params w ++ EvCall d (next_ptr w) st :: rest /\
    (forall c p s, EvCall c p s ∈ rest ->
       p <> next_ptr w /\ exists name, ops_ self !! name = Some c) /\
    (forall r p s, EvNumericalCheck r p s ∈ rest ->
       r = next_ptr w /\ p <> next_ptr w) /\
    (forall src rot p, EvDeepCopy src rot p ∈ rest -> p <> next_ptr w).
Proof.
  intros Hfin.
  destruct (FindFastest_anatomy env self params w o w' Hfin) as (d & Hd & H).
  exists d.
  destruct H as [[_ ->] | (m & n & loopevs & _ & _ & _ & (w3 & w4 & Hlo & Hloop & Hev)
                          & Hshape)].
  { exists FAIL, []. split; [done |]. split; [done |].
    split; [| split]; intros ? ? ? Hin; by apply elem_of_nil in Hin. }
  pose proof (in_loop_candidates_loop env self (next_ptr w)
                (seq (S (next_ptr w)) n) (S (next_ptr w) + n) params
                (op_names_ self) 0%nat seed w3 _ w4 Hloop) as Hin.
  destruct Hin as (_ & evs & Ht & Hall); [lia |].
  rewrite (new_events_app _ _ _ Ht) in Hev. subst evs.
  rewrite Forall_forall in Hall.
  assert (Hpool : forall p, p ∈ seq (S (next_ptr w)) n -> p <> next_ptr w).
  { intros p Hp%elem_of_seq. lia. }
  assert (Hrest : exists tl,
            new_events w w' =
              setup_events env self params w ++ EvCall d (next_ptr w) OK ::
              ([EvLog m] ++
               map (EvDeepCopy params (0 <? GetRotatingBufferSize (ctx env)))
                   (seq (S (next_ptr w)) n) ++ loopevs ++ tl) /\
            forall e, e ∈ tl ->
              match e with EvDelete _ | EvLog _ => True | _ => False end).
  { destruct o as [r |].
    - destruct Hshape as (_ & _ & ->).
      exists (map EvDelete (seq (S (next_ptr w)) n) ++
              [EvDelete (next_ptr w); EvLog (LogFoundFastest (key_ r))]).
      split; [done |]. intros e He.
      apply elem_of_app in He as [He | He].
      + by apply list_elem_of_fmap in He as (x & -> & _).
      + apply elem_of_cons in He as [-> | He]; [done |].
        by apply list_elem_of_singleton in He as ->.
    - rewrite Hshape. exists []. split; [by rewrite app_nil_r |].
      intros e He. by apply elem_of_nil in He. }
  destruct Hrest as (tl & -> & Htl).
  eexists OK, _. split; [done |]. split; [reflexivity |].
  assert (Hcases : forall e,
            e ∈ [EvLog m] ++
                map (EvDeepCopy params (0 <? GetRotatingBufferSize (ctx env)))
                    (seq (S (next_ptr w)) n) ++ loopevs ++ tl ->
            match e with EvDelete _ | EvLog _ => True | _ => False end \/
            (exists p, e = EvDeepCopy params
                             (0 <? GetRotatingBufferSize (ctx env)) p /\
                       p <> next_ptr w) \/
            loop_event self (next_ptr w) (seq (S (next_ptr w)) n)
              (S (next_ptr w) + n) e).
  { intros e He. apply elem_of_app in He as [He | He].
    { apply list_elem_of_singleton in He as ->. by left. }
    apply elem_of_app in He as [He | He].
    { apply list_elem_of_fmap in He as (p & -> & Hp). right. left. eauto. }
    apply elem_of_app in He as [He | He]; [right; right; by apply Hall |].
    left. by apply Htl. }
  split; [| split].
  - intros c p s He.
    destruct (Hcases _ He) as [[] | [(q & [=] & _) | Hle]].
    simpl in Hle. destruct Hle as [Hc [Hp | Hp]].
    + split; [by apply Hpool | done].
    + split; [lia | done].
  - intros r p s He.
    destruct (Hcases _ He) as [[] | [(q & [=] & _) | Hle]].
    simpl in Hle. destruct Hle as [-> Hp]. split; [done | lia].
  - intros src rot p He.
    destruct (Hcases _ He) as [[] | [(q & [= -> -> ->] & Hq) | Hle]];
      [done |].
    simpl in Hle. lia.
Qed.

(** In the run where SlowKernel fails its gate, every call after the first
    is on another object than the reference copy, object 1. *)
Lemma reference_is_left_alone_witness :
  exists r w',
    finish (FindFastest Example.env_failing Example.op 0%nat Example.w0)
      = Some (Some r, w') /\
    exists d st rest,
      new_events Example.w0 w'
      = setup_events Example.env_failing Example.op 0%nat Example.w0 ++
        EvCall d 1%nat st :: rest /\
      forall r0 p s, EvNumericalCheck r0 p s ∈ rest -> r0 = 1%nat /\ p <> 1%nat.
Proof.
  destruct (FindFastest Example.env_failing Example.op 0%nat Example.w0)
    as [r w' | |] eqn:E; [| vm_compute in E; discriminate E..].
  exists r, w'. split; [reflexivity |].
  destruct (reference_is_left_alone Example.env_failing Example.op 0%nat
              Example.w0 w' (Some r)) as (d & st & rest & _ & Hev & _ & Hnum & _).
  { by rewrite E. }
  exists d, st, rest. split; [exact Hev | exact Hnum].
Defined.

(** ** The calls of a round that tunes *)

Lemma harness_trace_events flush op param n i e :
  e ∈ harness_trace flush op param n i ->
  e = EvFlush \/ exists p, e = EvCall op p OK.
Proof.
  revert i. induction n as [| n IH]; intros i; simpl.
  - by intros ?%elem_of_nil.
  - intros He. apply elem_of_app in He as [He | He].
    + destruct flush; [| by apply elem_of_nil in He].
      apply list_elem_of_singleton in He. by left.
    + apply elem_of_cons in He as [-> | He]; [right; eauto | by apply (IH (S i))].
Qed.

Lemma length_called_harness_trace flush op param n i :
  length (called (harness_trace flush op param n i)) = n.
Proof. by rewrite called_harness_trace, length_map, length_seq. Qed.

(** Discards a message that is in none of the parts of a run. *)
Ltac refute_elem :=
  match goal with
  | H : _ ∈ [] |- _ => by apply elem_of_nil in H
  | H : EvLog (LogTuningUsing _ _ _) = ?e |- _ => discriminate H
  | H : EvLog (LogTuningUsing _ _ _) ∈ ?l,
    Hn : forall j a b, EvLog (LogTuningUsing j a b) ∉ ?l |- _ => by apply Hn in H
  end.

Lemma harness_trace_facts flush op param n :
  (forall j a b, EvLog (LogTuningUsing j a b) ∉
                 harness_trace flush op param n 0) /\
  length (called (harness_trace flush op param n 0)) = n /\
  flushes (harness_trace flush op param n 0) = (if flush then n else 0%nat).
Proof.
  split; [| split].
  - intros j a b Hin. by apply harness_trace_events in Hin as [[=] | [? [=]]].
  - apply length_called_harness_trace.
  - apply flushes_harness_trace.
Qed.

Section Round.

Context (env : Env) (self : TunableOp).

(** The gate makes one call, flushes nothing, and prints nothing about a
    measurement. *)
Lemma gate_calls_once i candidate params reference_params reusable_params w pass w1 :
  gate env i candidate params reference_params reusable_params w = Ok pass w1 ->
  exists evs, trace w1 = trace w ++ evs /\
    length (called evs) = 1%nat /\ flushes evs = 0%nat /\
    forall j a b, EvLog (LogTuningUsing j a b) ∉ evs.
Proof.
  unfold gate. destruct (IsNumericsCheckEnabled (ctx env)).
  - unfold bind at 1. unfold DeepCopy at 1. cbv zeta.
    unfold bind at 1. unfold Call at 1. cbv zeta. cbn [trace].
    destruct (call_status env _ candidate (next_ptr w)) eqn:Est; simpl.
    + unfold bind at 1. unfold NumericalCheck at 1. cbv zeta. cbn [trace].
      match goal with |- context [numerical_check env ?t ?r ?p] =>
        destruct (numerical_check env t r p) eqn:Enum end;
        simpl; intros [= <- <-]; eexists;
        unfold world_emit; cbn [trace]; rewrite <- ?app_assoc;
        (split; [reflexivity |]); simpl; (split; [done |]); (split; [done |]);
        intros j a b Hin; repeat (apply elem_of_cons in Hin as [[=] | Hin]);
        by apply elem_of_nil in Hin.
    + intros [= <- <-]. eexists.
      unfold world_emit; cbn [trace]; rewrite <- ?app_assoc.
      split; [reflexivity |]. simpl. split; [done |]. split; [done |].
      intros j a b Hin. repeat (apply elem_of_cons in Hin as [[=] | Hin]).
      by apply elem_of_nil in Hin.
  - destruct reusable_params as [| p0 rest]; [done |].
    unfold bind at 1. unfold ret at 1.
    unfold bind at 1. unfold Call at 1. cbv zeta.
    destruct (call_status env (trace w) candidate p0) eqn:Est; simpl;
      intros [= <- <-]; eexists;
      unfold world_emit; cbn [trace]; rewrite <- ?app_assoc;
      (split; [reflexivity |]); simpl; (split; [done |]); (split; [done |]);
      intros j a b Hin; repeat (apply elem_of_cons in Hin as [[=] | Hin]);
      by apply elem_of_nil in Hin.
Qed.

End Round.

(** X20.  The calls of a round that tunes add up as its message says.
    When the round of candidate [i] returns after printing "tuning using
    warmup iters W and tuning iters T", the candidate was called once by
    the gate, three times for the approximate profile, then W times to
    warm up and T times under the timer (both counts converted to the
    unsigned size type); and each call past the gate was preceded by a
    flush exactly when flushing is on. *)
Theorem tuned_round_calls (env : Env) (self : TunableOp)
    (params reference_params : ParamsPtr) (reusable_params : list ParamsPtr)
    (i : nat) (name : string) (st st' : double * string) (w w' : World)
    (W T : Z) :
  loop_body env self params reference_params reusable_params i name st w
    = Ok st' w' ->
  EvLog (LogTuningUsing i W T) ∈ new_events w w' ->
  let rounds := (3 + Z.to_nat (wrap_size W) + Z.to_nat (wrap_size T))%nat in
  length (called (new_events w w')) = S rounds /\
  flushes (new_events w w') = (if do_flush env then rounds else 0%nat).
Proof.
  unfold loop_body. cbv zeta. unfold bind at 1. unfold ops_at.
  destruct (ops_ self !! name) as [c |]; [| done].
  unfold ret at 1. unfold bind at 1.
  destruct (gate env i c params reference_params reusable_params w)
    as [pass w1 | |] eqn:Eg; [| done..].
  destruct (gate_calls_once env i c params reference_params reusable_params w
              pass w1 Eg) as (ge & Htg & Hcg & Hfg & Hng).
  destruct pass; cbn [negb].
  2:{ intros [= <- <-] Hin. rewrite (new_events_app _ _ _ Htg) in Hin.
      by apply Hng in Hin. }
  unfold bind at 1.
  destruct (Profile env c reusable_params approx_num_iter w1)
    as [approx w2 | |] eqn:Ep; [| done..].
  apply Profile_run in Ep as [-> _].
  change (Z.to_nat approx_num_iter) with 3%nat.
  destruct (harness_trace_facts (do_flush env) c reusable_params 3)
    as (Hn3 & Hc3 & Hf3).
  set (h3 := harness_trace (do_flush env) c reusable_params 3 0) in *.
  clearbody h3.
  destruct (too_slow approx st.1).
  { unfold bind at 1. unfold TUNABLE_LOG, emit, ret.
    intros [= <- <-] Hin. exfalso. revert Hin.
    unfold new_events. cbn [trace with_events world_emit].
    rewrite Htg, <- !app_assoc, drop_app_length. intros Hin.
    repeat (rewrite ?elem_of_app, ?elem_of_cons in Hin).
    decompose [or] Hin; refute_elem. }
  destruct (warmup_iterations env approx) as [warmup_iter |]; [| done].
  destruct (tuning_iterations env approx _) as [tuning_iter |]; [| done].
  unfold bind at 1. unfold TUNABLE_LOG at 1, emit at 1.
  unfold bind at 1.
  destruct (WarmUp env c reusable_params (wrap_size warmup_iter) _)
    as [[] w3 | |] eqn:Ew; [| done..].
  apply WarmUp_run in Ew as ->.
  destruct (harness_trace_facts (do_flush env) c reusable_params
              (Z.to_nat (wrap_size warmup_iter))) as (HnW & HcW & HfW).
  set (hW := harness_trace (do_flush env) c reusable_params
               (Z.to_nat (wrap_size warmup_iter)) 0) in *.
  clearbody hW.
  unfold bind at 1.
  destruct (Profile env c reusable_params (wrap_size tuning_iter) _)
    as [duration_ms w4 | |] eqn:Ep2; [| done..].
  apply Profile_run in Ep2 as [-> _].
  destruct (harness_trace_facts (do_flush env) c reusable_params
              (Z.to_nat (wrap_size tuning_iter))) as (HnT & HcT & HfT).
  set (hT := harness_trace (do_flush env) c reusable_params
               (Z.to_nat (wrap_size tuning_iter)) 0) in *.
  clearbody hT.
  intros Hret Hin.
  assert (Hw' : exists tl,
            w' = with_events
                   (with_events
                      (with_events
                         (world_emit (EvLog (LogTuningUsing i warmup_iter tuning_iter))
                            (with_events w1 (EvTimerStart :: h3 ++ [EvTimerEnd])))
                         hW)
                      (EvTimerStart :: hT ++ [EvTimerEnd]))
                   tl /\
            (tl = [] \/ exists d, tl = [EvLog (LogFoundBetter i d)])).
  { destruct (dlt duration_ms st.1).
    - revert Hret. unfold bind, TUNABLE_LOG, emit, ret. intros [= _ <-].
      eexists. split; [by rewrite world_emit_eq | eauto].
    - revert Hret. unfold ret. intros [= _ <-].
      exists []. split; [by rewrite with_events_nil | by left]. }
  destruct Hw' as (tl & -> & Htl). clear Hret.
  revert Hin. unfold new_events. cbn [trace with_events world_emit].
  rewrite Htg, <- !app_assoc, drop_app_length.
  cbn [app]. rewrite <- !app_assoc. cbn [app]. intros Hin.
  assert (HWT : warmup_iter = W /\ tuning_iter = T).
  { repeat (rewrite ?elem_of_app, ?elem_of_cons in Hin).
    destruct Htl as [-> | [d ->]];
      repeat (rewrite ?elem_of_app, ?elem_of_cons in Hin);
      decompose [or] Hin; try refute_elem;
      match goal with
      | H : EvLog (LogTuningUsing _ _ _) = EvLog (LogTuningUsing _ _ _) |- _ =>
          by injection H as -> ->
      end. }
  destruct HWT as [-> ->]. clear Hin.
  assert (Htlc : called tl = [] /\ flushes tl = 0%nat).
  { by destruct Htl as [-> | [d ->]]. }
  destruct Htlc as [Hc1 Hc2].
  repeat (rewrite ?called_app, ?flushes_app, ?length_app;
          cbn [called flushes length]).
  rewrite Hc1, Hc2, Hcg, Hfg, Hc3, Hf3, HcW, HfW, HcT, HfT. cbn [length].
  split; [lia |]. destruct (do_flush env); lia.
Qed.

(** The round of Default in the example: one warm-up round and ten timed
    ones, fifteen calls in all. *)
Lemma tuned_round_calls_witness :
  loop_body Example.env Example.op 0%nat 1%nat [2%nat] 0 "Default" seed Example.w0
    = Ok (double_of_Z 10, "Default"%string) example_round_world /\
  EvLog (LogTuningUsing 0 1 10) ∈ new_events Example.w0 example_round_world /\
  length (called (new_events Example.w0 example_round_world)) = 15%nat.
Proof.
  assert (Hrun : loop_body Example.env Example.op 0%nat 1%nat [2%nat] 0 "Default"
                   seed Example.w0
                 = Ok (double_of_Z 10, "Default"%string) example_round_world).
  { vm_compute. reflexivity. }
  assert (Hin : EvLog (LogTuningUsing 0 1 10)
                ∈ new_events Example.w0 example_round_world).
  { apply list_elem_of_In. vm_compute.
    repeat (first [left; reflexivity | right]). }
  split; [exact Hrun |]. split; [exact Hin |].
  exact (proj1 (tuned_round_calls Example.env Example.op 0%nat 1%nat [2%nat]
                  0%nat "Default"%string seed _ Example.w0 example_round_world
                  1 10 Hrun Hin)).
Defined.

(** * The fallback and the first measurement *)

(** For a name that fits the buffer, the first call of [Signature()]
    memoizes what [CreateSignature] returns. *)
Lemma CreateSignature_fits (env : Env) (s : string) (w : World) :
  CreateSignature (type_name env) = Some s -> signature_ w = None ->
  exists w', Signature env w = Ok s w' /\ signature_ w' = Some s /\
             trace w' = trace w.
Proof.
  unfold CreateSignature, Signature. intros Hs ->.
  destruct (String.length (type_name env) <? 256)%nat; [| done].
  injection Hs as <-. by eexists.
Qed.

Lemma tuning_iterations_positive (env : Env) (approx_duration : double)
    (pool_size T : Z) :
  tuning_iterations env approx_duration pool_size = Some T -> 1 <= T.
Proof.
  unfold tuning_iterations. intros H.
  repeat match type of H with
         | context [if ?b then _ else _] => destruct b
         | context [match ?x with _ => _ end] => destruct x
         end; try discriminate H; injection H as <-; lia.
Qed.

Lemma with_events_emit_app (w : World) (e : Event) (l1 l2 : list Event) :
  with_events (with_events (world_emit e w) l1) l2
  = with_events w (e :: l1 ++ l2).
Proof. by rewrite world_emit_eq, !with_events_app. Qed.

Section FirstMeasurement.

Context (env : Env) (self : TunableOp).

(** A round entered with the infinite minimum prints no early bail,
    however it ends. *)
Lemma no_skip_under_seed params reference_params reusable_params i name st w1 o1 w2 :
  fst st = infinity ->
  finish (loop_body env self params reference_params reusable_params i name st w1)
    = Some (o1, w2) ->
  EvLog (LogSkipSlow i) ∉ new_events w1 w2.
Proof.
  intros Hinf Hfin.
  destruct (post_loop_body env self params reference_params reusable_params
              i name st w1 o1 w2 Hfin) as (evs & Ht & Hb & _).
  rewrite (new_events_app _ _ _ Ht), <- elem_of_logs_of.
  inversion Hb; subst;
    try (match goal with H : too_slow _ _ = true |- _ =>
           rewrite Hinf, too_slow_infinity in H; discriminate H end);
    intros Hin; repeat (apply elem_of_cons in Hin as [[=] | Hin]);
    by apply elem_of_nil in Hin.
Qed.

(** A round entered with the infinite minimum that returns: the gate
    turned the candidate away, or the candidate went through the whole
    measurement. *)
Lemma round_under_seed params reference_params reusable_params i name st w1 st' w2 :
  fst st = infinity ->
  loop_body env self params reference_params reusable_params i name st w1
    = Ok st' w2 ->
  exists candidate pass wg,
    ops_ self !! name = Some candidate /\
    gate env i candidate params reference_params reusable_params w1 = Ok pass wg /\
    if pass
    then full_measurement env candidate reusable_params i name st st' wg w2
    else st' = st /\ w2 = wg /\
         (EvLog (LogUnsupported i) ∈ new_events w1 w2 \/
          EvLog (LogNumericsFailed i) ∈ new_events w1 w2).
Proof.
  intros Hinf. unfold loop_body. cbv zeta. unfold bind at 1. unfold ops_at.
  destruct (ops_ self !! name) as [c |]; [| done].
  unfold ret at 1. unfold bind at 1.
  destruct (gate env i c params reference_params reusable_params w1)
    as [pass wg | |] eqn:Eg; [| done..].
  intros Hrun. exists c, pass, wg. split; [done |]. split; [done |].
  revert Hrun. destruct pass; cbn [negb].
  2:{ intros [= <- <-]. split; [done |]. split; [done |].
      destruct (post_gate env i c params reference_params reusable_params w1
                  (Some false) wg) as (evs & Ht & Hg); [by rewrite Eg |].
      rewrite (new_events_app _ _ _ Ht), <- !elem_of_logs_of.
      destruct Hg as [-> | ->]; [left | right]; apply list_elem_of_here. }
  unfold bind at 1.
  destruct (Profile env c reusable_params approx_num_iter wg)
    as [approx wa | |] eqn:Ep; [| done..].
  apply Profile_run in Ep as [-> Happrox].
  rewrite Hinf, too_slow_infinity.
  destruct (warmup_iterations env approx) as [W |] eqn:EW; [| done].
  destruct (tuning_iterations env approx _) as [T |] eqn:ET; [| done].
  unfold bind at 1. unfold TUNABLE_LOG at 1, emit at 1.
  unfold bind at 1.
  destruct (WarmUp env c reusable_params (wrap_size W) _)
    as [[] ww | |] eqn:Ew; [| done..].
  apply WarmUp_run in Ew as ->.
  unfold bind at 1.
  destruct (Profile env c reusable_params (wrap_size T) _)
    as [d wm | |] eqn:Ep2; [| done..].
  apply Profile_run in Ep2 as [-> Hd].
  intros Hret. exists approx, W, T, d. cbv zeta.
  split; [exact Happrox |]. split; [exact EW |]. split; [exact ET |].
  split; [by eapply tuning_iterations_positive |].
  rewrite with_events_emit_app in Hd, Hret.
  split; [exact Hd |].
  rewrite Hinf. revert Hret. destruct (dlt d infinity).
  - unfold bind, TUNABLE_LOG, emit, ret. intros [= <- <-].
    split; [done |]. by rewrite world_emit_eq.
  - unfold ret. by intros [= <- <-].
Qed.

End FirstMeasurement.

(** C10.  No candidate is bailed out before a measurement has lowered
    the minimum.  The minimum starts at infinity, and against an infinite
    minimum the bail test fails for every approximate duration.  So a
    round entered with an infinite minimum never prints the early bail,
    whether it returns or ends with a fatal error; and if it returns, it
    did one of two things only.  Either the gate stopped the candidate:
    a message says so and the state is as it was.  Or the candidate went
    through all of [full_measurement] from the world the gate left: the
    approximate profile of three rounds under the timer, the calibration
    of the warm-up and tuning counts from its mean (at least one tuning
    iteration), the message with the two counts, the warm-up rounds, the
    tuning rounds under the timer, and the comparison of their mean with
    the minimum; the world after the round holds these events and no
    others.  In a whole run that ends, every early bail comes after an
    improvement of the minimum. *)
Theorem no_bail_before_first_measurement (env : Env) (self : TunableOp)
    (params : ParamsPtr) (w w' : World) (o : option ResultEntry) :
  finish (FindFastest env self params w) = Some (o, w') ->
  fst seed = infinity /\
  (forall approx_duration, too_slow approx_duration infinity = false) /\
  (forall reference_params reusable_params i name st w1 o1 w2,
      fst st = infinity ->
      finish (loop_body env self params reference_params reusable_params
                i name st w1) = Some (o1, w2) ->
      (EvLog (LogSkipSlow i) ∉ new_events w1 w2) /\
      forall st', o1 = Some st' ->
        exists candidate pass wg,
          ops_ self !! name = Some candidate /\
          gate env i candidate params reference_params reusable_params w1
            = Ok pass wg /\
          if pass
          then full_measurement env candidate reusable_params i name st st' wg w2
          else st' = st /\ w2 = wg /\
               (EvLog (LogUnsupported i) ∈ new_events w1 w2 \/
                EvLog (LogNumericsFailed i) ∈ new_events w1 w2)) /\
  (forall l1 i l2,
      logs_of (new_events w w') = l1 ++ LogSkipSlow i :: l2 ->
      exists j d, LogFoundBetter j d ∈ l1).
Proof.
  intros Hfin. split; [done |]. split; [apply too_slow_infinity |]. split.
  - intros reference_params reusable_params i name st w1 o1 w2 Hinf Hrun.
    split; [by eapply no_skip_under_seed |].
    intros st' ->. apply round_under_seed; [done |].
    destruct (loop_body env self params reference_params reusable_params
                i name st w1); simpl in Hrun; congruence.
  - by eapply skip_follows_improvement.
Qed.

(** The round of Default in the example starts from the seed: it is not
    bailed out, and it is measured in full. *)
Lemma no_bail_before_first_measurement_witness :
  finish (FindFastest Example.env Example.op 0%nat Example.w0)
    = Some (Some example_result, example_world) /\
  fst seed = infinity /\
  finish (loop_body Example.env Example.op 0%nat 1%nat [2%nat] 0 "Default" seed
            Example.w0)
    = Some (Some (double_of_Z 10, "Default"%string), example_round_world) /\
  (EvLog (LogSkipSlow 0) ∉ new_events Example.w0 example_round_world) /\
  (exists candidate pass wg,
     ops_ Example.op !! "Default"%string = Some candidate /\
     gate Example.env 0 candidate 0%nat 1%nat [2%nat] Example.w0 = Ok pass wg /\
     if pass
     then full_measurement Example.env candidate [2%nat] 0 "Default" seed
            (double_of_Z 10, "Default"%string) wg example_round_world
     else (double_of_Z 10, "Default"%string) = seed /\ example_round_world = wg /\
          (EvLog (LogUnsupported 0) ∈ new_events Example.w0 example_round_world \/
           EvLog (LogNumericsFailed 0) ∈ new_events Example.w0 example_round_world)) /\
  forall l1 i l2,
    logs_of (new_events Example.w0 example_world) = l1 ++ LogSkipSlow i :: l2 ->
    exists j d, LogFoundBetter j d ∈ l1.
Proof.
  assert (Hfin : finish (FindFastest Example.env Example.op 0%nat Example.w0)
                 = Some (Some example_result, example_world)).
  { vm_compute. reflexivity. }
  assert (Hround : finish (loop_body Example.env Example.op 0%nat 1%nat [2%nat] 0
                             "Default" seed Example.w0)
                   = Some (Some (double_of_Z 10, "Default"%string),
                           example_round_world)).
  { vm_compute. reflexivity. }
  destruct (no_bail_before_first_measurement Example.env Example.op 0%nat
              Example.w0 example_world (Some example_result) Hfin)
    as (Hseed & _ & Hrounds & Hbails).
  destruct (Hrounds 1%nat [2%nat] 0%nat "Default"%string seed Example.w0 _ _
              Hseed Hround) as [Hno Hfull].
  split; [exact Hfin |]. split; [exact Hseed |]. split; [exact Hround |].
  split; [exact Hno |]. split; [exact (Hfull _ eq_refl) |]. exact Hbails.
Defined.

(** C3, amended.  What a call falls back to depends on which switch is
    off.  With the tunable-op feature off the cache is not read: whatever
    it holds, the call does one thing, a call of the candidate registered
    as Default.  With the feature on and only tuning off the cache is
    read and obeyed: when nothing is stored for the pair the call says so
    and calls Default; when a decision is stored the call dispatches the
    candidate that decision names, which need not be Default, and ends
    with a fatal error when no candidate has that name.  In none of the
    cases is the cache written. *)
Theorem fallback_dispatch (env : Env) (self : TunableOp) (params : ParamsPtr)
    (w : World) (default_op : Callable) :
  ops_ self !! "Default"%string = Some default_op ->
  (IsTunableOpEnabled (ctx env) = false ->
     exists status w',
       operator_call env self params w = Ok status w' /\
       new_events w w' = [EvCall default_op params status] /\
       mgr w' = mgr w) /\
  (IsTunableOpEnabled (ctx env) = true ->
   IsTuningEnabled (ctx env) = false ->
     let stored := cached env params w in
     let lookup := EvLookup (op_signature env w) (params_signature env params)
                     stored in
     if ResultEntry.eqb stored ResultEntry.Null
     then exists status w',
            operator_call env self params w = Ok status w' /\
            new_events w w' = [lookup; EvLog LogNoResult;
                               EvCall default_op params status] /\
            mgr w' = mgr w
     else match ops_ self !! key_ stored with
          | Some op =>
              exists status w',
                operator_call env self params w = Ok status w' /\
                new_events w w' = [lookup; EvCall op params status] /\
                mgr w' = mgr w
          | None =>
              exists w',
                operator_call env self params w = Fatal w' /\
                new_events w w' = [lookup] /\
                mgr w' = mgr w
          end).
Proof.
  intros Hdef. split.
  - intros Hoff.
    destruct (feature_off_dispatches_default env self params w default_op Hoff Hdef)
      as (status & w' & Hrun & Hev & _ & Hmgr).
    by exists status, w'.
  - intros Hon Hoff. cbv zeta.
    rewrite (operator_call_enabled env self params w Hon), Hoff.
    destruct (ResultEntry.eqb (cached env params w) ResultEntry.Null) eqn:Hnull.
    + simpl. unfold bind at 1. unfold ret at 1. rewrite Hnull.
      unfold bind at 1. unfold bind at 1. unfold TUNABLE_LOG, emit, ret.
      rewrite (dispatch_run env self ResultEntry.Default params _ default_op Hdef).
      eexists _, _. split; [reflexivity |]. split; [| done].
      apply new_events_looked_up. simpl. by rewrite <- app_assoc.
    + destruct (ops_ self !! key_ (cached env params w)) as [op |] eqn:Hop;
        simpl; unfold bind at 1; unfold ret at 1; rewrite Hnull;
        unfold bind at 1; unfold ret at 1.
      * rewrite (dispatch_run env self _ params _ op Hop).
        eexists _, _. split; [reflexivity |]. split; [| done].
        by apply new_events_looked_up.
      * rewrite (dispatch_missing env self _ params _ Hop).
        eexists. split; [reflexivity |]. split; [| done].
        apply new_events_looked_up. by rewrite app_nil_r.
Qed.

(** The three ways of the fallback in the example: the feature off over a
    cache that names FastKernel; tuning off over an empty cache; tuning
    off over the cache that names FastKernel. *)
Lemma fallback_dispatch_witness :
  ops_ Example.op !! "Default"%string = Some 0%nat /\
  IsTunableOpEnabled (ctx Example.env_off) = false /\
  (exists status w',
     operator_call Example.env_off Example.op 0%nat Example.w_cached = Ok status w' /\
     new_events Example.w_cached w' = [EvCall 0%nat 0%nat status] /\
     mgr w' = mgr Example.w_cached) /\
  IsTunableOpEnabled (ctx Scenario.env_no_tuning) = true /\
  IsTuningEnabled (ctx Scenario.env_no_tuning) = false /\
  (exists status w',
     operator_call Scenario.env_no_tuning Example.op 0%nat Example.w0 = Ok status w' /\
     new_events Example.w0 w' =
       [EvLookup "ExampleOp" "params" ResultEntry.Null; EvLog LogNoResult;
        EvCall 0%nat 0%nat status] /\
     mgr w' = mgr Example.w0) /\
  (exists status w',
     operator_call Scenario.env_no_tuning Example.op 0%nat Example.w_cached
       = Ok status w' /\
     new_events Example.w_cached w' =
       [EvLookup "ExampleOp" "params" (mkResultEntry "FastKernel" (double_of_Z 2));
        EvCall 1%nat 0%nat status] /\
     mgr w' = mgr Example.w_cached).
Proof.
  assert (Hdef : ops_ Example.op !! "Default"%string = Some 0%nat) by reflexivity.
  split; [exact Hdef |]. split; [reflexivity |].
  split.
  { exact (proj1 (fallback_dispatch Example.env_off Example.op 0%nat
                    Example.w_cached 0%nat Hdef) eq_refl). }
  split; [reflexivity |]. split; [reflexivity |].
  split.
  - exact (proj2 (fallback_dispatch Scenario.env_no_tuning Example.op 0%nat
                    Example.w0 0%nat Hdef) eq_refl eq_refl).
  - exact (proj2 (fallback_dispatch Scenario.env_no_tuning Example.op 0%nat
                    Example.w_cached 0%nat Hdef) eq_refl eq_refl).
Defined.

(** With tuning off, the feature on and a decision for FastKernel in the
    cache, the call is dispatched to FastKernel: Default is not called. *)
Lemma tuning_off_uses_cache :
  IsTuningEnabled (ctx Scenario.env_no_tuning) = false /\
  ops_ Example.op !! "Default"%string = Some 0%nat /\
  ops_ Example.op !! "FastKernel"%string = Some 1%nat /\
  Example.w_cached.(mgr) !! ("ExampleOp"%string, "params"%string)
    = Some (mkResultEntry "FastKernel" (double_of_Z 2)) /\
  operator_call Scenario.env_no_tuning Example.op 0%nat Example.w_cached
    = Ok OK {| trace := [EvLookup "ExampleOp" "params"
                           (mkResultEntry "FastKernel" (double_of_Z 2));
                         EvCall 1%nat 0%nat OK];
               next_ptr := next_ptr Example.w_cached;
               mgr := mgr Example.w_cached;
               signature_ := Some "ExampleOp"%string |} /\
  ~ (exists status w',
       operator_call Scenario.env_no_tuning Example.op 0%nat Example.w_cached
         = Ok status w' /\
       exists params, EvCall 0%nat params status ∈ new_events Example.w_cached w').
Proof.
  split; [reflexivity |]. split; [reflexivity |]. split; [reflexivity |].
  split; [reflexivity |]. split; [vm_compute; reflexivity |].
  intros (status & w' & Hrun & p & Hin).
  vm_compute in Hrun. injection Hrun as <- <-.
  apply list_elem_of_In in Hin. vm_compute in Hin.
  destruct Hin as [[=] | [[=] | []]].
Qed.
